(** * memmgr: a statically-allocated memory manager (src/memmgr.c)

    Shallow embedding of the K&R style first-fit allocator of memmgr.c and
    the properties of its specification.

    Memory is byte addressed ([Z -> Z]); a [mem_header_t] is read and
    written through its two fields, stored little-endian at fixed offsets.
    The header file memmgr.h is not part of the sources, so everything it
    fixes is a field of [config]: the size of a header, the width of
    [memmgr_int_t] (unsigned, as the [%llu] of memmgr_print_stats shows),
    [POOL_SIZE], [MIN_POOL_ALLOC_QUANTAS], and the addresses the linker gives
    to [real_pool] and to [base].  Loops carry fuel: [None] means the fuel
    ran out, never a result of the C code.

    Arithmetic of [memmgr_int_t] wraps around ([wrap]).  Addresses are
    integers and pointer arithmetic is not reduced modulo the pointer size:
    this is the arithmetic of the C code as long as no address computed
    reaches that modulus, which is the case in every state reached by calls
    whose size arithmetic does not wrap (all blocks lie inside the pool), the
    states the general theorems are about.  The statics [freep] and
    [pool_free_pos] are fields of the state, so no store through a header
    reaches them; in those states every header the code writes lies in the
    pool or is [base]. *)

From Stdlib Require Import ZArith List Bool Lia.
Import ListNotations.
Local Open Scope Z_scope.

(** ** Configuration: what memmgr.h and the ABI decide *)

Record config : Type := mkConfig {
  HSZ : Z;                      (* sizeof(mem_header_t) *)
  PTR_BYTES : nat;              (* sizeof(mem_header_t * ) *)
  INT_BYTES : nat;              (* sizeof(memmgr_int_t) *)
  SIZE_OFF : Z;                 (* offsetof(mem_header_t, s.size) *)
  POOL_SIZE : Z;
  MIN_POOL_ALLOC_QUANTAS : Z;
  pool : Z;                     (* address of real_pool *)
  base : Z                      (* address of the sentinel header *)
}.

(** ** Byte memory and little-endian fields *)

Definition memory := Z -> Z.

Definition upd (m : memory) (a v : Z) : memory :=
  fun x => if x =? a then v else m x.

Fixpoint load_le (m : memory) (a : Z) (n : nat) : Z :=
  match n with
  | O => 0
  | S k => m a mod 256 + 256 * load_le m (a + 1) k
  end.

Fixpoint store_le (m : memory) (a : Z) (n : nat) (v : Z) : memory :=
  match n with
  | O => m
  | S k => store_le (upd m a (v mod 256)) (a + 1) k (v / 256)
  end.

(* memcpy(dst, src, n): the source is read before anything is written *)
Definition memcpy (m : memory) (dst src n : Z) : memory :=
  fun x => if (dst <=? x) && (x <? dst + n) then m (src + (x - dst)) else m x.

(* memset(dst, 0, n) *)
Definition memset0 (m : memory) (dst n : Z) : memory :=
  fun x => if (dst <=? x) && (x <? dst + n) then 0 else m x.

Section Allocator.

Variable c : config.

Definition IMOD : Z := 256 ^ Z.of_nat (INT_BYTES c).
Definition PMOD : Z := 256 ^ Z.of_nat (PTR_BYTES c).

(* arithmetic of memmgr_int_t *)
Definition wrap (x : Z) : Z := x mod IMOD.

(* p->s.next, p->s.size *)
Definition ld_next (m : memory) (p : Z) : Z := load_le m p (PTR_BYTES c).
Definition ld_size (m : memory) (p : Z) : Z :=
  load_le m (p + SIZE_OFF c) (INT_BYTES c).
Definition st_next (m : memory) (p v : Z) : memory :=
  store_le m p (PTR_BYTES c) v.
Definition st_size (m : memory) (p v : Z) : memory :=
  store_le m (p + SIZE_OFF c) (INT_BYTES c) v.

(** ** The allocator state: the statics of memmgr.c

    [base], a header, lives in memory at address [base c]; [freep] and
    [pool_free_pos] are kept apart from the byte memory. *)

Record state : Type := mkState {
  mem : memory;
  freep : Z;                    (* 0 is the null pointer *)
  pool_free_pos : Z
}.

Definition set_mem (s : state) (m : memory) : state :=
  mkState m (freep s) (pool_free_pos s).

Definition memmgr_init (s : state) : state :=
  let m1 := st_next (mem s) (base c) 0 in
  let m2 := st_size m1 (base c) 0 in
  mkState m2 0 0.

(** The scan of memmgr_free: the [for] loop with its [break]. *)
Fixpoint free_scan (fuel : nat) (m : memory) (block p : Z) : option Z :=
  match fuel with
  | O => None
  | S f =>
      if (p <? block) && (block <? ld_next m p) then Some p
      else if (ld_next m p <=? p) && ((p <? block) || (block <? ld_next m p))
           then Some p
           else free_scan f m block (ld_next m p)
  end.

Definition free_link (m : memory) (block p : Z) : memory :=
  (* combine with the higher neighbor *)
  let m1 :=
    if block + ld_size m block * HSZ c =? ld_next m p then
      let ma := st_size m block
                  (wrap (ld_size m block + ld_size m (ld_next m p))) in
      st_next ma block (ld_next ma (ld_next ma p))
    else st_next m block (ld_next m p) in
  (* combine with the lower neighbor *)
  if p + ld_size m1 p * HSZ c =? block then
    let mb := st_size m1 p (wrap (ld_size m1 p + ld_size m1 block)) in
    st_next mb p (ld_next mb block)
  else st_next m1 p block.

Definition memmgr_free (fuel : nat) (ap : Z) (s : state) : option state :=
  if ap =? 0 then Some s
  else
    let block := ap - HSZ c in
    match free_scan fuel (mem s) block (freep s) with
    | None => None
    | Some p => Some (mkState (free_link (mem s) block p) p (pool_free_pos s))
    end.

(** The result pairs the returned pointer (0 for NULL) with the new state. *)
Definition get_mem_from_pool (fuel : nat) (nquantas : Z) (s : state)
  : option (Z * state) :=
  let nquantas :=
    if nquantas <? MIN_POOL_ALLOC_QUANTAS c
    then MIN_POOL_ALLOC_QUANTAS c else nquantas in
  let total_req_size := wrap (nquantas * HSZ c) in
  if wrap (pool_free_pos s + total_req_size) <=? POOL_SIZE c then
    let h := pool c + pool_free_pos s in
    let s1 := set_mem s (st_size (mem s) h nquantas) in
    match memmgr_free fuel (h + HSZ c) s1 with
    | None => None
    | Some s2 =>
        let s3 := mkState (mem s2) (freep s2)
                    (wrap (pool_free_pos s2 + total_req_size)) in
        Some (freep s3, s3)
    end
  else Some (0, s).

(* (nbytes + sizeof(mem_header_t) - 1) / sizeof(mem_header_t) + 1 *)
Definition quantas (nbytes : Z) : Z :=
  wrap (wrap (nbytes + HSZ c - 1) / HSZ c + 1).

Fixpoint alloc_loop (fuel : nat) (nquantas prevp p : Z) (s : state)
  : option (Z * state) :=
  match fuel with
  | O => None
  | S f =>
      let m := mem s in
      if nquantas <=? ld_size m p then
        if ld_size m p =? nquantas then
          let m1 := st_next m prevp (ld_next m p) in
          Some (p + HSZ c, mkState m1 prevp (pool_free_pos s))
        else
          let m1 := st_size m p (wrap (ld_size m p - nquantas)) in
          let p' := p + ld_size m1 p * HSZ c in
          let m2 := st_size m1 p' nquantas in
          Some (p' + HSZ c, mkState m2 prevp (pool_free_pos s))
      else if p =? freep s then
        match get_mem_from_pool f nquantas s with
        | None => None
        | Some (p', s') =>
            if p' =? 0 then Some (0, s')
            else alloc_loop f nquantas p' (ld_next (mem s') p') s'
        end
      else alloc_loop f nquantas p (ld_next m p) s
  end.

Definition memmgr_alloc (fuel : nat) (nbytes : Z) (s : state)
  : option (Z * state) :=
  let nquantas := quantas nbytes in
  let s1 :=
    if freep s =? 0 then
      let m1 := st_next (mem s) (base c) (base c) in
      let m2 := st_size m1 (base c) 0 in
      mkState m2 (base c) (pool_free_pos s)
    else s in
  let prevp := freep s1 in
  alloc_loop fuel nquantas prevp (ld_next (mem s1) prevp) s1.

Definition memmgr_realloc (fuel : nat) (ap nbytes : Z) (s : state)
  : option (Z * state) :=
  if ap =? 0 then memmgr_alloc fuel nbytes s
  else if nbytes =? 0 then
    match memmgr_free fuel ap s with
    | None => None
    | Some s' => Some (0, s')
    end
  else
    let block := ap - HSZ c in
    let expected := quantas nbytes in
    if expected <=? ld_size (mem s) block then Some (ap, s)
    else
      match memmgr_alloc fuel nbytes s with
      | None => None
      | Some (ptrNew, s1) =>
          let originalLength := wrap ((ld_size (mem s1) block - 1) * HSZ c) in
          if ptrNew =? 0 then Some (ptrNew, s1)
          else
            let s2 := set_mem s1 (memcpy (mem s1) ptrNew ap originalLength) in
            match memmgr_free fuel ap s2 with
            | None => None
            | Some s3 => Some (ptrNew, s3)
            end
      end.

Definition memmgr_calloc (fuel : nat) (num nbytes : Z) (s : state)
  : option (Z * state) :=
  let n := wrap (num * nbytes) in
  match memmgr_alloc fuel n s with
  | None => None
  | Some (p, s1) =>
      if p =? 0 then Some (p, s1)
      else Some (p, set_mem s1 (memset0 (mem s1) p n))
  end.

End Allocator.

(** ** Little-endian fields: stores, loads and frames *)

Lemma upd_same m a v : upd m a v a = v.
Proof. unfold upd. now rewrite Z.eqb_refl. Qed.

Lemma upd_other m a v x : x <> a -> upd m a v x = m x.
Proof. unfold upd. intros E. apply Z.eqb_neq in E. now rewrite E. Qed.

Lemma store_le_out n : forall m a v x,
  x < a \/ a + Z.of_nat n <= x -> store_le m a n v x = m x.
Proof.
  induction n as [|n IH]; intros m a v x Hx; simpl; [reflexivity|].
  rewrite IH by lia. apply upd_other. lia.
Qed.

Lemma load_le_ext n : forall m m' a,
  (forall x, a <= x < a + Z.of_nat n -> m' x = m x) ->
  load_le m' a n = load_le m a n.
Proof.
  induction n as [|n IH]; intros m m' a E; simpl; [reflexivity|].
  rewrite (E a) by lia. rewrite (IH m m' (a + 1)); [reflexivity|].
  intros x Hx. apply E. lia.
Qed.

Lemma load_le_range n : forall m a, 0 <= load_le m a n < 256 ^ Z.of_nat n.
Proof.
  induction n as [|n IH]; intros m a.
  - simpl. lia.
  - cbn [load_le]. rewrite Nat2Z.inj_succ, Z.pow_succ_r by lia.
    specialize (IH m (a + 1)).
    pose proof (Z.mod_pos_bound (m a) 256 ltac:(lia)). lia.
Qed.

Lemma load_store_le n : forall m a v,
  0 <= v < 256 ^ Z.of_nat n -> load_le (store_le m a n v) a n = v.
Proof.
  induction n as [|n IH]; intros m a v Hv.
  - simpl in *. lia.
  - cbn [load_le store_le].
    rewrite Nat2Z.inj_succ, Z.pow_succ_r in Hv by lia.
    rewrite IH.
    + rewrite store_le_out by lia. rewrite upd_same.
      rewrite Z.mod_mod by lia.
      pose proof (Z.div_mod v 256 ltac:(lia)). lia.
    + split; [apply Z.div_pos; lia|]. apply Z.div_lt_upper_bound; lia.
Qed.

(** The layout of a header: [next] first, [size] after it, both inside the
    header; with two non-empty fields a header has at least two bytes. *)
Definition layout_ok (c : config) : Prop :=
  (0 < PTR_BYTES c)%nat /\ (0 < INT_BYTES c)%nat /\
  Z.of_nat (PTR_BYTES c) <= SIZE_OFF c /\
  SIZE_OFF c + Z.of_nat (INT_BYTES c) <= HSZ c.

Section Fields.

Variable c : config.
Hypothesis LAY : layout_ok c.

Lemma HSZ_ge2 : 2 <= HSZ c.
Proof. destruct LAY as (? & ? & ? & ?). lia. Qed.

Lemma IMOD_pos : 256 <= IMOD c.
Proof.
  unfold IMOD. destruct LAY as (_ & Hi & _).
  destruct (INT_BYTES c) as [|k]; [lia|].
  rewrite Nat2Z.inj_succ, Z.pow_succ_r by lia.
  assert (0 < 256 ^ Z.of_nat k) by (apply Z.pow_pos_nonneg; lia). lia.
Qed.

Lemma PMOD_pos : 256 <= PMOD c.
Proof.
  unfold PMOD. destruct LAY as (Hp & _).
  destruct (PTR_BYTES c) as [|k]; [lia|].
  rewrite Nat2Z.inj_succ, Z.pow_succ_r by lia.
  assert (0 < 256 ^ Z.of_nat k) by (apply Z.pow_pos_nonneg; lia). lia.
Qed.

Lemma st_size_out m p v x : x < p \/ p + HSZ c <= x -> st_size c m p v x = m x.
Proof.
  intros Hx. unfold st_size. apply store_le_out.
  destruct LAY as (? & ? & ? & ?). lia.
Qed.

Lemma st_next_out m p v x : x < p \/ p + HSZ c <= x -> st_next c m p v x = m x.
Proof.
  intros Hx. unfold st_next. apply store_le_out.
  destruct LAY as (? & ? & ? & ?). lia.
Qed.

Lemma ld_size_frame m m' p :
  (forall x, p <= x < p + HSZ c -> m' x = m x) -> ld_size c m' p = ld_size c m p.
Proof.
  intros E. unfold ld_size. apply load_le_ext. intros x Hx. apply E.
  destruct LAY as (? & ? & ? & ?). lia.
Qed.

Lemma ld_next_frame m m' p :
  (forall x, p <= x < p + HSZ c -> m' x = m x) -> ld_next c m' p = ld_next c m p.
Proof.
  intros E. unfold ld_next. apply load_le_ext. intros x Hx. apply E.
  destruct LAY as (? & ? & ? & ?). lia.
Qed.

Lemma ld_size_range m p : 0 <= ld_size c m p < IMOD c.
Proof. apply load_le_range. Qed.

Lemma ld_next_range m p : 0 <= ld_next c m p < PMOD c.
Proof. apply load_le_range. Qed.

Lemma size_st_size m p v : 0 <= v < IMOD c -> ld_size c (st_size c m p v) p = v.
Proof. intros Hv. apply load_store_le. exact Hv. Qed.

Lemma next_st_next m p v : 0 <= v < PMOD c -> ld_next c (st_next c m p v) p = v.
Proof. intros Hv. apply load_store_le. exact Hv. Qed.

Lemma next_st_size m p v : ld_next c (st_size c m p v) p = ld_next c m p.
Proof.
  unfold ld_next, st_size. apply load_le_ext. intros x Hx.
  apply store_le_out. destruct LAY as (? & ? & ? & ?). lia.
Qed.

Lemma size_st_next m p v : ld_size c (st_next c m p v) p = ld_size c m p.
Proof.
  unfold ld_size, st_next. apply load_le_ext. intros x Hx.
  apply store_le_out. destruct LAY as (? & ? & ? & ?). lia.
Qed.

(** Two headers are [far] from each other when they do not overlap. *)
Definition far (p q : Z) : Prop := p + HSZ c <= q \/ q + HSZ c <= p.

Lemma size_st_size_far m p q v : far p q -> ld_size c (st_size c m p v) q = ld_size c m q.
Proof. intros F. apply ld_size_frame. intros x Hx. apply st_size_out. red in F. lia. Qed.

Lemma size_st_next_far m p q v : far p q -> ld_size c (st_next c m p v) q = ld_size c m q.
Proof. intros F. apply ld_size_frame. intros x Hx. apply st_next_out. red in F. lia. Qed.

Lemma next_st_size_far m p q v : far p q -> ld_next c (st_size c m p v) q = ld_next c m q.
Proof. intros F. apply ld_next_frame. intros x Hx. apply st_size_out. red in F. lia. Qed.

Lemma next_st_next_far m p q v : far p q -> ld_next c (st_next c m p v) q = ld_next c m q.
Proof. intros F. apply ld_next_frame. intros x Hx. apply st_next_out. red in F. lia. Qed.

Lemma wrap_small x : 0 <= x < IMOD c -> wrap c x = x.
Proof. intros Hx. unfold wrap. now apply Z.mod_small. Qed.

End Fields.

(** ** The free list as a ring of headers

    A node is the address of a header and the size it carries.  [lseg m R
    nxt] says that the nodes of [R] are linked in this order in [m], the last
    one pointing to [nxt]; a [ring] is a segment whose last node points back
    to its first. *)

Definition node : Type := (Z * Z)%type.

Lemma node_eq_dec (x y : node) : {x = y} + {x <> y}.
Proof. decide equality; apply Z.eq_dec. Qed.

Definition entry (R : list node) (nxt : Z) : Z :=
  match R with
  | [] => nxt
  | x :: _ => fst x
  end.

Section Ring.

Variable c : config.
Hypothesis LAY : layout_ok c.

Fixpoint lseg (m : memory) (R : list node) (nxt : Z) : Prop :=
  match R with
  | [] => True
  | x :: r =>
      ld_size c m (fst x) = snd x /\ ld_next c m (fst x) = entry r nxt /\
      lseg m r nxt
  end.

Definition ring (m : memory) (R : list node) : Prop :=
  R <> [] /\ lseg m R (entry R 0).

(* [p] is far from the header of every node of [R] *)
Definition far_all (p : Z) (R : list node) : Prop :=
  Forall (fun x => far c p (fst x)) R.

Fixpoint hfar (R : list node) : Prop :=
  match R with
  | [] => True
  | x :: r => far_all (fst x) r /\ hfar r
  end.

Lemma entry_app (l1 l2 : list node) nxt :
  entry (l1 ++ l2) nxt = entry l1 (entry l2 nxt).
Proof. destruct l1; reflexivity. Qed.

Lemma entry_nonempty (l : list node) n1 n2 : l <> [] -> entry l n1 = entry l n2.
Proof. destruct l; [congruence | reflexivity]. Qed.

Lemma lseg_app m l1 l2 nxt :
  lseg m (l1 ++ l2) nxt <-> lseg m l1 (entry l2 nxt) /\ lseg m l2 nxt.
Proof.
  induction l1 as [|x l1 IH]; simpl.
  - tauto.
  - rewrite IH, entry_app. tauto.
Qed.

Lemma lseg_frame m m' R nxt :
  (forall x, In x R -> ld_size c m' (fst x) = ld_size c m (fst x) /\
                       ld_next c m' (fst x) = ld_next c m (fst x)) ->
  lseg m R nxt -> lseg m' R nxt.
Proof.
  induction R as [|x r IH]; simpl; intros E L; [exact I|].
  destruct L as (Hs & Hn & Hr).
  destruct (E x (or_introl eq_refl)) as (Es & En).
  repeat split; try congruence.
  apply IH; [|exact Hr]. intros y Hy. apply E. now right.
Qed.

Lemma lseg_retarget m R x nxt nxt' :
  lseg m (R ++ [x]) nxt -> ld_next c m (fst x) = nxt' -> lseg m (R ++ [x]) nxt'.
Proof.
  intros L E. apply lseg_app in L. apply lseg_app. simpl in *.
  destruct L as (L1 & Hs & _ & _). repeat split; auto.
Qed.

Lemma ring_rot m l1 l2 : ring m (l1 ++ l2) -> l2 <> [] -> ring m (l2 ++ l1).
Proof.
  intros (_ & L) N2. split.
  - destruct l2; [congruence | discriminate].
  - destruct l1 as [|a l1].
    + rewrite app_nil_r. simpl in L. exact L.
    + apply lseg_app in L. destruct L as (L1 & L2).
      apply lseg_app. rewrite entry_app.
      rewrite (entry_nonempty l2 _ 0) by assumption.
      split.
      * simpl entry at 1. simpl entry in L2. exact L2.
      * rewrite (entry_nonempty l2 _ 0) in L1 by assumption. exact L1.
Qed.

Lemma lseg_size m R nxt x : lseg m R nxt -> In x R -> ld_size c m (fst x) = snd x.
Proof.
  induction R as [|y r IH]; simpl; [tauto|].
  intros (Hs & _ & Hr) [E | Hin]; [subst; exact Hs | auto].
Qed.

Lemma far_all_app p l1 l2 : far_all p (l1 ++ l2) <-> far_all p l1 /\ far_all p l2.
Proof. unfold far_all. apply Forall_app. Qed.

Lemma far_sym p q : far c p q -> far c q p.
Proof. unfold far. tauto. Qed.

Lemma far_neq p q : far c p q -> p <> q.
Proof. pose proof (HSZ_ge2 c LAY). unfold far. lia. Qed.

Lemma hfar_app l1 l2 :
  hfar (l1 ++ l2) <->
  hfar l1 /\ hfar l2 /\ (forall x, In x l1 -> far_all (fst x) l2).
Proof.
  induction l1 as [|a l1 IH]; simpl.
  - intuition. 
  - rewrite IH, far_all_app. split.
    + intros ((F1 & F2) & H1 & H2 & H3). repeat split; auto.
      intros x [E | Hin]; [subst; auto | auto].
    + intros ((F1 & H1) & H2 & H3). repeat split; auto.
Qed.

Lemma far_all_in p R x : far_all p R -> In x R -> far c p (fst x).
Proof. unfold far_all. rewrite Forall_forall. auto. Qed.

Lemma hfar_rot l1 l2 : hfar (l1 ++ l2) -> hfar (l2 ++ l1).
Proof.
  rewrite !hfar_app. intros (H1 & H2 & H3). repeat split; auto.
  intros x Hx. apply Forall_forall. intros y Hy.
  apply far_sym. eapply far_all_in; eauto.
Qed.

(** *** The scan of [memmgr_free] walks the ring *)

Definition stop (m : memory) (block p : Z) : bool :=
  ((p <? block) && (block <? ld_next c m p)) ||
  ((ld_next c m p <=? p) && ((p <? block) || (block <? ld_next c m p))).

Lemma free_scan_step f m block p :
  free_scan c (S f) m block p =
  if stop m block p then Some p else free_scan c f m block (ld_next c m p).
Proof.
  unfold stop. simpl.
  destruct ((p <? block) && (block <? ld_next c m p)); simpl; reflexivity.
Qed.

Lemma free_scan_skip m block : forall A rest nxt f,
  lseg m (A ++ rest) nxt ->
  (forall x, In x A -> stop m block (fst x) = false) ->
  free_scan c (length A + f) m block (entry (A ++ rest) nxt) =
  free_scan c f m block (entry rest nxt).
Proof.
  induction A as [|a A IH]; intros rest nxt f L NS.
  - reflexivity.
  - cbn [length Nat.add app]. rewrite free_scan_step.
    cbn [entry]. rewrite (NS a (or_introl eq_refl)).
    simpl in L. destruct L as (_ & Hn & Lr). rewrite Hn.
    apply IH; [exact Lr|]. intros x Hx. apply NS. now right.
Qed.

Lemma free_scan_mono : forall f f' m block p r,
  free_scan c f m block p = Some r -> (f <= f')%nat ->
  free_scan c f' m block p = Some r.
Proof.
  induction f as [|f IH]; intros f' m block p r E Hle; [discriminate|].
  destruct f' as [|f']; [lia|].
  rewrite free_scan_step in *.
  destruct (stop m block p); [exact E|]. apply IH with (1 := E). lia.
Qed.

(** *** What [free_link] writes *)

Lemma free_link_out m block p x :
  ~ (block <= x < block + HSZ c) -> ~ (p <= x < p + HSZ c) ->
  free_link c m block p x = m x.
Proof.
  intros Hb Hp. unfold free_link.
  repeat match goal with
  | |- context [if ?b then _ else _] => destruct b
  end;
  repeat (first [ rewrite (st_next_out c LAY) by lia
                | rewrite (st_size_out c LAY) by lia ]); reflexivity.
Qed.

Lemma free_link_fields m b pa n ps na ns nn :
  far c b pa -> far c b na -> 0 <= b < PMOD c ->
  ld_size c m b = n -> ld_size c m pa = ps -> ld_next c m pa = na ->
  ld_size c m na = ns -> ld_next c m na = nn ->
  n + ns < IMOD c -> ps + n + ns < IMOD c ->
  let m' := free_link c m b pa in
  let n1 := if b + n * HSZ c =? na then n + ns else n in
  let x1 := if b + n * HSZ c =? na then nn else na in
  if pa + ps * HSZ c =? b
  then ld_size c m' pa = ps + n1 /\ ld_next c m' pa = x1
  else ld_size c m' pa = ps /\ ld_next c m' pa = b /\
       ld_size c m' b = n1 /\ ld_next c m' b = x1.
Proof.
  intros Fbp Fbn Rb Hn Hps Hna Hns Hnn W1 W2 m' n1 x1.
  pose proof (ld_size_range c m b) as Rn. rewrite Hn in Rn.
  pose proof (ld_size_range c m pa) as Rps. rewrite Hps in Rps.
  pose proof (ld_size_range c m na) as Rns. rewrite Hns in Rns.
  pose proof (ld_next_range c m pa) as Rna. rewrite Hna in Rna.
  pose proof (ld_next_range c m na) as Rnn. rewrite Hnn in Rnn.
  assert (Fpb : far c pa b) by (apply far_sym; exact Fbp).
  (* the state after the first phase *)
  set (m1 := if b + ld_size c m b * HSZ c =? ld_next c m pa
             then st_next c (st_size c m b (wrap c (ld_size c m b + ld_size c m (ld_next c m pa))))
                    b (ld_next c (st_size c m b (wrap c (ld_size c m b + ld_size c m (ld_next c m pa))))
                         (ld_next c (st_size c m b (wrap c (ld_size c m b + ld_size c m (ld_next c m pa)))) pa))
             else st_next c m b (ld_next c m pa)).
  assert (P1 : ld_size c m1 pa = ps /\ ld_size c m1 b = n1 /\ ld_next c m1 b = x1).
  { subst m1 n1 x1. rewrite Hn, Hna, Hns.
    destruct (b + n * HSZ c =? na).
    - rewrite (wrap_small c) by lia.
      rewrite (next_st_size_far c LAY m b pa) by assumption. rewrite Hna.
      rewrite (next_st_size_far c LAY m b na) by assumption. rewrite Hnn.
      rewrite (size_st_next_far c LAY), (size_st_size_far c LAY) by assumption.
      rewrite (size_st_next c LAY), (size_st_size c) by lia.
      rewrite (next_st_next c) by lia. auto.
    - rewrite (size_st_next_far c LAY) by assumption.
      rewrite (size_st_next c LAY).
      rewrite (next_st_next c) by lia. auto. }
  destruct P1 as (Q1 & Q2 & Q3).
  assert (E : m' = if pa + ld_size c m1 pa * HSZ c =? b
                   then st_next c (st_size c m1 pa (wrap c (ld_size c m1 pa + ld_size c m1 b))) pa
                          (ld_next c (st_size c m1 pa (wrap c (ld_size c m1 pa + ld_size c m1 b))) b)
                   else st_next c m1 pa b) by reflexivity.
  rewrite Q1, Q2 in E.
  assert (Rn1 : 0 <= n1 /\ ps + n1 < IMOD c).
  { subst n1. destruct (b + n * HSZ c =? na); lia. }
  assert (Rx1 : 0 <= x1 < PMOD c).
  { subst x1. destruct (b + n * HSZ c =? na); lia. }
  destruct (pa + ps * HSZ c =? b); rewrite E.
  - rewrite (wrap_small c) by lia.
    rewrite (next_st_size_far c LAY) by assumption. rewrite Q3.
    rewrite (size_st_next c LAY), (size_st_size c) by lia.
    rewrite (next_st_next c) by lia. auto.
  - rewrite (size_st_next c LAY), (next_st_next c) by lia.
    rewrite (size_st_next_far c LAY), (next_st_next_far c LAY) by assumption.
    auto.
Qed.

Lemma free_link_same m b pa a :
  far c b a -> far c pa a ->
  ld_size c (free_link c m b pa) a = ld_size c m a /\
  ld_next c (free_link c m b pa) a = ld_next c m a.
Proof.
  intros F1 F2. unfold far in F1, F2.
  split; [apply (ld_size_frame c LAY) | apply (ld_next_frame c LAY)];
    intros x Hx; apply free_link_out; lia.
Qed.

(** The ring after [free_link], for the ring [A ++ [P]] rotated so that the
    node [P] found by the scan comes last; its successor is then the first
    node. *)
Definition link_result (A : list node) (P : node) (b n : Z) : list node :=
  let upper := b + n * HSZ c =? entry (A ++ [P]) 0 in
  let lower := fst P + snd P * HSZ c =? b in
  match A with
  | [] =>
      if upper then [P; (b, n + snd P)]
      else if lower then [(fst P, snd P + n)] else [P; (b, n)]
  | N :: A' =>
      if upper then
        if lower then A' ++ [(fst P, snd P + (n + snd N))]
        else A' ++ [P; (b, n + snd N)]
      else if lower then A ++ [(fst P, snd P + n)] else A ++ [P; (b, n)]
  end.

Lemma free_link_ring m A P b n :
  ring m (A ++ [P]) -> hfar (A ++ [P]) -> far_all b (A ++ [P]) ->
  0 <= b < PMOD c -> ld_size c m b = n ->
  (forall x y, In x (A ++ [P]) -> In y (A ++ [P]) -> snd x + snd y + n < IMOD c) ->
  ring (free_link c m b (fst P)) (link_result A P b n).
Proof.
  intros (_ & L) HF FB Rb Hn W.
  pose proof (HSZ_ge2 c LAY) as H2.
  pose proof (ld_size_range c m b) as Rn. rewrite Hn in Rn.
  destruct P as (pa, ps). cbn [fst snd] in *.
  assert (FbP : far c b pa).
  { apply (far_all_in b (A ++ [(pa, ps)]) (pa, ps) FB). apply in_or_app. right. now left. }
  destruct A as [|N A'].
  - (* a ring of one node *)
    simpl in L. destruct L as (Hps & Hna & _).
    pose proof (ld_size_range c m pa) as Rps. rewrite Hps in Rps.
    assert (W1 : ps + ps + n < IMOD c) by (apply (W (pa, ps) (pa, ps)); now left).
    pose proof (free_link_fields m b pa n ps pa ps pa FbP FbP Rb Hn Hps Hna Hps Hna
                  ltac:(lia) ltac:(lia)) as FL.
    cbv zeta in FL. unfold link_result. cbn [app entry fst snd].
    destruct (b + n * HSZ c =? pa) eqn:EU.
    + apply Z.eqb_eq in EU.
      assert (EL : (pa + ps * HSZ c =? b) = false).
      { apply Z.eqb_neq. intros E. red in FbP. nia. }
      rewrite EL in FL. destruct FL as (F1 & F2 & F3 & F4).
      split; [discriminate|]. simpl. repeat split; auto.
    + destruct (pa + ps * HSZ c =? b).
      * destruct FL as (F1 & F2). split; [discriminate|]. simpl. auto.
      * destruct FL as (F1 & F2 & F3 & F4).
        split; [discriminate|]. simpl. repeat split; auto.
  - (* at least two nodes: N is the successor of P *)
    destruct N as (na, ns). simpl in L. destruct L as (Hns & Hnn & L').
    cbn [fst snd] in *.
    apply lseg_app in L'. destruct L' as (LA & Hps & Hna & _).
    cbn [entry fst snd] in *.
    set (nn := entry (A' ++ [(pa, ps)]) na) in *.
    simpl in HF. destruct HF as (FN & HF').
    assert (FnP : far c na pa).
    { apply (far_all_in na (A' ++ [(pa, ps)]) (pa, ps) FN). apply in_or_app. right. now left. }
    assert (Fbn : far c b na).
    { apply (far_all_in b ((na, ns) :: A' ++ [(pa, ps)]) (na, ns) FB). now left. }
    assert (W1 : ps + ns + n < IMOD c).
    { apply (W (pa, ps) (na, ns)); [right; apply in_or_app; right; now left | now left]. }
    pose proof (ld_size_range c m pa) as Rps. rewrite Hps in Rps.
    pose proof (ld_size_range c m na) as Rns. rewrite Hns in Rns.
    pose proof (free_link_fields m b pa n ps na ns nn FbP Fbn Rb Hn Hps Hna Hns Hnn
                  ltac:(lia) ltac:(lia)) as FL.
    cbv zeta in FL.
    (* the untouched nodes *)
    assert (SN : ld_size c (free_link c m b pa) na = ns /\
                 ld_next c (free_link c m b pa) na = nn).
    { destruct (free_link_same m b pa na Fbn (far_sym _ _ FnP)) as (E1 & E2).
      rewrite E1, E2. auto. }
    assert (LA' : forall nxt, lseg m A' nxt -> lseg (free_link c m b pa) A' nxt).
    { intros nxt. apply lseg_frame. intros x Hx.
      apply free_link_same.
      - apply (far_all_in b ((na, ns) :: A' ++ [(pa, ps)]) x FB).
        right. apply in_or_app. now left.
      - apply hfar_app in HF'. destruct HF' as (_ & _ & HF').
        apply far_sym. apply (far_all_in (fst x) [(pa, ps)] (pa, ps) (HF' x Hx)). now left. }
    assert (ENN : forall q l, entry (A' ++ (pa, q) :: l) 0 = nn).
    { intros q l. subst nn. rewrite !entry_app. reflexivity. }
    unfold link_result. cbn [app entry fst snd].
    destruct (b + n * HSZ c =? na) eqn:EU; destruct (pa + ps * HSZ c =? b) eqn:EL.
    + destruct FL as (F1 & F2). split; [destruct A'; discriminate|].
      apply lseg_app. split; [apply LA', LA|]. rewrite ENN. simpl. auto.
    + destruct FL as (F1 & F2 & F3 & F4). split; [destruct A'; discriminate|].
      apply lseg_app. split; [apply LA', LA|]. rewrite ENN. simpl. auto.
    + destruct FL as (F1 & F2). split; [discriminate|].
      destruct SN as (S1 & S2). simpl. repeat split; auto.
      * rewrite S2. subst nn. rewrite !entry_app. reflexivity.
      * apply lseg_app. split; [apply LA', LA|]. simpl. auto.
    + destruct FL as (F1 & F2 & F3 & F4). split; [discriminate|].
      destruct SN as (S1 & S2). simpl. repeat split; auto.
      * rewrite S2. subst nn. rewrite !entry_app. reflexivity.
      * apply lseg_app. split; [apply LA', LA|]. simpl. auto.
Qed.

(** *** The search of [memmgr_alloc] walks the ring *)

Definition addrs (R : list node) : list Z := map fst R.

Lemma in_addrs (x : node) R : In x R -> In (fst x) (addrs R).
Proof. intros Hx. unfold addrs. apply in_map. exact Hx. Qed.

Lemma last_cons_default (x : Z) l d : last (x :: l) d = last l x.
Proof.
  revert x d. induction l as [|y l IH]; intros x d; [reflexivity|].
  change (last (x :: y :: l) d) with (last (y :: l) d). rewrite !IH. reflexivity.
Qed.

Lemma last_app_cons (l1 : list Z) x l2 d : last (l1 ++ x :: l2) d = last l2 x.
Proof.
  revert d. induction l1 as [|a l1 IH]; intros d; simpl app.
  - apply last_cons_default.
  - rewrite last_cons_default. apply IH.
Qed.

Lemma lseg_last_next m X B nxt :
  lseg m (X :: B) nxt -> ld_next c m (last (addrs B) (fst X)) = nxt.
Proof.
  revert X. induction B as [|y B IH]; intros X L.
  - simpl in *. tauto.
  - unfold addrs. cbn [map]. rewrite last_cons_default.
    simpl in L. destruct L as (_ & _ & L). apply (IH y). exact L.
Qed.

Lemma alloc_loop_skip nq s : forall A rest nxt f prevp,
  lseg (mem s) (A ++ rest) nxt ->
  (forall x, In x A -> snd x < nq /\ fst x <> freep s) ->
  alloc_loop c (length A + f) nq prevp (entry (A ++ rest) nxt) s =
  alloc_loop c f nq (last (addrs A) prevp) (entry rest nxt) s.
Proof.
  induction A as [|a A IH]; intros rest nxt f prevp L NF.
  - reflexivity.
  - cbn [length Nat.add app entry]. simpl in L. destruct L as (Hs & Hn & Lr).
    destruct (NF a (or_introl eq_refl)) as (Hlt & Hne).
    cbn [alloc_loop]. cbv zeta. rewrite Hs.
    assert (E1 : (nq <=? snd a) = false) by (apply Z.leb_gt; exact Hlt).
    assert (E2 : (fst a =? freep s) = false) by (apply Z.eqb_neq; exact Hne).
    rewrite E1, E2, Hn.
    rewrite IH; [|exact Lr|intros x Hx; apply NF; now right].
    unfold addrs. cbn [map]. now rewrite last_cons_default.
Qed.

(** The result of the search when it stops at a node [X] that is big
    enough, reached with [prevp] behind it. *)
Definition take_node (s : state) (nq prevp : Z) (X : node) (nxt : Z)
  : Z * state :=
  if snd X =? nq then
    (fst X + HSZ c,
     mkState (st_next c (mem s) prevp nxt) prevp (pool_free_pos s))
  else
    let p' := fst X + (snd X - nq) * HSZ c in
    (p' + HSZ c,
     mkState (st_size c (st_size c (mem s) (fst X) (snd X - nq)) p' nq)
             prevp (pool_free_pos s)).

Lemma alloc_loop_take f nq prevp s X nxt :
  ld_size c (mem s) (fst X) = snd X -> ld_next c (mem s) (fst X) = nxt ->
  nq <= snd X -> 0 <= nq ->
  alloc_loop c (S f) nq prevp (fst X) s = Some (take_node s nq prevp X nxt).
Proof.
  intros Hs Hn Hfit Hnq.
  pose proof (ld_size_range c (mem s) (fst X)) as R. rewrite Hs in R.
  cbn [alloc_loop]. cbv zeta. rewrite Hs, Hn.
  assert (E1 : (nq <=? snd X) = true) by (apply Z.leb_le; exact Hfit).
  rewrite E1. unfold take_node.
  destruct (snd X =? nq); [reflexivity|].
  rewrite (wrap_small c) by lia.
  rewrite (size_st_size c) by lia. reflexivity.
Qed.

Lemma alloc_loop_found nq s A X B f :
  ring (mem s) (A ++ X :: B) -> hfar (A ++ X :: B) ->
  freep s = last (addrs B) (fst X) ->
  (forall x, In x A -> snd x < nq) -> nq <= snd X -> 0 <= nq ->
  alloc_loop c (length A + S f) nq (freep s) (ld_next c (mem s) (freep s)) s =
  Some (take_node s nq (last (addrs A) (freep s)) X
          (entry B (entry (A ++ X :: B) 0))).
Proof.
  intros (_ & L) HF EF NA Hfit Hnq.
  set (R := A ++ X :: B) in *.
  (* the successor of the last node of the ring is its first node *)
  assert (EN : ld_next c (mem s) (freep s) = entry R 0).
  { rewrite EF. subst R.
    destruct (proj1 (lseg_app _ _ _ _) L) as (_ & L2).
    apply (lseg_last_next _ _ _ _ L2). }
  rewrite EN. subst R.
  set (e := entry (A ++ X :: B) 0) in *.
  replace (alloc_loop c (length A + S f) nq (freep s) e s)
    with (alloc_loop c (length A + S f) nq (freep s) (entry (A ++ X :: B) e) s)
    by (f_equal; apply entry_nonempty; destruct A; discriminate).
  rewrite (alloc_loop_skip nq s A (X :: B) e (S f) (freep s)).
  - cbn [entry]. apply alloc_loop_take; auto.
    + apply (lseg_size _ _ _ X L). apply in_or_app. right. now left.
    + apply lseg_app in L. destruct L as (_ & L). simpl in L. tauto.
  - exact L.
  - intros x Hx. split; [auto|].
    rewrite EF. apply hfar_app in HF. destruct HF as (_ & _ & HF).
    specialize (HF x Hx).
    assert (IL : In (last (addrs B) (fst X)) (addrs (X :: B))).
    { clear. revert X. induction B as [|y B IH]; intros X.
      - simpl. auto.
      - unfold addrs in *. cbn [map]. rewrite last_cons_default.
        right. apply IH. }
    unfold addrs in IL at 2. apply in_map_iff in IL. destruct IL as (y & Ey & Hy).
    rewrite <- Ey. apply far_neq. eapply far_all_in; eauto.
Qed.

(** When no node is big enough the search comes back to [freep] and asks
    the pool. *)
Lemma alloc_loop_none nq s A F f :
  ring (mem s) (A ++ [F]) -> hfar (A ++ [F]) -> freep s = fst F ->
  (forall x, In x (A ++ [F]) -> snd x < nq) ->
  alloc_loop c (length A + S f) nq (freep s) (ld_next c (mem s) (freep s)) s =
  match get_mem_from_pool c f nq s with
  | None => None
  | Some (p', s') =>
      if p' =? 0 then Some (0, s')
      else alloc_loop c f nq p' (ld_next c (mem s') p') s'
  end.
Proof.
  intros (_ & L) HF EF NA.
  assert (EN : ld_next c (mem s) (freep s) = entry (A ++ [F]) 0).
  { rewrite EF. apply lseg_app in L. simpl in L. tauto. }
  rewrite EN.
  set (e := entry (A ++ [F]) 0) in *.
  replace (alloc_loop c (length A + S f) nq (freep s) e s)
    with (alloc_loop c (length A + S f) nq (freep s) (entry (A ++ [F]) e) s)
    by (f_equal; apply entry_nonempty; destruct A; discriminate).
  rewrite (alloc_loop_skip nq s A [F] e (S f) (freep s)).
  - cbn [entry alloc_loop]. cbv zeta.
    rewrite (lseg_size _ _ _ F L) by (apply in_or_app; right; now left).
    assert (E1 : (nq <=? snd F) = false).
    { apply Z.leb_gt. apply NA. apply in_or_app. right. now left. }
    rewrite E1, EF, Z.eqb_refl. reflexivity.
  - exact L.
  - intros x Hx. split; [apply NA; apply in_or_app; now left|].
    rewrite EF. apply hfar_app in HF. destruct HF as (_ & _ & HF).
    apply far_neq. apply (far_all_in (fst x) [F] F (HF x Hx)). now left.
Qed.

(** *** The ring after a node was taken *)

Lemma lseg_st_next_far m l nxt p v :
  far_all p l -> lseg m l nxt -> lseg (st_next c m p v) l nxt.
Proof.
  intros F. apply lseg_frame. intros x Hx.
  pose proof (far_all_in p l x F Hx) as Fx.
  split; [apply (size_st_next_far c LAY) | apply (next_st_next_far c LAY)]; exact Fx.
Qed.

Lemma lseg_st_size_far m l nxt p v :
  far_all p l -> lseg m l nxt -> lseg (st_size c m p v) l nxt.
Proof.
  intros F. apply lseg_frame. intros x Hx.
  pose proof (far_all_in p l x F Hx) as Fx.
  split; [apply (size_st_size_far c LAY) | apply (next_st_size_far c LAY)]; exact Fx.
Qed.

Lemma far_all_sym_in l x p : hfar (l ++ [x]) -> In p l -> far c (fst x) (fst p).
Proof.
  intros HF Hp. apply hfar_app in HF. destruct HF as (_ & _ & HF).
  apply far_sym. apply (far_all_in (fst p) [x] x (HF p Hp)). now left.
Qed.

Lemma lseg_relink m l P nxt v :
  hfar (l ++ [P]) -> 0 <= v < PMOD c ->
  lseg m (l ++ [P]) nxt -> lseg (st_next c m (fst P) v) (l ++ [P]) v.
Proof.
  intros HF Rv L. apply lseg_app in L. destruct L as (L1 & Hs & _ & _).
  apply lseg_app. split.
  - apply lseg_st_next_far; [|exact L1].
    apply Forall_forall. intros x Hx. apply (far_all_sym_in l P x HF Hx).
  - simpl. rewrite (size_st_next c LAY), (next_st_next c) by exact Rv. auto.
Qed.

Lemma ring_entry_range m R : ring m R -> 0 <= entry R 0 < PMOD c.
Proof.
  intros (N & L). destruct (exists_last N) as (l & P & E). subst R.
  apply lseg_app in L. destruct L as (_ & _ & Hn & _).
  simpl in Hn. rewrite <- Hn. apply ld_next_range.
Qed.

Lemma lseg_entry_range m R nxt x :
  lseg m (x :: R) nxt -> 0 <= entry R nxt < PMOD c.
Proof. simpl. intros (_ & Hn & _). rewrite <- Hn. apply ld_next_range. Qed.

Lemma take_exact_ring m A X B :
  ring m (A ++ X :: B) -> hfar (A ++ X :: B) -> A ++ B <> [] ->
  let prevp := last (addrs A) (last (addrs B) (fst X)) in
  ring (st_next c m prevp (entry B (entry (A ++ X :: B) 0))) (A ++ B).
Proof.
  intros RG HF NE prevp. pose proof (ring_entry_range m _ RG) as Re.
  destruct RG as (_ & L).
  set (e := entry (A ++ X :: B) 0) in *.
  apply lseg_app in L. destruct L as (LA & LX).
  pose proof (lseg_entry_range m B e X LX) as Rn.
  simpl in LX. destruct LX as (_ & _ & LB).
  split; [exact NE|].
  assert (DA : A = [] \/ A <> [])
    by (destruct A; [left; reflexivity | right; discriminate]).
  destruct DA as [EA | NA].
  - (* X was the first node: prevp is the last node of the ring *)
    subst A. cbn [app] in *. cbn [addrs map last] in prevp.
    destruct (exists_last NE) as (B0 & F & EB). subst B.
    assert (EP : prevp = fst F).
    { subst prevp. unfold addrs. rewrite map_app. cbn [map].
      apply last_app_cons. }
    rewrite EP.
    rewrite (entry_nonempty (B0 ++ [F]) e 0) by (destruct B0; discriminate).
    apply lseg_relink with (nxt := e).
    + simpl in HF. tauto.
    + rewrite (entry_nonempty (B0 ++ [F]) 0 e) by (destruct B0; discriminate). exact Rn.
    + exact LB.
  - destruct (exists_last NA) as (A0 & Pv & EA). subst A.
    assert (EP : prevp = fst Pv).
    { subst prevp. unfold addrs. rewrite map_app. cbn [map].
      apply last_app_cons. }
    rewrite EP.
    assert (Ee : entry ((A0 ++ [Pv]) ++ B) 0 = e).
    { subst e. rewrite <- !app_assoc, !entry_app. reflexivity. }
    rewrite Ee.
    apply lseg_app. split.
    + apply lseg_relink with (nxt := entry (X :: B) e); [|exact Rn|exact LA].
      apply hfar_app in HF. tauto.
    + apply lseg_st_next_far; [|exact LB].
      rewrite <- app_assoc in HF. apply hfar_app in HF. destruct HF as (_ & HF & _).
      simpl in HF. destruct HF as (HF & _).
      apply far_all_app with (l1 := [X]). exact HF.
Qed.

Lemma hfar_mid A X B :
  hfar (A ++ X :: B) -> far_all (fst X) A /\ far_all (fst X) B.
Proof.
  intros HF. apply hfar_app in HF. destruct HF as (_ & HX & HA).
  simpl in HX. split; [|tauto].
  apply Forall_forall. intros x Hx. apply far_sym.
  apply (far_all_in (fst x) (X :: B) X (HA x Hx)). now left.
Qed.

Lemma lseg_resize m A X B nxt v :
  hfar (A ++ X :: B) -> 0 <= v < IMOD c ->
  lseg m (A ++ X :: B) nxt ->
  lseg (st_size c m (fst X) v) (A ++ (fst X, v) :: B) nxt.
Proof.
  intros HF Rv L. destruct (hfar_mid A X B HF) as (FA & FB).
  apply lseg_app in L. destruct L as (LA & _ & Hn & LB).
  apply lseg_app. split.
  - apply lseg_st_size_far; assumption.
  - simpl. rewrite (size_st_size c), (next_st_size c LAY) by exact Rv.
    repeat split; auto. apply lseg_st_size_far; assumption.
Qed.

Lemma take_split_ring m A X B nq :
  ring m (A ++ X :: B) -> hfar (A ++ X :: B) ->
  0 <= nq < snd X ->
  let p' := fst X + (snd X - nq) * HSZ c in
  far_all p' (A ++ X :: B) ->
  let m2 := st_size c (st_size c m (fst X) (snd X - nq)) p' nq in
  ring m2 (A ++ (fst X, snd X - nq) :: B) /\ ld_size c m2 p' = nq.
Proof.
  intros (_ & L) HF Rq p' FP m2.
  pose proof (lseg_size m _ _ X L ltac:(apply in_or_app; right; now left)) as HsX.
  pose proof (ld_size_range c m (fst X)) as RX. rewrite HsX in RX.
  split.
  - split; [destruct A; discriminate|].
    subst m2. apply lseg_st_size_far.
    + apply far_all_app in FP. destruct FP as (F1 & F2).
      apply far_all_app. split; [exact F1|].
      apply Forall_cons; [|now inversion F2]. inversion F2; assumption.
    + replace (entry (A ++ (fst X, snd X - nq) :: B) 0)
        with (entry (A ++ X :: B) 0) by (rewrite !entry_app; reflexivity).
      apply lseg_resize; [exact HF | lia | exact L].
  - subst m2. apply (size_st_size c). lia.
Qed.

(** *** Fuel only has to be enough *)

Lemma memmgr_free_mono f f' ap s r :
  memmgr_free c f ap s = Some r -> (f <= f')%nat -> memmgr_free c f' ap s = Some r.
Proof.
  unfold memmgr_free. intros E Hle. destruct (ap =? 0); [exact E|].
  destruct (free_scan c f (mem s) (ap - HSZ c) (freep s)) as [p|] eqn:ES;
    [|discriminate].
  rewrite (free_scan_mono f f' _ _ _ _ ES Hle). exact E.
Qed.

Lemma get_mem_from_pool_mono f f' nq s r :
  get_mem_from_pool c f nq s = Some r -> (f <= f')%nat ->
  get_mem_from_pool c f' nq s = Some r.
Proof.
  unfold get_mem_from_pool. intros E Hle.
  destruct (wrap c (pool_free_pos s + wrap c _) <=? POOL_SIZE c); [|exact E].
  match type of E with
  | match ?t with _ => _ end = _ => destruct t as [s2|] eqn:EF; [|discriminate]
  end.
  rewrite (memmgr_free_mono f f' _ _ _ EF Hle). exact E.
Qed.

Lemma alloc_loop_mono : forall f f' nq prevp p s r,
  alloc_loop c f nq prevp p s = Some r -> (f <= f')%nat ->
  alloc_loop c f' nq prevp p s = Some r.
Proof.
  induction f as [|f IH]; intros f' nq prevp p s r E Hle; [discriminate|].
  destruct f' as [|f']; [lia|]. cbn [alloc_loop] in *. cbv zeta in *.
  destruct (nq <=? ld_size c (mem s) p); [exact E|].
  destruct (p =? freep s).
  - destruct (get_mem_from_pool c f nq s) as [[p' s']|] eqn:EG; [|discriminate].
    rewrite (get_mem_from_pool_mono f f' _ _ _ EG) by lia.
    destruct (p' =? 0); [exact E|]. apply IH with (1 := E). lia.
  - apply IH with (1 := E). lia.
Qed.

End Ring.

(** ** Termination of the search on any ring

    Whatever the sizes written in it, a ring that holds a node big enough
    makes [alloc_loop] return a block; [free_link] leaves such a ring. *)

Section RingSearch.

Variable c : config.
Hypothesis LAY : layout_ok c.

Lemma far_all_cons_inv p x R : far_all c p (x :: R) -> far c p (fst x) /\ far_all c p R.
Proof. intros F. inversion F; subst. auto. Qed.

Lemma hfar_snoc A x :
  hfar c (A ++ [x]) <-> hfar c A /\ (forall y, In y A -> far c (fst y) (fst x)).
Proof.
  rewrite hfar_app. simpl. split.
  - intros (H1 & _ & H3). split; [exact H1|]. intros y Hy.
    apply (far_all_in c _ [x] x (H3 y Hy)). now left.
  - intros (H1 & H3). split; [exact H1|]. split; [split; [constructor | exact I]|].
    intros y Hy. apply Forall_cons; [auto | constructor].
Qed.

Lemma hfar_resized A x q : hfar c (A ++ [x]) -> hfar c (A ++ [(fst x, q)]).
Proof. rewrite !hfar_snoc. auto. Qed.

Ltac len_solve := unfold node in *; repeat (rewrite length_app || cbn [length app]); lia.

Lemma link_result_props A P b n :
  hfar c (A ++ [P]) -> far_all c b (A ++ [P]) ->
  (forall x, In x (A ++ [P]) -> 0 <= snd x) -> 0 <= n ->
  let R := link_result c A P b n in
  hfar c R /\ In (fst P) (addrs R) /\ (exists x, In x R /\ n <= snd x) /\
  (length R <= S (length (A ++ [P])))%nat /\
  (forall x, In x R -> In (fst x) (addrs (A ++ [P])) \/ fst x = b).
Proof.
  intros HF FB SZ Hn R.
  assert (SP : 0 <= snd P) by (apply SZ; apply in_or_app; right; now left).
  assert (FbP : far c b (fst P)).
  { apply (far_all_in c b _ P FB). apply in_or_app. right. now left. }
  assert (EXT : hfar c (A ++ [P; (b, n)])).
  { replace (A ++ [P; (b, n)]) with ((A ++ [P]) ++ [(b, n)]) by (rewrite <- app_assoc; reflexivity).
    apply hfar_snoc. split; [exact HF|]. intros y Hy. apply far_sym.
    apply (far_all_in c b _ y FB Hy). }
  assert (EXT' : forall q, hfar c (A ++ [P; (b, q)])).
  { intros q.
    replace (A ++ [P; (b, q)]) with ((A ++ [P]) ++ [(fst (b, n), q)]) by (rewrite <- app_assoc; reflexivity).
    apply hfar_resized.
    refine (eq_ind _ (hfar c) EXT _ _). rewrite <- app_assoc. reflexivity. }
  assert (INA : forall x l, In x (A ++ l) ->
              (forall y, In y l -> In (fst y) (addrs (A ++ [P])) \/ fst y = b) ->
              In (fst x) (addrs (A ++ [P])) \/ fst x = b).
  { intros x l Hx Hl. apply in_app_or in Hx. destruct Hx as [Hx | Hx]; [left | auto].
    apply in_addrs. apply in_or_app. now left. }
  assert (IPA : In (fst P) (addrs (A ++ [P]))).
  { apply in_addrs. apply in_or_app. right. now left. }
  subst R. unfold link_result.
  destruct A as [|N A'].
  - cbn [app entry] in *.
    destruct (b + n * HSZ c =? fst P); [|destruct (fst P + snd P * HSZ c =? b)].
    + split; [apply (EXT' (n + snd P))|]. split; [now left|].
      split; [exists (b, n + snd P); split; [right; now left | cbn; lia]|].
      split; [len_solve|].
      intros x [E | [E | []]]; subst x; cbn [fst]; auto.
    + split; [simpl; auto|]. split; [now left|].
      split; [exists (fst P, snd P + n); split; [now left | cbn; lia]|].
      split; [len_solve|].
      intros x [E | []]; subst x; cbn [fst]; auto.
    + split; [exact EXT|]. split; [now left|].
      split; [exists (b, n); split; [right; now left | cbn; lia]|].
      split; [len_solve|].
      intros x [E | [E | []]]; subst x; cbn [fst]; auto.
  - assert (SN : 0 <= snd N) by (apply SZ; now left).
    assert (TL : forall l, hfar c ((N :: A') ++ l) -> hfar c (A' ++ l)).
    { intros l Hl. simpl in Hl. tauto. }
    assert (INA' : forall x l, In x (A' ++ l) ->
              (forall y, In y l -> In (fst y) (addrs ((N :: A') ++ [P])) \/ fst y = b) ->
              In (fst x) (addrs ((N :: A') ++ [P])) \/ fst x = b).
    { intros x l Hx Hl. apply (INA x l); [|exact Hl].
      apply in_app_or in Hx. apply in_or_app. destruct Hx; [left; now right | now right]. }
    assert (LEN : forall l l' : list node, (length l' <= S (length l))%nat ->
              (length (A' ++ l') <= S (length ((N :: A') ++ l)))%nat).
    { intros l l' Hl. cbn [app length]. rewrite !length_app. lia. }
    destruct (b + n * HSZ c =? entry ((N :: A') ++ [P]) 0);
      destruct (fst P + snd P * HSZ c =? b).
    + split; [apply TL; apply (hfar_resized (N :: A') P); exact HF|].
      split; [unfold addrs; rewrite map_app; apply in_or_app; right; now left|].
      split; [exists (fst P, snd P + (n + snd N)); split;
                [apply in_or_app; right; now left | cbn; lia]|].
      split; [len_solve|].
      intros x Hx. apply (INA' x _ Hx). intros y [E | []]. subst y. cbn [fst]. auto.
    + split; [apply TL; apply (EXT' (n + snd N))|].
      split; [unfold addrs; rewrite map_app; apply in_or_app; right; now left|].
      split; [exists (b, n + snd N); split;
                [apply in_or_app; right; right; now left | cbn; lia]|].
      split; [len_solve|].
      intros x Hx. apply (INA' x _ Hx). intros y [E | [E | []]]; subst y; cbn [fst]; auto.
    + split; [apply (hfar_resized (N :: A') P); exact HF|].
      split; [unfold addrs; rewrite map_app; apply in_or_app; right; now left|].
      split; [exists (fst P, snd P + n); split;
                [apply in_or_app; right; now left | cbn; lia]|].
      split; [len_solve|].
      intros x Hx. apply (INA x _ Hx). intros y [E | []]. subst y. cbn [fst]. auto.
    + split; [exact EXT|].
      split; [unfold addrs; rewrite map_app; apply in_or_app; right; now left|].
      split; [exists (b, n); split;
                [apply in_or_app; right; right; now left | cbn; lia]|].
      split; [len_solve|].
      intros x Hx. apply (INA x _ Hx). intros y [E | [E | []]]; subst y; cbn [fst]; auto.
Qed.

(** A ring that has a fitting node gives a block, from wherever in it
    [freep] stands. *)
Lemma alloc_ring_found s R nq fuel :
  ring c (mem s) R -> hfar c R -> In (freep s) (addrs R) ->
  (forall x, In x R -> 0 <= fst x) -> 1 <= nq ->
  (exists x, In x R /\ nq <= snd x) -> (length R <= fuel)%nat ->
  exists r s',
    alloc_loop c fuel nq (freep s) (ld_next c (mem s) (freep s)) s = Some (r, s') /\
    r <> 0.
Proof.
  pose proof (HSZ_ge2 c LAY) as H2.
  intros RG HF IF POS Hq (x0 & Hx0 & Hfit) Hfuel.
  unfold addrs in IF. apply in_map_iff in IF. destruct IF as (F' & EF & IF).
  destruct (in_split F' R IF) as (q1 & q2 & ER). subst R.
  set (R' := (q2 ++ q1) ++ [F']).
  assert (RG' : ring c (mem s) R' /\ hfar c R').
  { assert (RG1 : ring c (mem s) ((q1 ++ [F']) ++ q2))
      by (refine (eq_ind _ (ring c (mem s)) RG _ _); rewrite <- app_assoc; reflexivity).
    assert (HF1 : hfar c ((q1 ++ [F']) ++ q2))
      by (refine (eq_ind _ (hfar c) HF _ _); rewrite <- app_assoc; reflexivity).
    apply hfar_rot in HF1. subst R'. split.
    - destruct q2 as [|y q2'].
      + rewrite app_nil_r in RG1. exact RG1.
      + apply ring_rot in RG1; [|discriminate].
        refine (eq_ind _ (ring c (mem s)) RG1 _ _). rewrite <- app_assoc. reflexivity.
    - refine (eq_ind _ (hfar c) HF1 _ _). rewrite <- app_assoc. reflexivity. }
  destruct RG' as (RG' & HF').
  assert (IN' : forall x, In x R' <-> In x (q1 ++ F' :: q2)).
  { intros x. subst R'. rewrite !in_app_iff. simpl. tauto. }
  assert (FS : exists A X B, R' = A ++ X :: B /\
                 (forall x, In x A -> snd x < nq) /\ nq <= snd X).
  { clear - Hx0 Hfit IN'. apply IN' in Hx0. revert Hx0.
    induction R' as [|a l IH]; intros Hx0; [destruct Hx0|].
    destruct (Z_lt_le_dec (snd a) nq) as [Hlt | Hge].
    - destruct Hx0 as [E | Hx0]; [subst; lia|].
      assert (IH' : exists A X B, l = A ++ X :: B /\
                      (forall x, In x A -> snd x < nq) /\ nq <= snd X).
      { clear IH IN'. induction l as [|a' l IHl]; [destruct Hx0|].
        destruct (Z_lt_le_dec (snd a') nq) as [Hlt' | Hge'].
        - destruct Hx0 as [E | Hx0]; [subst; lia|].
          destruct (IHl Hx0) as (A & X & B & E & HA & HX).
          exists (a' :: A), X, B. subst l. repeat split; auto.
          intros x [Ex | Hx]; [subst; exact Hlt' | auto].
        - exists [], a', l. repeat split; auto. intros x []. }
      destruct IH' as (A & X & B & E & HA & HX).
      exists (a :: A), X, B. subst l. repeat split; auto.
      intros x [Ex | Hx]; [subst; exact Hlt | auto].
    - exists [], a, l. repeat split; auto. intros x []. }
  destruct FS as (A & X & B & ER' & HA & HX).
  assert (EF' : freep s = last (addrs B) (fst X)).
  { rewrite <- EF.
    assert (EL : last (addrs R') 0 = fst F').
    { subst R'. unfold addrs. rewrite map_app. cbn [map]. apply last_app_cons. }
    rewrite ER' in EL. unfold addrs in EL. rewrite map_app in EL. cbn [map] in EL.
    rewrite last_app_cons in EL. symmetry. exact EL. }
  rewrite ER' in RG', HF'.
  pose proof (alloc_loop_found c LAY nq s A X B (fuel - length A - 1) RG' HF' EF' HA HX
                ltac:(lia)) as RUN.
  assert (LA : (length A < length (q1 ++ F' :: q2))%nat).
  { assert (EL : length R' = length (q1 ++ F' :: q2)).
    { subst R'. rewrite !length_app. simpl. lia. }
    rewrite <- EL, ER', !length_app. simpl. lia. }
  unfold node in *.
  replace (length A + S (fuel - length A - 1))%nat with fuel in RUN by lia.
  rewrite RUN.
  assert (PX : 0 <= fst X).
  { apply POS. apply IN'. rewrite ER'. apply in_or_app. right. now left. }
  destruct (take_node c s nq (last (addrs A) (freep s)) X
              (entry B (entry (A ++ X :: B) 0))) as [r s'] eqn:ET.
  exists r, s'. split; [reflexivity|].
  unfold take_node in ET. destruct (snd X =? nq); injection ET; intros; nia.
Qed.

End RingSearch.

(** ** The free list in address order

    Between calls the ring is the sentinel followed by the free blocks in
    increasing address order, no two of them touching. *)

(** What a configuration has to satisfy: fields inside the header, sizes
    that fit [memmgr_int_t], addresses that fit a pointer, and a sentinel
    that lies outside the pool and not right behind it. *)
Definition cfg_ok (c : config) : Prop :=
  layout_ok c /\
  0 < MIN_POOL_ALLOC_QUANTAS c /\
  MIN_POOL_ALLOC_QUANTAS c * HSZ c + POOL_SIZE c < IMOD c /\
  0 <= POOL_SIZE c /\ 2 * POOL_SIZE c + 4 <= IMOD c /\
  0 < pool c /\ pool c + POOL_SIZE c < PMOD c /\
  0 < base c < PMOD c /\
  (base c + HSZ c <= pool c \/ pool c + POOL_SIZE c + HSZ c <= base c).

Section Canon.

Variable c : config.
Hypothesis CFG : cfg_ok c.

Let LAY : layout_ok c := proj1 CFG.

Definition sentinel : node := (base c, 0).

Fixpoint blocks_ok (lo hi : Z) (bl : list node) : Prop :=
  match bl with
  | [] => True
  | x :: r =>
      lo <= fst x /\ 1 <= snd x /\ fst x + snd x * HSZ c <= hi /\
      blocks_ok (fst x + snd x * HSZ c + 1) hi r
  end.

(* the byte [z] belongs to a block of [bl] *)
Definition covered (bl : list node) (z : Z) : Prop :=
  exists x, In x bl /\ fst x <= z < fst x + snd x * HSZ c.

Fixpoint bend (lo : Z) (bl : list node) : Z :=
  match bl with
  | [] => lo
  | x :: r => bend (fst x + snd x * HSZ c + 1) r
  end.

Lemma blocks_ok_weaken lo lo' hi hi' bl :
  lo' <= lo -> hi <= hi' -> blocks_ok lo hi bl -> blocks_ok lo' hi' bl.
Proof.
  revert lo lo'. induction bl as [|x r IH]; simpl; intros lo lo' Hlo Hhi B; [exact I|].
  destruct B as (B1 & B2 & B3 & B4). repeat split; try lia.
  apply IH with (lo := fst x + snd x * HSZ c + 1); auto. lia.
Qed.

Lemma blocks_ok_app lo hi l1 l2 :
  blocks_ok lo hi (l1 ++ l2) <-> blocks_ok lo hi l1 /\ blocks_ok (bend lo l1) hi l2.
Proof.
  revert lo. induction l1 as [|x r IH]; simpl; intros lo.
  - tauto.
  - rewrite IH. tauto.
Qed.

Lemma bend_app lo l1 l2 : bend lo (l1 ++ l2) = bend (bend lo l1) l2.
Proof. revert lo. induction l1 as [|x r IH]; simpl; intros lo; auto. Qed.

Lemma bend_ge lo hi bl : blocks_ok lo hi bl -> lo <= bend lo bl.
Proof.
  pose proof (HSZ_ge2 c LAY).
  revert lo. induction bl as [|x r IH]; simpl; intros lo B; [lia|].
  destruct B as (B1 & B2 & B3 & B4). specialize (IH _ B4). nia.
Qed.

Lemma bend_le lo hi bl : blocks_ok lo hi bl -> bl <> [] -> bend lo bl <= hi + 1.
Proof.
  pose proof (HSZ_ge2 c LAY).
  revert lo. induction bl as [|x r IH]; simpl; intros lo B N; [congruence|].
  destruct B as (B1 & B2 & B3 & B4). destruct r as [|y r'].
  - simpl. lia.
  - apply IH; [exact B4 | discriminate].
Qed.

Lemma blocks_ok_in lo hi bl x :
  blocks_ok lo hi bl -> In x bl ->
  lo <= fst x /\ 1 <= snd x /\ fst x + snd x * HSZ c <= hi.
Proof.
  pose proof (HSZ_ge2 c LAY).
  revert lo. induction bl as [|y r IH]; simpl; intros lo B Hin; [tauto|].
  destruct B as (B1 & B2 & B3 & B4). destruct Hin as [E | Hin].
  - subst. lia.
  - destruct (IH _ B4 Hin) as (I1 & I2 & I3). nia.
Qed.

(* every block after the first [l1] starts beyond their end *)
Lemma blocks_ok_after lo hi l1 l2 x y :
  blocks_ok lo hi (l1 ++ l2) -> In x l1 -> In y l2 ->
  fst x + snd x * HSZ c < fst y.
Proof.
  pose proof (HSZ_ge2 c LAY).
  revert lo. induction l1 as [|a r IH]; simpl; intros lo B Hx Hy; [tauto|].
  destruct B as (B1 & B2 & B3 & B4). destruct Hx as [E | Hx].
  - subst a. assert (Hy' : In y (r ++ l2)) by (apply in_or_app; now right).
    destruct (blocks_ok_in _ _ _ _ B4 Hy'). lia.
  - apply (IH _ B4 Hx Hy).
Qed.

Lemma covered_nil z : ~ covered [] z.
Proof. intros (x & [] & _). Qed.

Lemma covered_cons x bl z :
  covered (x :: bl) z <-> (fst x <= z < fst x + snd x * HSZ c) \/ covered bl z.
Proof.
  unfold covered. split.
  - intros (y & [E | Hin] & Hz); [subst; now left | right; eauto].
  - intros [Hz | (y & Hin & Hz)]; [exists x; simpl; auto | exists y; simpl; auto].
Qed.

Lemma covered_app l1 l2 z : covered (l1 ++ l2) z <-> covered l1 z \/ covered l2 z.
Proof.
  induction l1 as [|x r IH]; simpl.
  - split; [now right | intros [H | H]; [destruct (covered_nil z H) | exact H]].
  - rewrite !covered_cons, IH. tauto.
Qed.

(** The free blocks below and above an address. *)
Lemma split_blocks b : forall bl lo hi,
  blocks_ok lo hi bl ->
  exists l1 l2, bl = l1 ++ l2 /\
    (forall x, In x l1 -> fst x < b) /\ (forall x, In x l2 -> b <= fst x).
Proof.
  pose proof (HSZ_ge2 c LAY).
  induction bl as [|x r IH]; intros lo hi B.
  - exists [], []. simpl. tauto.
  - simpl in B. destruct B as (B1 & B2 & B3 & B4).
    destruct (Z_lt_le_dec (fst x) b) as [Hlt | Hge].
    + destruct (IH _ _ B4) as (l1 & l2 & E & H1 & H2).
      exists (x :: l1), l2. subst r. repeat split; auto.
      intros y [Ey | Hy]; [subst; exact Hlt | auto].
    + exists [], (x :: r). repeat split; [intros y [] |].
      intros y [Ey | Hy]; [subst; exact Hge|].
      destruct (blocks_ok_in _ _ _ _ B4 Hy). nia.
Qed.

Definition in_pool (z : Z) : Prop := pool c <= z <= pool c + POOL_SIZE c.

Lemma blocks_hfar lo hi bl : blocks_ok lo hi bl -> hfar c bl.
Proof.
  pose proof (HSZ_ge2 c LAY).
  revert lo. induction bl as [|x r IH]; simpl; intros lo B; [exact I|].
  destruct B as (B1 & B2 & B3 & B4). split; [|eapply IH; eauto].
  apply Forall_forall. intros y Hy.
  destruct (blocks_ok_in _ _ _ _ B4 Hy). left. nia.
Qed.

Lemma sentinel_far hi bl x :
  blocks_ok (pool c) hi bl -> hi <= pool c + POOL_SIZE c -> In x bl ->
  far c (base c) (fst x).
Proof.
  pose proof (HSZ_ge2 c LAY). intros B Hhi Hx.
  destruct (blocks_ok_in _ _ _ _ B Hx) as (I1 & I2 & I3).
  pose proof CFG as CFG0; destruct CFG0 as (_ & _ & _ & _ & _ & _ & _ & _ & [Lo | Hi]); [left; lia | right; nia].
Qed.

Lemma canon_hfar hi bl :
  blocks_ok (pool c) hi bl -> hi <= pool c + POOL_SIZE c -> hfar c (sentinel :: bl).
Proof.
  intros B Hhi. simpl. split; [|eapply blocks_hfar; eauto].
  apply Forall_forall. intros x Hx. eapply sentinel_far; eauto.
Qed.

Lemma in_pool_block hi bl x :
  blocks_ok (pool c) hi bl -> hi <= pool c + POOL_SIZE c -> In x bl ->
  in_pool (fst x).
Proof.
  pose proof (HSZ_ge2 c LAY). intros B Hhi Hx.
  destruct (blocks_ok_in _ _ _ _ B Hx) as (I1 & I2 & I3). red. nia.
Qed.

Lemma lseg_next m l x r e :
  lseg c m (l ++ x :: r) e -> ld_next c m (fst x) = entry r e.
Proof. intros L. apply lseg_app in L. simpl in L. tauto. Qed.

(** *** Where the scan of [memmgr_free] stops *)

Ltac stop_cases :=
  unfold stop;
  repeat match goal with
  | |- context [?a <? ?b] => destruct (Z.ltb_spec a b)
  | |- context [?a <=? ?b] => destruct (Z.leb_spec a b)
  end; simpl; try reflexivity; try lia.

Lemma stop_true m b x y :
  ld_next c m x = y -> in_pool b ->
  x = base c \/ (in_pool x /\ x < b) ->
  y = base c \/ (in_pool y /\ b < y) ->
  stop c m b x = true.
Proof.
  unfold in_pool. intros Hn Hb Hx Hy.
  pose proof CFG as CFG0; destruct CFG0 as (_ & _ & _ & _ & _ & _ & _ & _ & LO).
  pose proof (HSZ_ge2 c LAY).
  unfold stop. rewrite Hn. stop_cases.
Qed.

Lemma stop_false_before m b x y :
  ld_next c m x = y -> in_pool b ->
  x = base c \/ (in_pool x /\ x < y) ->
  in_pool y /\ y < b ->
  stop c m b x = false.
Proof.
  unfold in_pool. intros Hn Hb Hx Hy.
  pose proof CFG as CFG0; destruct CFG0 as (_ & _ & _ & _ & _ & _ & _ & _ & LO).
  pose proof (HSZ_ge2 c LAY).
  unfold stop. rewrite Hn. stop_cases.
Qed.

Lemma stop_false_after m b x y :
  ld_next c m x = y -> in_pool b ->
  in_pool x /\ b < x ->
  y = base c \/ (in_pool y /\ x < y) ->
  stop c m b x = false.
Proof.
  unfold in_pool. intros Hn Hb Hx Hy.
  pose proof CFG as CFG0; destruct CFG0 as (_ & _ & _ & _ & _ & _ & _ & _ & LO).
  pose proof (HSZ_ge2 c LAY).
  unfold stop. rewrite Hn. stop_cases.
Qed.

Lemma far_all_neq b R x : far_all c b R -> In x R -> b <> fst x.
Proof. intros F Hx. apply (far_neq c LAY). eapply far_all_in; eauto. Qed.

(** The node the scan stops at is the last one before the block, in the
    order sentinel, blocks below, blocks above. *)
Lemma canon_stops m bl hi b :
  ring c m (sentinel :: bl) -> blocks_ok (pool c) hi bl ->
  hi <= pool c + POOL_SIZE c -> far_all c b (sentinel :: bl) -> in_pool b ->
  exists l1 l2 pre P,
    bl = l1 ++ l2 /\ sentinel :: l1 = pre ++ [P] /\
    (forall x, In x l1 -> fst x < b) /\ (forall x, In x l2 -> b < fst x) /\
    stop c m b (fst P) = true /\
    (forall x, In x pre \/ In x l2 -> stop c m b (fst x) = false).
Proof.
  intros (_ & L) BO Hhi FB Pb.
  destruct (split_blocks b bl _ _ BO) as (l1 & l2 & E & H1 & H2).
  assert (H2' : forall x, In x l2 -> b < fst x).
  { intros x Hx. specialize (H2 x Hx).
    assert (b <> fst x); [|lia].
    apply (far_all_neq b _ x FB). right. subst bl. apply in_or_app. now right. }
  destruct (exists_last (l := sentinel :: l1) ltac:(discriminate)) as (pre & P & EP).
  exists l1, l2, pre, P. repeat split; auto.
  - (* the target *)
    assert (EL : sentinel :: bl = pre ++ P :: l2).
    { subst bl. rewrite app_comm_cons, EP, <- app_assoc. reflexivity. }
    rewrite EL in L. cbn [entry] in L.
    replace (entry (pre ++ P :: l2) 0) with (base c) in L
      by (rewrite <- EL; reflexivity).
    apply stop_true with (y := entry l2 (base c)); auto.
    + apply (lseg_next m pre P l2 _ L).
    + assert (IP : In P (sentinel :: l1)) by (rewrite EP; apply in_or_app; right; now left).
      destruct IP as [ES | IP]; [left; subst P; reflexivity|].
      right. split; [|auto].
      apply (in_pool_block hi bl P BO Hhi). subst bl. apply in_or_app. now left.
    + destruct l2 as [|y l2']; [now left|]. right. cbn [entry]. split.
      * apply (in_pool_block hi bl y BO Hhi). subst bl. apply in_or_app. right. now left.
      * apply H2'. now left.
  - intros x [Hx | Hx].
    + (* before the target *)
      destruct (in_split x pre Hx) as (p1 & p2 & Epre).
      assert (EL : sentinel :: bl = p1 ++ x :: (p2 ++ P :: l2)).
      { subst bl. rewrite app_comm_cons, EP, Epre, <- !app_assoc. reflexivity. }
      rewrite EL in L.
      pose proof (lseg_next m p1 x _ _ L) as Hn.
      set (y := entry (p2 ++ P :: l2) (entry (p1 ++ x :: p2 ++ P :: l2) 0)) in *.
      assert (Ey : exists Y p3, p2 ++ [P] = Y :: p3 /\ y = fst Y).
      { subst y. destruct p2 as [|Y p2']; [exists P, [] | exists Y, (p2' ++ [P])]; auto. }
      destruct Ey as (Y & p3 & EY & Ey).
      assert (E1 : sentinel :: l1 = p1 ++ x :: Y :: p3).
      { rewrite EP, Epre, <- app_assoc. cbn [app]. rewrite <- EY. reflexivity. }
      apply stop_false_before with (y := y); auto.
      * destruct p1 as [|s0 p1']; [left; injection E1; intros _ Ex; subst x; reflexivity|].
        right. injection E1. intros El1 _.
        assert (Exy : fst x + snd x * HSZ c < fst Y).
        { apply (blocks_ok_after (pool c) hi (p1' ++ [x]) (Y :: p3 ++ l2)).
          - rewrite <- app_assoc. cbn [app]. rewrite app_comm_cons.
            rewrite app_comm_cons, app_assoc, <- El1, <- E. exact BO.
          - apply in_or_app. right. now left.
          - now left. }
        assert (Ix : In x bl).
        { subst bl. apply in_or_app. left. rewrite El1. apply in_or_app. right. now left. }
        split; [apply (in_pool_block hi bl x BO Hhi Ix)|].
        destruct (blocks_ok_in _ _ _ _ BO Ix) as (_ & I2 & _).
        pose proof (HSZ_ge2 c LAY). rewrite Ey. nia.
      * assert (IY : In Y l1).
        { destruct p1 as [|s0 p1']; injection E1; intros El1 _; rewrite El1.
          - now left.
          - apply in_or_app. right. right. now left. }
        rewrite Ey. split; [|auto].
        apply (in_pool_block hi bl Y BO Hhi). subst bl. apply in_or_app. now left.
    + (* after the target *)
      destruct (in_split x l2 Hx) as (q1 & q2 & El2).
      assert (EL : sentinel :: bl = (pre ++ P :: q1) ++ x :: q2).
      { subst bl. rewrite app_comm_cons, EP, El2, <- !app_assoc. reflexivity. }
      rewrite EL in L.
      pose proof (lseg_next m _ x _ _ L) as Hn.
      replace (entry ((pre ++ P :: q1) ++ x :: q2) 0) with (base c) in Hn
        by (rewrite <- EL; reflexivity).
      assert (Ix : In x bl) by (subst bl; apply in_or_app; now right).
      apply stop_false_after with (y := entry q2 (base c)); auto.
      * split; [apply (in_pool_block hi bl x BO Hhi Ix) | auto].
      * destruct q2 as [|Y q2']; [now left|]. right. cbn [entry].
        assert (IY : In Y bl).
        { subst bl l2. apply in_or_app. right. apply in_or_app. right. right. now left. }
        split; [apply (in_pool_block hi bl Y BO Hhi IY)|].
        assert (Exy : fst x + snd x * HSZ c < fst Y).
        { apply (blocks_ok_after (pool c) hi (l1 ++ q1 ++ [x]) (Y :: q2')).
          - rewrite <- !app_assoc. cbn [app]. rewrite <- El2, <- E. exact BO.
          - apply in_or_app. right. apply in_or_app. right. now left.
          - now left. }
        destruct (blocks_ok_in _ _ _ _ BO Ix) as (_ & I2 & _).
        pose proof (HSZ_ge2 c LAY). nia.
Qed.

Ltac list_eq := repeat (rewrite <- app_assoc || cbn [app]); reflexivity.

Lemma ring_from m pre P post F :
  ring c m (pre ++ P :: post) -> In F (pre ++ P :: post) ->
  exists A B,
    ring c m (A ++ P :: B) /\ entry (A ++ P :: B) 0 = fst F /\
    (forall x, In x A -> In x pre \/ In x post) /\
    (length A + length B = length pre + length post)%nat.
Proof.
  intros RG HF. apply in_app_or in HF. destruct HF as [HF | [HF | HF]].
  - destruct (in_split F pre HF) as (q1 & q2 & E). subst pre.
    exists (F :: q2), (post ++ q1). split; [|split; [|split]].
    + assert (RG' : ring c m (q1 ++ (F :: q2 ++ P :: post)))
        by (refine (eq_ind _ (ring c m) RG _ _); list_eq).
      apply (ring_rot c m q1 _) in RG'; [|discriminate].
      refine (eq_ind _ (ring c m) RG' _ _). list_eq.
    + reflexivity.
    + intros x Hx. left. apply in_or_app. right. exact Hx.
    + rewrite !length_app. simpl. lia.
  - subst F. exists [], (post ++ pre). split; [|split; [|split]].
    + apply (ring_rot c m pre _) in RG; [|discriminate]. exact RG.
    + reflexivity.
    + intros x [].
    + rewrite !length_app. simpl. lia.
  - destruct (in_split F post HF) as (q1 & q2 & E). subst post.
    exists (F :: q2 ++ pre), q1. split; [|split; [|split]].
    + assert (RG' : ring c m ((pre ++ P :: q1) ++ F :: q2))
        by (refine (eq_ind _ (ring c m) RG _ _); list_eq).
      apply (ring_rot c m _ _) in RG'; [|discriminate].
      refine (eq_ind _ (ring c m) RG' _ _). list_eq.
    + reflexivity.
    + intros x [Ex | Hx]; [subst; right; apply in_or_app; right; now left|].
      apply in_app_or in Hx. destruct Hx as [Hx | Hx]; [right | left; exact Hx].
      apply in_or_app. right. now right.
    + rewrite !length_app. simpl. rewrite !length_app. simpl. lia.
Qed.

Lemma scan_canon m bl hi b F fuel :
  ring c m (sentinel :: bl) -> blocks_ok (pool c) hi bl ->
  hi <= pool c + POOL_SIZE c -> far_all c b (sentinel :: bl) -> in_pool b ->
  In F (addrs (sentinel :: bl)) -> (length bl < fuel)%nat ->
  exists l1 l2 pre P,
    bl = l1 ++ l2 /\ sentinel :: l1 = pre ++ [P] /\
    (forall x, In x l1 -> fst x < b) /\ (forall x, In x l2 -> b < fst x) /\
    free_scan c fuel m b F = Some (fst P).
Proof.
  intros RG BO Hhi FB Pb HF Hfuel.
  destruct (canon_stops m bl hi b RG BO Hhi FB Pb)
    as (l1 & l2 & pre & P & E & EP & H1 & H2 & ST & SF).
  exists l1, l2, pre, P. repeat split; auto.
  assert (EL : sentinel :: bl = pre ++ P :: l2).
  { subst bl. rewrite app_comm_cons, EP, <- app_assoc. reflexivity. }
  unfold addrs in HF. apply in_map_iff in HF. destruct HF as (F' & EF & HF).
  rewrite EL in RG, HF.
  destruct (ring_from m pre P l2 F' RG HF) as (A & B & RG' & EA & HA & Hlen).
  assert (Hl : (length bl = length pre + length l2)%nat).
  { apply (f_equal (@length node)) in EL. rewrite length_app in EL. simpl in EL. lia. }
  replace fuel with (length A + S (fuel - length A - 1))%nat by lia.
  rewrite <- EF, <- EA.
  destruct RG' as (_ & L).
  set (e := entry (A ++ P :: B) 0) in *.
  replace (free_scan c (length A + S (fuel - length A - 1)) m b e)
    with (free_scan c (length A + S (fuel - length A - 1)) m b
            (entry (A ++ P :: B) e))
    by (f_equal; apply entry_nonempty; destruct A; discriminate).
  rewrite (free_scan_skip c m b A (P :: B) e _ L).
  - cbn [entry]. rewrite free_scan_step, ST. reflexivity.
  - intros x Hx. apply SF. apply HA. exact Hx.
Qed.

(** *** The free list after [free_link], back in address order *)

(* the part of the list that changes: the node [P] and the successor [l2] *)
Definition link_mid (P : node) (l2 : list node) (b n : Z)
  : list node * list node :=
  let lower := fst P + snd P * HSZ c =? b in
  match l2 with
  | Y :: l2' =>
      if b + n * HSZ c =? fst Y then
        if lower then ([(fst P, snd P + (n + snd Y))], l2')
        else ([P; (b, n + snd Y)], l2')
      else if lower then ([(fst P, snd P + n)], l2) else ([P; (b, n)], l2)
  | [] => if lower then ([(fst P, snd P + n)], l2) else ([P; (b, n)], l2)
  end.

Lemma link_result_canon m pre P l2 b n :
  (l2 = [] -> b + n * HSZ c <> entry (pre ++ [P]) 0) ->
  ring c m (link_result c (l2 ++ pre) P b n) ->
  ring c m (pre ++ fst (link_mid P l2 b n) ++ snd (link_mid P l2 b n)).
Proof.
  intros U RG. unfold link_mid.
  destruct l2 as [|Y l2'].
  - specialize (U eq_refl). apply Z.eqb_neq in U.
    cbn [app] in RG. unfold link_result in RG. rewrite U in RG.
    destruct pre as [|N pre'];
      destruct (fst P + snd P * HSZ c =? b); cbn [fst snd app] in *;
      rewrite ?app_nil_r; exact RG.
  - cbn [app] in RG. unfold link_result in RG. cbn [app entry] in RG.
    destruct (b + n * HSZ c =? fst Y);
      destruct (fst P + snd P * HSZ c =? b); cbn [fst snd].
    + assert (RG' : ring c m (l2' ++ (pre ++ [(fst P, snd P + (n + snd Y))])))
        by (refine (eq_ind _ (ring c m) RG _ _); list_eq).
      apply ring_rot in RG'; [|destruct pre; discriminate].
      refine (eq_ind _ (ring c m) RG' _ _). list_eq.
    + assert (RG' : ring c m (l2' ++ (pre ++ [P; (b, n + snd Y)])))
        by (refine (eq_ind _ (ring c m) RG _ _); list_eq).
      apply ring_rot in RG'; [|destruct pre; discriminate].
      refine (eq_ind _ (ring c m) RG' _ _). list_eq.
    + assert (RG' : ring c m ((Y :: l2') ++ (pre ++ [(fst P, snd P + n)])))
        by (refine (eq_ind _ (ring c m) RG _ _); list_eq).
      apply ring_rot in RG'; [|destruct pre; discriminate].
      refine (eq_ind _ (ring c m) RG' _ _). list_eq.
    + assert (RG' : ring c m ((Y :: l2') ++ (pre ++ [P; (b, n)])))
        by (refine (eq_ind _ (ring c m) RG _ _); list_eq).
      apply ring_rot in RG'; [|destruct pre; discriminate].
      refine (eq_ind _ (ring c m) RG' _ _). list_eq.
Qed.

Lemma uncovered_disjoint bl b n x :
  (forall z, b <= z < b + n * HSZ c -> ~ covered bl z) ->
  In x bl -> 1 <= n -> 1 <= snd x ->
  b + n * HSZ c <= fst x \/ fst x + snd x * HSZ c <= b.
Proof.
  pose proof (HSZ_ge2 c LAY). intros U Hx Hn Hs.
  destruct (Z_le_gt_dec (b + n * HSZ c) (fst x)); [now left|].
  destruct (Z_le_gt_dec (fst x + snd x * HSZ c) b); [now right|].
  exfalso. destruct (Z_le_gt_dec (fst x) b).
  - apply (U b); [nia|]. exists x. split; [exact Hx | lia].
  - apply (U (fst x)); [lia|]. exists x. split; [exact Hx | nia].
Qed.

Lemma uncovered_far hi bl b n :
  blocks_ok (pool c) hi bl -> hi <= pool c + POOL_SIZE c ->
  pool c <= b -> b + n * HSZ c <= pool c + POOL_SIZE c -> 1 <= n ->
  (forall z, b <= z < b + n * HSZ c -> ~ covered bl z) ->
  far_all c b (sentinel :: bl).
Proof.
  pose proof (HSZ_ge2 c LAY). intros BO Hhi Hb Hbn Hn U.
  apply Forall_cons.
  - cbn [sentinel fst]. red.
    pose proof CFG as CFG0.
    destruct CFG0 as (_ & _ & _ & _ & _ & _ & _ & _ & [Lo | Hi]); [right; lia | left; nia].
  - apply Forall_forall. intros x Hx.
    destruct (blocks_ok_in _ _ _ _ BO Hx) as (I1 & I2 & I3).
    destruct (uncovered_disjoint bl b n x U Hx Hn I2); [left; nia | right; nia].
Qed.

Lemma canon_sizes hi bl x :
  blocks_ok (pool c) hi bl -> hi <= pool c + POOL_SIZE c ->
  In x (sentinel :: bl) -> 0 <= snd x /\ 2 * snd x <= POOL_SIZE c.
Proof.
  pose proof (HSZ_ge2 c LAY). intros BO Hhi [E | Hx].
  - subst x. cbn [sentinel snd].
    pose proof CFG as CFG0. destruct CFG0 as (_ & _ & _ & ? & _). lia.
  - destruct (blocks_ok_in _ _ _ _ BO Hx) as (I1 & I2 & I3). nia.
Qed.

(* one of the disjuncts is an assumption or follows by arithmetic *)
Ltac cov_leaf :=
  first [ assumption | lia | (left; cov_leaf) | (right; cov_leaf) ].

Ltac cov_split z b n :=
  destruct (Z_lt_le_dec z b); destruct (Z_lt_le_dec z (b + n * HSZ c));
  (split; intros HC; repeat (destruct HC as [HC | HC]));
  try (exfalso; apply (covered_nil _ HC)); cov_leaf.

Ltac eqb_hyp H := first [apply Z.eqb_eq in H | apply Z.eqb_neq in H].

Ltac fb_intro :=
  split; [auto|split; [auto|split; [auto|split; [auto|split; [auto|
  split; [reflexivity|split; [assumption|split]]]]]]].

(** Freeing a block that no free block covers: where the scan stops, and
    the free list afterwards. *)
Lemma free_block m bl hi hi' b n F fuel :
  ring c m (sentinel :: bl) -> blocks_ok (pool c) hi bl ->
  hi <= hi' -> hi' <= pool c + POOL_SIZE c ->
  pool c <= b -> b + n * HSZ c <= hi' -> 1 <= n -> ld_size c m b = n ->
  (forall z, b <= z < b + n * HSZ c -> ~ covered bl z) ->
  In F (addrs (sentinel :: bl)) -> (length bl < fuel)%nat ->
  exists l1 l2 pre P bl',
    bl = l1 ++ l2 /\ sentinel :: l1 = pre ++ [P] /\
    (forall x, In x l1 -> fst x < b) /\ (forall x, In x l2 -> b < fst x) /\
    free_scan c fuel m b F = Some (fst P) /\
    sentinel :: bl' = pre ++ fst (link_mid P l2 b n) ++ snd (link_mid P l2 b n) /\
    ring c (free_link c m b (fst P)) (sentinel :: bl') /\
    blocks_ok (pool c) hi' bl' /\
    (forall z, covered bl' z <-> covered bl z \/ b <= z < b + n * HSZ c).
Proof.
  pose proof (HSZ_ge2 c LAY) as H2.
  pose proof CFG as CFG0.
  destruct CFG0 as (_ & C1 & C2 & C3 & C4 & C5 & C6 & C7 & C8).
  intros RG BO Hh Hh' Hb Hbn Hn Hsz U HF Hfuel.
  assert (Hhi : hi <= pool c + POOL_SIZE c) by lia.
  assert (FB : far_all c b (sentinel :: bl)).
  { apply (uncovered_far hi bl b n); auto. lia. }
  assert (Pb : in_pool b) by (red; nia).
  destruct (scan_canon m bl hi b F fuel RG BO Hhi FB Pb HF Hfuel)
    as (l1 & l2 & pre & P & E & EP & H1 & H2' & SC).
  assert (EL : sentinel :: bl = pre ++ P :: l2).
  { subst bl. rewrite app_comm_cons, EP, <- app_assoc. reflexivity. }
  (* the ring, rotated to end at P *)
  assert (RG1 : ring c m ((l2 ++ pre) ++ [P])).
  { rewrite EL in RG.
    assert (RG' : ring c m ((pre ++ [P]) ++ l2))
      by (refine (eq_ind _ (ring c m) RG _ _); list_eq).
    destruct l2 as [|Y l2'].
    - rewrite app_nil_r in RG'. exact RG'.
    - apply ring_rot in RG'; [|discriminate].
      refine (eq_ind _ (ring c m) RG' _ _). list_eq. }
  assert (HF1 : hfar c ((l2 ++ pre) ++ [P])).
  { pose proof (canon_hfar hi bl BO Hhi) as HH. rewrite EL in HH.
    assert (HH' : hfar c ((pre ++ [P]) ++ l2))
      by (refine (eq_ind _ (hfar c) HH _ _); list_eq).
    apply hfar_rot in HH'. refine (eq_ind _ (hfar c) HH' _ _). list_eq. }
  assert (INL : forall x, In x ((l2 ++ pre) ++ [P]) -> In x (sentinel :: bl)).
  { intros x Hx. rewrite EL. apply in_app_or in Hx. destruct Hx as [Hx | Hx].
    - apply in_app_or in Hx. apply in_or_app. destruct Hx; [right; now right | now left].
    - destruct Hx as [Hx | []]. subst. apply in_or_app. right. now left. }
  assert (FB1 : far_all c b ((l2 ++ pre) ++ [P])).
  { apply Forall_forall. intros x Hx. apply (far_all_in c b _ x FB). auto. }
  assert (W : forall x y, In x ((l2 ++ pre) ++ [P]) -> In y ((l2 ++ pre) ++ [P]) ->
                          snd x + snd y + n < IMOD c).
  { intros x y Hx Hy.
    destruct (canon_sizes hi bl x BO Hhi (INL x Hx)).
    destruct (canon_sizes hi bl y BO Hhi (INL y Hy)). nia. }
  pose proof (free_link_ring c LAY m (l2 ++ pre) P b n RG1 HF1 FB1
                ltac:(lia) Hsz W) as RG2.
  assert (EB : entry (pre ++ [P]) 0 = base c) by (rewrite <- EP; reflexivity).
  apply link_result_canon in RG2; [|intros _; rewrite EB; nia].
  (* the shape of the list *)
  assert (SH : (pre = [] /\ P = sentinel /\ l1 = []) \/
               (exists l1', pre = sentinel :: l1' /\ l1 = l1' ++ [P])).
  { destruct pre as [|s0 pre']; cbn [app] in EP.
    - left. injection EP. intros E1 E2. subst. auto.
    - right. exists pre'. injection EP. intros E1 E2. subst. auto. }
  assert (LOW : forall Y, In Y l2 -> b + n * HSZ c <= fst Y).
  { intros Y HY. assert (IY : In Y bl) by (subst bl; apply in_or_app; now right).
    destruct (blocks_ok_in _ _ _ _ BO IY) as (_ & I2 & _).
    destruct (uncovered_disjoint bl b n Y U IY Hn I2); [lia|].
    specialize (H2' Y HY). nia. }
  exists l1, l2, pre, P.
  destruct SH as [(Epre & EPs & El1) | (l1' & Epre & El1)].
  - (* the block goes right behind the sentinel *)
    subst pre P l1. cbn [app] in *. subst bl.
    assert (LF : (fst sentinel + snd sentinel * HSZ c =? b) = false).
    { apply Z.eqb_neq. cbn [sentinel fst snd]. lia. }
    unfold link_mid in *. rewrite LF in *.
    destruct l2 as [|Y l2'].
    + exists [(b, n)]. cbn [fst snd app] in *. fb_intro.
      * simpl. lia.
      * intros z. split.
        -- intros (x & [E | []] & Hz). subst x. right. exact Hz.
        -- intros [HC | HC]; [destruct (covered_nil _ HC)|].
           exists (b, n). split; [now left | exact HC].
    + simpl in BO. destruct BO as (B1 & B2 & B3 & B4).
      specialize (LOW Y (or_introl eq_refl)).
      destruct (b + n * HSZ c =? fst Y) eqn:EU; cbn [fst snd app] in *.
      * apply Z.eqb_eq in EU. exists ((b, n + snd Y) :: l2'). fb_intro.
        -- simpl. repeat split; try lia.
           replace (b + (n + snd Y) * HSZ c) with (fst Y + snd Y * HSZ c) by lia.
           refine (blocks_ok_weaken _ _ _ _ _ _ _ B4); lia.
        -- intros z. rewrite !covered_cons. cbn [fst snd]. cov_split z b n.
      * apply Z.eqb_neq in EU. exists ((b, n) :: Y :: l2'). fb_intro.
        -- simpl. repeat split; try lia.
           refine (blocks_ok_weaken _ _ _ _ _ _ _ B4); lia.
        -- intros z. rewrite !covered_cons. cbn [fst snd]. cov_split z b n.
  - (* the block goes behind the free block P *)
    subst pre l1.
    assert (IP : In P bl) by (subst bl; apply in_or_app; left; apply in_or_app; right; now left).
    assert (PB : fst P + snd P * HSZ c <= b).
    { destruct (blocks_ok_in _ _ _ _ BO IP) as (_ & I2 & _).
      destruct (uncovered_disjoint bl b n P U IP Hn I2); [|lia].
      assert (fst P < b); [|nia]. apply H1. apply in_or_app. right. now left. }
    rewrite E in BO. rewrite <- app_assoc in BO.
    apply blocks_ok_app in BO. destruct BO as (BO1 & BO2).
    cbn [app] in BO2. simpl in BO2. destruct BO2 as (B1 & B2 & B3 & B4).
    assert (BO1' : blocks_ok (pool c) hi' l1')
      by (refine (blocks_ok_weaken _ _ _ _ _ _ _ BO1); lia).
    unfold link_mid in *.
    destruct l2 as [|Y l2'].
    + destruct (fst P + snd P * HSZ c =? b) eqn:EW; cbn [fst snd app] in *.
      * apply Z.eqb_eq in EW. exists (l1' ++ [(fst P, snd P + n)]). fb_intro.
        -- apply blocks_ok_app. split; [exact BO1'|]. simpl. repeat split; lia.
        -- intros z. rewrite E, !covered_app, !covered_cons. cbn [fst snd].
           cov_split z b n.
      * apply Z.eqb_neq in EW. exists (l1' ++ [P; (b, n)]). fb_intro.
        -- apply blocks_ok_app. split; [exact BO1'|]. simpl. repeat split; lia.
        -- intros z. rewrite E, !covered_app, !covered_cons. cbn [fst snd].
           cov_split z b n.
    + simpl in B4. destruct B4 as (B5 & B6 & B7 & B8).
      specialize (LOW Y (or_introl eq_refl)).
      destruct (b + n * HSZ c =? fst Y) eqn:EU;
        destruct (fst P + snd P * HSZ c =? b) eqn:EW; cbn [fst snd app] in *;
        eqb_hyp EU; eqb_hyp EW.
      * exists (l1' ++ (fst P, snd P + (n + snd Y)) :: l2'). fb_intro.
        -- apply blocks_ok_app. split; [exact BO1'|]. simpl. repeat split; try lia.
           refine (blocks_ok_weaken _ _ _ _ _ _ _ B8); lia.
        -- intros z. rewrite E, !covered_app, !covered_cons. cbn [fst snd].
           cov_split z b n.
      * exists (l1' ++ P :: (b, n + snd Y) :: l2'). fb_intro.
        -- apply blocks_ok_app. split; [exact BO1'|]. simpl. repeat split; try lia.
           refine (blocks_ok_weaken _ _ _ _ _ _ _ B8); lia.
        -- intros z. rewrite E, !covered_app, !covered_cons. cbn [fst snd].
           cov_split z b n.
      * exists (l1' ++ (fst P, snd P + n) :: Y :: l2'). fb_intro.
        -- apply blocks_ok_app. split; [exact BO1'|]. simpl. repeat split; try lia.
           refine (blocks_ok_weaken _ _ _ _ _ _ _ B8); lia.
        -- intros z. rewrite E, !covered_app, !covered_cons. cbn [fst snd].
           cov_split z b n.
      * exists (l1' ++ P :: (b, n) :: Y :: l2'). fb_intro.
        -- apply blocks_ok_app. split; [exact BO1'|]. simpl. repeat split; try lia.
           refine (blocks_ok_weaken _ _ _ _ _ _ _ B8); lia.
        -- intros z. rewrite E, !covered_app, !covered_cons. cbn [fst snd].
           cov_split z b n.
Qed.

(** ** The allocator invariant

    [bl] is the free list in address order and [live a n] says that the
    block with header at [a], of [n] quantas, was handed out and not freed. *)

Definition WF (s : state) (bl : list node) (live : Z -> Z -> Prop) : Prop :=
  0 <= pool_free_pos s <= POOL_SIZE c /\
  ring c (mem s) (sentinel :: bl) /\
  blocks_ok (pool c) (pool c + pool_free_pos s) bl /\
  In (freep s) (addrs (sentinel :: bl)) /\
  (forall a n, live a n ->
     ld_size c (mem s) a = n /\ 1 <= n /\ pool c <= a /\
     a + n * HSZ c <= pool c + pool_free_pos s) /\
  (forall a n z, live a n -> a <= z < a + n * HSZ c -> ~ covered bl z) /\
  (forall a n a' n', live a n -> live a' n' -> a <> a' ->
     a + n * HSZ c <= a' \/ a' + n' * HSZ c <= a).

(* the bytes of the sentinel header *)
Definition in_base (z : Z) : Prop := base c <= z < base c + HSZ c.

(** The free list after the block [(b, n)] was inserted and merged with the
    neighbours it touches. *)
Definition freed (bl : list node) (b n : Z) (P : node) (bl' : list node) : Prop :=
  exists l1 l2 pre,
    bl = l1 ++ l2 /\ sentinel :: l1 = pre ++ [P] /\
    (forall x, In x l1 -> fst x < b) /\ (forall x, In x l2 -> b < fst x) /\
    sentinel :: bl' = pre ++ fst (link_mid P l2 b n) ++ snd (link_mid P l2 b n).

(** The free list after a block of [nq] quantas was taken from the node [X]:
    the whole node, or its tail. *)
Definition took (bl : list node) (nq r : Z) (bl' : list node) : Prop :=
  exists b1 X b2,
    bl = b1 ++ X :: b2 /\
    ((snd X = nq /\ r = fst X + HSZ c /\ bl' = b1 ++ b2) \/
     (nq < snd X /\ r = fst X + (snd X - nq) * HSZ c + HSZ c /\
      bl' = b1 ++ (fst X, snd X - nq) :: b2)).

Lemma link_mid_hd P l2 b n :
  exists q t, fst (link_mid P l2 b n) = (fst P, q) :: t.
Proof.
  unfold link_mid. destruct P as (pa, ps). cbn [fst snd].
  destruct l2 as [|Y l2']; repeat match goal with
  | |- context [if ?b then _ else _] => destruct b
  end; cbn [fst]; eauto.
Qed.

Lemma node_header_covered hi bl x z :
  blocks_ok (pool c) hi bl -> In x (sentinel :: bl) ->
  fst x <= z < fst x + HSZ c -> in_base z \/ covered bl z.
Proof.
  pose proof (HSZ_ge2 c LAY). intros BO [E | Hx] Hz.
  - left. subst x. exact Hz.
  - right. exists x. split; [exact Hx|].
    destruct (blocks_ok_in _ _ _ _ BO Hx) as (_ & I2 & _). nia.
Qed.

Lemma memmgr_free_WF s bl live b n fuel :
  WF s bl live -> live b n -> (length bl < fuel)%nat ->
  exists s' P bl',
    memmgr_free c fuel (b + HSZ c) s = Some s' /\
    freed bl b n P bl' /\ freep s' = fst P /\
    pool_free_pos s' = pool_free_pos s /\
    WF s' bl' (fun a k => live a k /\ a <> b) /\
    (forall z, covered bl' z <-> covered bl z \/ b <= z < b + n * HSZ c) /\
    (forall z, ~ covered bl z -> ~ in_base z -> ~ (b <= z < b + HSZ c) ->
               mem s' z = mem s z).
Proof.
  pose proof (HSZ_ge2 c LAY) as H2.
  pose proof CFG as CFG0.
  destruct CFG0 as (_ & C1 & C2 & C3 & C4 & C5 & C6 & C7 & C8).
  intros (W1 & W2 & W3 & W4 & W5 & W6 & W7) Hl Hfuel.
  destruct (W5 b n Hl) as (Hsz & Hn & Hb & Hbn).
  destruct (free_block (mem s) bl _ (pool c + pool_free_pos s) b n (freep s) fuel
              W2 W3 ltac:(lia) ltac:(lia) Hb Hbn Hn Hsz (fun z => W6 b n z Hl) W4 Hfuel)
    as (l1 & l2 & pre & P & bl' & E & EP & H1 & H2' & SC & SH & RG & BO & CV).
  assert (IP : In P (sentinel :: bl)).
  { subst bl. rewrite app_comm_cons, EP. apply in_or_app. left.
    apply in_or_app. right. now left. }
  assert (FR : forall z, ~ covered bl z -> ~ in_base z -> ~ (b <= z < b + HSZ c) ->
                         free_link c (mem s) b (fst P) z = mem s z).
  { intros z N1 N2 N3. apply (free_link_out c LAY); [exact N3|].
    intros Hz. destruct (node_header_covered _ bl P z W3 IP Hz); tauto. }
  exists (mkState (free_link c (mem s) b (fst P)) (fst P) (pool_free_pos s)), P, bl'.
  split.
  { unfold memmgr_free.
    assert (E0 : (b + HSZ c =? 0) = false) by (apply Z.eqb_neq; lia).
    rewrite E0. replace (b + HSZ c - HSZ c) with b by lia. rewrite SC. reflexivity. }
  split; [exists l1, l2, pre; auto|].
  split; [reflexivity|]. split; [reflexivity|].
  split; [|split; [exact CV | exact FR]].
  unfold WF. cbn [mem freep pool_free_pos].
  split; [lia|]. split; [exact RG|]. split; [exact BO|].
  split; [|split; [|split]].
  - rewrite SH. destruct (link_mid_hd P l2 b n) as (q & t & EQ). rewrite EQ.
    unfold addrs. rewrite !map_app. apply in_or_app. right. apply in_or_app. left.
    now left.
  - intros a k (Ha & Hne). destruct (W5 a k Ha) as (I1 & I2 & I3 & I4).
    repeat split; try assumption.
    rewrite <- I1. apply (ld_size_frame c LAY). intros x Hx. apply FR.
    + apply (W6 a k x Ha). nia.
    + unfold in_base. destruct C8; nia.
    + destruct (W7 a k b n Ha Hl Hne); nia.
  - intros a k z (Ha & Hne) Hz HC. apply CV in HC. destruct HC as [HC | HC].
    + apply (W6 a k z Ha Hz HC).
    + destruct (W5 a k Ha) as (_ & I2 & _).
      destruct (W7 a k b n Ha Hl Hne); nia.
  - intros a k a' k' (Ha & _) (Ha' & _). apply W7; assumption.
Qed.

(* the quantas a carve takes for a request of [nq] *)
Definition carve_quantas (nq : Z) : Z :=
  if nq <? MIN_POOL_ALLOC_QUANTAS c then MIN_POOL_ALLOC_QUANTAS c else nq.

Lemma carve_quantas_bounds nq :
  1 <= nq -> nq * HSZ c <= POOL_SIZE c ->
  nq <= carve_quantas nq /\ MIN_POOL_ALLOC_QUANTAS c <= carve_quantas nq /\
  carve_quantas nq * HSZ c + POOL_SIZE c < IMOD c.
Proof.
  pose proof (HSZ_ge2 c LAY) as H2.
  pose proof CFG as CFG0.
  destruct CFG0 as (_ & C1 & C2 & C3 & C4 & C5 & C6 & C7 & C8).
  intros Hn Hf. unfold carve_quantas.
  destruct (Z.ltb_spec nq (MIN_POOL_ALLOC_QUANTAS c)); repeat split; lia.
Qed.

Lemma get_mem_from_pool_WF s bl live nq fuel :
  WF s bl live -> 1 <= nq -> nq * HSZ c <= POOL_SIZE c ->
  (length bl < fuel)%nat ->
  let nq' := carve_quantas nq in
  let h := pool c + pool_free_pos s in
  (POOL_SIZE c < pool_free_pos s + nq' * HSZ c /\
   get_mem_from_pool c fuel nq s = Some (0, s)) \/
  (pool_free_pos s + nq' * HSZ c <= POOL_SIZE c /\
   exists s' P bl',
     get_mem_from_pool c fuel nq s = Some (fst P, s') /\
     freep s' = fst P /\ freed bl h nq' P bl' /\
     pool_free_pos s' = pool_free_pos s + nq' * HSZ c /\
     WF s' bl' live /\
     (forall z, covered bl' z <-> covered bl z \/ h <= z < h + nq' * HSZ c) /\
     (forall z, ~ covered bl z -> ~ in_base z -> ~ (h <= z < h + HSZ c) ->
                mem s' z = mem s z)).
Proof.
  pose proof (HSZ_ge2 c LAY) as H2.
  pose proof CFG as CFG0.
  destruct CFG0 as (_ & C1 & C2 & C3 & C4 & C5 & C6 & C7 & C8).
  intros (W1 & W2 & W3 & W4 & W5 & W6 & W7) Hn Hf Hfuel nq' h.
  destruct (carve_quantas_bounds nq Hn Hf) as (Q1 & Q2 & Q3).
  fold nq' in Q1, Q2, Q3.
  unfold get_mem_from_pool. fold (carve_quantas nq). fold nq'.
  rewrite (wrap_small c (nq' * HSZ c)) by nia.
  rewrite (wrap_small c (pool_free_pos s + nq' * HSZ c)) by nia.
  destruct (Z.leb_spec (pool_free_pos s + nq' * HSZ c) (POOL_SIZE c)) as [G | G];
    [right | left; split; [lia | reflexivity]].
  split; [exact G|].
  fold h.
  set (m1 := st_size c (mem s) h nq').
  assert (U : forall z, h <= z < h + nq' * HSZ c -> ~ covered bl z).
  { intros z Hz (x & Hx & Hc).
    destruct (blocks_ok_in _ _ _ _ W3 Hx) as (_ & _ & I3). subst h. lia. }
  assert (FH : far_all c h (sentinel :: bl)).
  { apply (uncovered_far _ bl h nq' W3); subst h; auto; lia. }
  assert (RG1 : ring c m1 (sentinel :: bl)).
  { destruct W2 as (N & L). split; [exact N|].
    apply (lseg_st_size_far c LAY); assumption. }
  assert (SZ : ld_size c m1 h = nq') by (apply (size_st_size c); nia).
  destruct (free_block m1 bl _ (pool c + pool_free_pos s + nq' * HSZ c) h nq'
              (freep s) fuel RG1 W3 ltac:(nia) ltac:(lia) ltac:(subst h; lia)
              ltac:(subst h; lia) ltac:(lia) SZ U W4 Hfuel)
    as (l1 & l2 & pre & P & bl' & E & EP & H1 & H2' & SC & SH & RG & BO & CV).
  assert (IP : In P (sentinel :: bl)).
  { subst bl. rewrite app_comm_cons, EP. apply in_or_app. left.
    apply in_or_app. right. now left. }
  assert (FR : forall z, ~ covered bl z -> ~ in_base z -> ~ (h <= z < h + HSZ c) ->
                         free_link c m1 h (fst P) z = mem s z).
  { intros z N1 N2 N3. rewrite (free_link_out c LAY); [|exact N3|].
    - subst m1. apply (st_size_out c LAY). lia.
    - intros Hz. destruct (node_header_covered _ bl P z W3 IP Hz); tauto. }
  exists (mkState (free_link c m1 h (fst P)) (fst P)
            (pool_free_pos s + nq' * HSZ c)), P, bl'.
  split.
  { unfold memmgr_free. cbn [set_mem mem freep pool_free_pos]. fold m1.
    assert (E0 : (h + HSZ c =? 0) = false) by (apply Z.eqb_neq; subst h; lia).
    rewrite E0. replace (h + HSZ c - HSZ c) with h by lia. rewrite SC.
    cbn [mem freep pool_free_pos].
    rewrite (wrap_small c (pool_free_pos s + nq' * HSZ c)) by nia. reflexivity. }
  split; [reflexivity|]. split; [exists l1, l2, pre; auto|].
  split; [reflexivity|].
  split; [|split; [exact CV | exact FR]].
  unfold WF. cbn [mem freep pool_free_pos].
  split; [nia|]. split; [exact RG|].
  split; [refine (blocks_ok_weaken _ _ _ _ _ _ _ BO); lia|].
  split; [|split; [|split]].
  - rewrite SH. destruct (link_mid_hd P l2 h nq') as (q & t & EQ). rewrite EQ.
    unfold addrs. rewrite !map_app. apply in_or_app. right. apply in_or_app. left.
    now left.
  - intros a k Ha. destruct (W5 a k Ha) as (I1 & I2 & I3 & I4).
    repeat split; try assumption; try nia.
    rewrite <- I1. apply (ld_size_frame c LAY). intros x Hx. apply FR.
    + apply (W6 a k x Ha). nia.
    + unfold in_base. destruct C8; nia.
    + subst h. nia.
  - intros a k z Ha Hz HC. apply CV in HC. destruct HC as [HC | HC].
    + apply (W6 a k z Ha Hz HC).
    + destruct (W5 a k Ha) as (_ & I2 & _ & I4). subst h. lia.
  - exact W7.
Qed.

(** *** The first fit, seen from [freep] and in address order *)

Ltac in_norm := repeat (rewrite in_app_iff || cbn [In app]).

Lemma first_fit_split nq (l : list node) :
  (forall x, In x l -> snd x < nq) \/
  (exists A X B, l = A ++ X :: B /\ (forall x, In x A -> snd x < nq) /\ nq <= snd X).
Proof.
  induction l as [|a l IH].
  - left. intros x [].
  - destruct (Z_lt_le_dec (snd a) nq) as [Hlt | Hge].
    + destruct IH as [IH | (A & X & B & E & HA & HX)].
      * left. intros x [Ex | Hx]; [subst; exact Hlt | auto].
      * right. exists (a :: A), X, B. subst l. repeat split; auto.
        intros x [Ex | Hx]; [subst; exact Hlt | auto].
    + right. exists [], a, l. repeat split; auto. intros x [].
Qed.

Lemma last_in_addrs (B : list node) (d : Z) :
  B <> [] -> exists y, In y B /\ fst y = last (addrs B) d.
Proof.
  intros N. destruct (exists_last N) as (B0 & y & E). subst B.
  exists y. split; [apply in_or_app; right; now left|].
  unfold addrs. rewrite map_app. cbn [map]. symmetry. apply last_app_cons.
Qed.

(** The ring rotated to end at [freep] is [A ++ X :: B], with [X] the
    first node that is big enough; in address order the same node sits
    between [U] and [V]. *)
Lemma first_fit_rot m bl F nq :
  ring c m (sentinel :: bl) -> hfar c (sentinel :: bl) ->
  In F (addrs (sentinel :: bl)) ->
  1 <= nq -> (exists x, In x bl /\ nq <= snd x) ->
  exists A X B b1 V,
    (ring c m (A ++ X :: B) /\ hfar c (A ++ X :: B)) /\
    F = last (addrs B) (fst X) /\
    (forall x, In x A -> snd x < nq) /\ nq <= snd X /\
    (length A <= length bl)%nat /\
    bl = b1 ++ X :: V /\
    (forall x, In x (A ++ X :: B) <-> In x (sentinel :: bl)) /\
    (forall m' Z, ring c m' (A ++ Z ++ B) -> ring c m' (sentinel :: b1 ++ Z ++ V)).
Proof.
  intros RG HH HF Hq (x0 & Hx0 & Hfit).
  unfold addrs in HF. apply in_map_iff in HF. destruct HF as (F' & EF & HF).
  destruct (in_split F' _ HF) as (q1 & q2 & EL).
  destruct (first_fit_split nq q2) as [S2 | (A & X & B2 & E2 & HA & HX)].
  - (* the first fit comes after the wrap *)
    destruct (first_fit_split nq (q1 ++ [F'])) as [S1 | (A1 & X & B1 & E1 & HA & HX)].
    { exfalso. assert (I0 : In x0 (q1 ++ F' :: q2)) by (rewrite <- EL; now right).
      apply in_app_or in I0. destruct I0 as [I0 | [I0 | I0]].
      - specialize (S1 x0 ltac:(apply in_or_app; now left)). lia.
      - subst x0. specialize (S1 F' ltac:(apply in_or_app; right; now left)). lia.
      - specialize (S2 x0 I0). lia. }
    assert (EL' : sentinel :: bl = A1 ++ X :: (B1 ++ q2)).
    { rewrite EL. change (F' :: q2) with ([F'] ++ q2). rewrite app_assoc, E1.
      list_eq. }
    destruct A1 as [|s0 A1'].
    { exfalso. cbn [app] in EL'. injection EL'. intros _ EX. subst X.
      cbn [sentinel snd] in HX. lia. }
    cbn [app] in EL'. injection EL'. intros Ebl Es0. subst s0.
    exists (q2 ++ sentinel :: A1'), X, B1, A1', (B1 ++ q2).
    split; [|split; [|split; [|split; [|split; [|split; [|split]]]]]].
    + rewrite EL in RG, HH.
      assert (RG' : ring c m ((q1 ++ [F']) ++ q2))
        by (refine (eq_ind _ (ring c m) RG _ _); list_eq).
      assert (HH' : hfar c ((q1 ++ [F']) ++ q2))
        by (refine (eq_ind _ (hfar c) HH _ _); list_eq).
      rewrite E1 in RG', HH'. apply hfar_rot in HH'. split.
      * destruct q2 as [|y q2'].
        -- rewrite app_nil_r in RG'. exact RG'.
        -- apply ring_rot in RG'; [|discriminate].
           refine (eq_ind _ (ring c m) RG' _ _). list_eq.
      * refine (eq_ind _ (hfar c) HH' _ _). list_eq.
    + rewrite <- EF.
      destruct (exists_last (l := X :: B1) ltac:(discriminate)) as (l0 & y & Ey).
      assert (y = F').
      { assert (E3 : (sentinel :: A1') ++ l0 ++ [y] = q1 ++ [F']).
        { rewrite E1, <- Ey. reflexivity. }
        rewrite app_assoc in E3. apply app_inj_tail in E3. tauto. }
      subst y.
      rewrite <- (last_cons_default (fst X) (addrs B1) 0).
      change (fst X :: addrs B1) with (addrs (X :: B1)). rewrite Ey.
      unfold addrs. rewrite map_app. cbn [map]. symmetry. apply last_app_cons.
    + intros x Hx. apply in_app_or in Hx. destruct Hx; auto.
    + exact HX.
    + apply (f_equal (@length node)) in EL. rewrite length_app in EL. simpl in EL.
      apply (f_equal (@length node)) in E1. rewrite !length_app in E1. simpl in E1.
      rewrite length_app. simpl. unfold node in *. lia.
    + exact Ebl.
    + intros x. rewrite EL'. in_norm. tauto.
    + intros m' Z RZ.
      assert (RZ' : ring c m' (q2 ++ ((sentinel :: A1') ++ Z ++ B1)))
        by (refine (eq_ind _ (ring c m') RZ _ _); list_eq).
      apply ring_rot in RZ'; [|discriminate].
      refine (eq_ind _ (ring c m') RZ' _ _). list_eq.
  - (* the first fit comes before the wrap *)
    assert (EL' : sentinel :: bl = (q1 ++ F' :: A) ++ X :: B2).
    { rewrite EL, E2. list_eq. }
    destruct q1 as [|s0 q1'].
    + cbn [app] in EL'. injection EL'. intros Ebl Es0.
      exists A, X, (B2 ++ [F']), A, B2. cbn [app] in *. subst F'.
      split; [|split; [|split; [|split; [|split; [|split; [|split]]]]]].
      * rewrite EL, E2 in RG, HH.
        assert (RG' : ring c m ([sentinel] ++ (A ++ X :: B2)))
          by (refine (eq_ind _ (ring c m) RG _ _); list_eq).
        assert (HH' : hfar c ([sentinel] ++ (A ++ X :: B2)))
          by (refine (eq_ind _ (hfar c) HH _ _); list_eq).
        apply ring_rot in RG'; [|destruct A; discriminate].
        apply hfar_rot in HH'. split.
        -- refine (eq_ind _ (ring c m) RG' _ _). list_eq.
        -- refine (eq_ind _ (hfar c) HH' _ _). list_eq.
      * rewrite <- EF. unfold addrs. rewrite map_app. cbn [map].
        symmetry. apply last_app_cons.
      * exact HA.
      * exact HX.
      * rewrite Ebl, length_app. simpl. unfold node in *. lia.
      * exact Ebl.
      * intros x. rewrite EL, E2. in_norm. tauto.
      * intros m' Z RZ.
        assert (RZ' : ring c m' ((A ++ Z ++ B2) ++ [sentinel]))
          by (refine (eq_ind _ (ring c m') RZ _ _); list_eq).
        apply ring_rot in RZ'; [|discriminate]. exact RZ'.
    + cbn [app] in EL'. injection EL'. intros Ebl Es0. subst s0.
      exists A, X, (B2 ++ (sentinel :: q1') ++ [F']), (q1' ++ F' :: A), B2.
      split; [|split; [|split; [|split; [|split; [|split; [|split]]]]]].
      * rewrite EL, E2 in RG, HH.
        assert (RG' : ring c m (((sentinel :: q1') ++ [F']) ++ (A ++ X :: B2)))
          by (refine (eq_ind _ (ring c m) RG _ _); list_eq).
        assert (HH' : hfar c (((sentinel :: q1') ++ [F']) ++ (A ++ X :: B2)))
          by (refine (eq_ind _ (hfar c) HH _ _); list_eq).
        apply ring_rot in RG'; [|destruct A; discriminate].
        apply hfar_rot in HH'. split.
        -- refine (eq_ind _ (ring c m) RG' _ _). list_eq.
        -- refine (eq_ind _ (hfar c) HH' _ _). list_eq.
      * rewrite <- EF. unfold addrs. rewrite app_assoc, map_app. cbn [map].
        symmetry. apply last_app_cons.
      * exact HA.
      * exact HX.
      * rewrite Ebl, !length_app. simpl. rewrite ?length_app. simpl. unfold node in *. lia.
      * rewrite Ebl. list_eq.
      * intros x. rewrite EL, E2. in_norm. tauto.
      * intros m' Z RZ.
        assert (RZ' : ring c m' ((A ++ Z ++ B2) ++ ((sentinel :: q1') ++ [F'])))
          by (refine (eq_ind _ (ring c m') RZ _ _); list_eq).
        apply ring_rot in RZ'; [|discriminate].
        refine (eq_ind _ (ring c m') RZ' _ _). list_eq.
Qed.

(** *** Taking a block from the free list keeps the invariant *)

Lemma took_split_blocks lo hi b1 X V :
  blocks_ok lo hi (b1 ++ X :: V) ->
  (forall y, In y b1 -> fst y + snd y * HSZ c < fst X) /\
  (forall y, In y V -> fst X + snd X * HSZ c < fst y) /\
  lo <= fst X /\ 1 <= snd X /\ fst X + snd X * HSZ c <= hi.
Proof.
  intros BO. split; [|split].
  - intros y Hy. apply (blocks_ok_after lo hi b1 (X :: V) y X BO Hy). now left.
  - intros y Hy.
    assert (BO' : blocks_ok lo hi ((b1 ++ [X]) ++ V))
      by (refine (eq_ind _ (blocks_ok lo hi) BO _ _); list_eq).
    apply (blocks_ok_after lo hi (b1 ++ [X]) V X y BO'); auto.
    apply in_or_app. right. now left.
  - apply (blocks_ok_in lo hi _ X BO). apply in_or_app. right. now left.
Qed.

Lemma alloc_take_WF s bl live nq fuel :
  WF s bl live -> 1 <= nq -> (exists x, In x bl /\ nq <= snd x) ->
  (length bl < fuel)%nat ->
  exists r s' bl',
    alloc_loop c fuel nq (freep s) (ld_next c (mem s) (freep s)) s = Some (r, s') /\
    took bl nq r bl' /\ pool_free_pos s' = pool_free_pos s /\
    WF s' bl' (fun a k => live a k \/ (a = r - HSZ c /\ k = nq)) /\
    (forall k, ~ live (r - HSZ c) k) /\
    (forall z, covered bl z <->
               covered bl' z \/ r - HSZ c <= z < r - HSZ c + nq * HSZ c) /\
    (forall z, ~ covered bl z -> ~ in_base z -> mem s' z = mem s z).
Proof.
  pose proof (HSZ_ge2 c LAY) as H2.
  pose proof CFG as CFG0.
  destruct CFG0 as (_ & C1 & C2 & C3 & C4 & C5 & C6 & C7 & C8).
  intros (W1 & W2 & W3 & W4 & W5 & W6 & W7) Hq FIT Hfuel.
  assert (HH : hfar c (sentinel :: bl)) by (apply (canon_hfar _ bl W3); lia).
  destruct (first_fit_rot (mem s) bl (freep s) nq W2 HH W4 Hq FIT)
    as (A & X & B & b1 & V & (RG & HF) & EF & HA & HX & HL & Ebl & HIN & ROT).
  assert (BO := W3). rewrite Ebl in BO.
  destruct (took_split_blocks _ _ b1 X V BO) as (T1 & T2 & T3 & T4 & T5).
  pose proof (alloc_loop_found c LAY nq s A X B (fuel - length A - 1) RG HF EF HA HX
                ltac:(lia)) as RUN.
  replace (length A + S (fuel - length A - 1))%nat with fuel in RUN by lia.
  rewrite RUN. clear RUN.
  assert (IX : In X (sentinel :: bl)) by (apply HIN; apply in_or_app; right; now left).
  assert (NX : forall y, In y (A ++ B) -> In y (sentinel :: b1 ++ V) /\ far c (fst y) (fst X)).
  { intros y Hy.
    assert (FY : far c (fst y) (fst X)).
    { destruct (hfar_mid c A X B HF) as (FA & FB).
      apply far_sym. apply in_app_or in Hy.
      destruct Hy as [Hy | Hy]; [apply (far_all_in c _ A y FA Hy) | apply (far_all_in c _ B y FB Hy)]. }
    split; [|exact FY].
    assert (IY : In y (sentinel :: bl)).
    { apply HIN. apply in_app_or in Hy. apply in_or_app. destruct Hy; [now left | right; now right]. }
    rewrite Ebl in IY. destruct IY as [IY | IY]; [now left|]. right.
    apply in_app_or in IY. apply in_or_app. destruct IY as [IY | [IY | IY]]; auto.
    subst y. exfalso. apply (far_neq c LAY _ _ FY). reflexivity. }
  assert (FRH : forall y z, In y (sentinel :: bl) -> ~ covered bl z -> ~ in_base z ->
                            ~ (fst y <= z < fst y + HSZ c)).
  { intros y z Hy N1 N2 Hz. destruct (node_header_covered _ bl y z W3 Hy Hz); tauto. }
  assert (SX : ld_size c (mem s) (fst X) = snd X).
  { destruct RG as (_ & L). apply (lseg_size c _ _ _ X L). apply in_or_app. right. now left. }
  assert (CX : forall z, fst X <= z < fst X + snd X * HSZ c -> covered bl z).
  { intros z Hz. exists X. split; [|exact Hz]. rewrite Ebl. apply in_or_app. right. now left. }
  assert (NL : forall k, ~ live (fst X) k).
  { intros k Hk. destruct (W5 _ _ Hk) as (_ & Hk1 & _).
    apply (W6 _ _ (fst X) Hk); [nia|]. apply CX. nia. }
  assert (LX : forall a k, live a k ->
                 a + k * HSZ c <= fst X \/ fst X + snd X * HSZ c <= a).
  { intros a k Ha. destruct (W5 _ _ Ha) as (_ & Hk1 & _).
    rewrite Ebl in W6.
    apply (uncovered_disjoint (b1 ++ X :: V) a k X); auto.
    - intros z Hz. apply (W6 a k z Ha Hz).
    - apply in_or_app. right. now left. }
  assert (BO1 : blocks_ok (pool c) (pool c + pool_free_pos s) b1 /\
                blocks_ok (fst X + snd X * HSZ c + 1) (pool c + pool_free_pos s) V /\
                bend (pool c) b1 <= fst X).
  { apply blocks_ok_app in BO. simpl in BO. tauto. }
  destruct BO1 as (BO1 & BO2 & BO3).
  set (prevp := last (addrs A) (freep s)).
  assert (NE : A ++ B <> []).
  { assert (IS : In sentinel (A ++ X :: B)) by (apply HIN; now left).
    apply in_app_or in IS. destruct IS as [IS | [IS | IS]].
    - destruct A; [destruct IS | discriminate].
    - subst X. cbn [sentinel snd] in HX. lia.
    - destruct B; [destruct IS | destruct A; discriminate]. }
  assert (PV : exists y, In y (A ++ B) /\ fst y = prevp).
  { subst prevp. destruct A as [|a0 A'].
    - cbn [addrs map last app] in *. rewrite EF.
      destruct (last_in_addrs B (fst X) NE) as (y & Hy & Ey). eauto.
    - destruct (last_in_addrs (a0 :: A') (freep s) ltac:(discriminate)) as (y & Hy & Ey).
      exists y. split; [apply in_or_app; now left | exact Ey]. }
  destruct PV as (y & Hy & Ey). destruct (NX y Hy) as (Iy & Fy).
  assert (Iy' : In y (sentinel :: bl)).
  { apply HIN. apply in_app_or in Hy. apply in_or_app. destruct Hy; [now left | right; now right]. }
  unfold take_node. fold prevp.
  destruct (Z.eqb_spec (snd X) nq) as [EQ | NQ].
  - (* the whole node *)
    set (nxt := entry B (entry (A ++ X :: B) 0)).
    assert (FR : forall z, ~ covered bl z -> ~ in_base z ->
                           st_next c (mem s) prevp nxt z = mem s z).
    { intros z N1 N2. apply (st_next_out c LAY). rewrite <- Ey.
      pose proof (FRH y z Iy' N1 N2). lia. }
    exists (fst X + HSZ c), (mkState (st_next c (mem s) prevp nxt) prevp (pool_free_pos s)),
           (b1 ++ V).
    split; [reflexivity|].
    split; [exists b1, X, V; split; [exact Ebl | left; auto]|].
    split; [reflexivity|].
    replace (fst X + HSZ c - HSZ c) with (fst X) by lia.
    split; [|split; [exact NL|split; [|exact FR]]].
    + unfold WF. cbn [mem freep pool_free_pos].
      split; [lia|]. split; [|split; [|split; [|split; [|split]]]].
      * apply (ROT _ []). cbn [app].
        pose proof (take_exact_ring c LAY (mem s) A X B RG HF NE) as TR.
        cbv zeta in TR. rewrite <- EF in TR. exact TR.
      * apply blocks_ok_app. split; [exact BO1|].
        refine (blocks_ok_weaken _ _ _ _ _ _ _ BO2); lia.
      * rewrite <- Ey. apply in_addrs. exact Iy.
      * intros a k [Ha | (Ea & Ek)].
        -- destruct (W5 a k Ha) as (I1 & I2 & I3 & I4). repeat split; try assumption.
           rewrite <- I1. apply (ld_size_frame c LAY). intros x Hx. apply FR.
           ++ apply (W6 a k x Ha). nia.
           ++ unfold in_base. destruct C8; nia.
        -- subst a k. repeat split; try lia.
           rewrite (size_st_next_far c LAY); [lia|]. rewrite <- Ey. exact Fy.
      * intros a k z [Ha | (Ea & Ek)] Hz HC.
        -- apply (W6 a k z Ha Hz). rewrite Ebl. apply covered_app in HC.
           apply covered_app. rewrite covered_cons. tauto.
        -- subst a k. destruct HC as (w & Hw & Hc). apply in_app_or in Hw.
           destruct Hw as [Hw | Hw]; [specialize (T1 w Hw) | specialize (T2 w Hw)]; lia.
      * intros a k a' k' [Ha | (Ea & Ek)] [Ha' | (Ea' & Ek')] Hne.
        -- apply W7; assumption.
        -- subst a' k'. destruct (LX a k Ha); [left; lia | right; lia].
        -- subst a k. destruct (LX a' k' Ha'); [right; lia | left; lia].
        -- exfalso. apply Hne. lia.
    + intros z. rewrite Ebl, !covered_app, covered_cons. rewrite EQ. tauto.
  - (* the tail of the node *)
    set (p' := fst X + (snd X - nq) * HSZ c).
    set (m2 := st_size c (st_size c (mem s) (fst X) (snd X - nq)) p' nq).
    assert (P1 : fst X + HSZ c <= p' /\ p' + nq * HSZ c = fst X + snd X * HSZ c)
      by (subst p'; nia).
    destruct P1 as (P1 & P2).
    assert (FP : far_all c p' (A ++ X :: B)).
    { apply Forall_forall. intros w Hw. apply HIN in Hw. rewrite Ebl in Hw.
      destruct Hw as [Hw | Hw].
      - subst w. cbn [sentinel fst]. red. destruct C8; [right; lia | left; nia].
      - apply in_app_or in Hw. destruct Hw as [Hw | [Hw | Hw]].
        + specialize (T1 w Hw).
          destruct (blocks_ok_in _ _ _ w BO ltac:(apply in_or_app; now left)) as (_ & I2 & _).
          right. nia.
        + subst w. right. lia.
        + specialize (T2 w Hw). left. nia. }
    destruct (take_split_ring c LAY (mem s) A X B nq RG HF ltac:(lia) FP) as (RG2 & SZ2).
    fold p' in RG2, SZ2. fold m2 in RG2, SZ2.
    assert (FR : forall z, ~ covered bl z -> ~ in_base z -> m2 z = mem s z).
    { intros z N1 N2. subst m2.
      assert (~ (fst X <= z < fst X + snd X * HSZ c)) by (intros Hz; apply N1, CX, Hz).
      rewrite !(st_size_out c LAY) by nia. reflexivity. }
    exists (p' + HSZ c), (mkState m2 prevp (pool_free_pos s)),
           (b1 ++ (fst X, snd X - nq) :: V).
    split; [reflexivity|].
    split; [exists b1, X, V; split; [exact Ebl | right; repeat split; auto; lia]|].
    split; [reflexivity|].
    replace (p' + HSZ c - HSZ c) with p' by lia.
    split; [|split; [|split; [|exact FR]]].
    + unfold WF. cbn [mem freep pool_free_pos].
      split; [lia|]. split; [|split; [|split; [|split; [|split]]]].
      * apply (ROT _ [(fst X, snd X - nq)]). exact RG2.
      * apply blocks_ok_app. split; [exact BO1|]. simpl. repeat split; try nia.
        refine (blocks_ok_weaken _ _ _ _ _ _ _ BO2); nia.
      * rewrite <- Ey. apply in_addrs. destruct Iy as [Iy | Iy]; [now left | right].
        apply in_app_or in Iy. apply in_or_app. destruct Iy; [now left | right; now right].
      * intros a k [Ha | (Ea & Ek)].
        -- destruct (W5 a k Ha) as (I1 & I2 & I3 & I4). repeat split; try assumption.
           rewrite <- I1. apply (ld_size_frame c LAY). intros x Hx. apply FR.
           ++ apply (W6 a k x Ha). nia.
           ++ unfold in_base. destruct C8; nia.
        -- subst a k. repeat split; nia.
      * intros a k z [Ha | (Ea & Ek)] Hz HC.
        -- apply (W6 a k z Ha Hz). rewrite Ebl. apply covered_app in HC.
           apply covered_app. rewrite covered_cons in *. cbn [fst snd] in HC.
           destruct HC as [HC | [HC | HC]]; auto. right. left. nia.
        -- subst a k. apply covered_app in HC. rewrite covered_cons in HC.
           cbn [fst snd] in HC. destruct HC as [(w & Hw & Hc) | [HC | (w & Hw & Hc)]].
           ++ specialize (T1 w Hw). nia.
           ++ nia.
           ++ specialize (T2 w Hw). nia.
      * intros a k a' k' [Ha | (Ea & Ek)] [Ha' | (Ea' & Ek')] Hne.
        -- apply W7; assumption.
        -- subst a' k'. destruct (LX a k Ha); [left; lia | right; lia].
        -- subst a k. destruct (LX a' k' Ha'); [right; lia | left; lia].
        -- exfalso. apply Hne. lia.
    + intros k Hk. destruct (W5 _ _ Hk) as (_ & Hk1 & _).
      apply (W6 _ _ p' Hk); [nia|]. apply CX. nia.
    + intros z. rewrite Ebl, !covered_app, !covered_cons. cbn [fst snd].
      destruct (Z_lt_le_dec z p');
        (split; intros HC; repeat (destruct HC as [HC | HC])); cov_leaf.
Qed.

(** *** When nothing fits: the carve, and the block it brings *)

Lemma blocks_sep lo hi bl x y :
  blocks_ok lo hi bl -> In x bl -> In y bl -> x <> y ->
  fst x + snd x * HSZ c < fst y \/ fst y + snd y * HSZ c < fst x.
Proof.
  intros BO Hx Hy Hne. destruct (in_split x bl Hx) as (l1 & l2 & E). subst bl.
  destruct (took_split_blocks lo hi l1 x l2 BO) as (T1 & T2 & _).
  apply in_app_or in Hy. destruct Hy as [Hy | [Hy | Hy]].
  - right. apply T1. exact Hy.
  - congruence.
  - left. apply T2. exact Hy.
Qed.

Lemma covered_fit lo hi bl h n :
  blocks_ok lo hi bl -> 1 <= n ->
  (forall z, h <= z < h + n * HSZ c -> covered bl z) ->
  exists x, In x bl /\ n <= snd x.
Proof.
  pose proof (HSZ_ge2 c LAY) as H2. intros BO Hn CV.
  destruct (CV h ltac:(nia)) as (x & Hx & Hc).
  exists x. split; [exact Hx|].
  destruct (Z_le_gt_dec (h + n * HSZ c) (fst x + snd x * HSZ c)) as [Hle | Hgt]; [nia|].
  exfalso. destruct (CV (fst x + snd x * HSZ c) ltac:(lia)) as (y & Hy & Hd).
  assert (Hne : x <> y) by (intros E; subst y; lia).
  destruct (blocks_ok_in _ _ _ _ BO Hy) as (_ & I2 & _).
  destruct (blocks_sep lo hi bl x y BO Hx Hy Hne); nia.
Qed.

Lemma freed_length bl b n P bl' :
  freed bl b n P bl' -> (length bl' <= S (length bl))%nat.
Proof.
  intros (l1 & l2 & pre & E & EP & _ & _ & SH).
  apply (f_equal (@length node)) in SH. apply (f_equal (@length node)) in EP.
  rewrite !length_app in SH. rewrite length_app in EP. cbn [length] in *.
  subst bl. rewrite length_app.
  assert (length (fst (link_mid P l2 b n)) + length (snd (link_mid P l2 b n))
          <= 2 + length l2)%nat.
  { unfold link_mid. destruct l2 as [|Y l2']; repeat match goal with
    | |- context [if ?b then _ else _] => destruct b
    end; cbn [fst snd length]; lia. }
  unfold node in *. lia.
Qed.

Lemma WF_freep_pos s bl live : WF s bl live -> 0 < freep s.
Proof.
  pose proof CFG as CFG0.
  destruct CFG0 as (_ & C1 & C2 & C3 & C4 & C5 & C6 & C7 & C8).
  intros (W1 & W2 & W3 & W4 & _). unfold addrs in W4. apply in_map_iff in W4.
  destruct W4 as (x & Ex & [Hx | Hx]).
  - subst x. cbn [sentinel fst] in Ex. lia.
  - destruct (blocks_ok_in _ _ _ _ W3 Hx). lia.
Qed.

Lemma alloc_none_WF s bl live nq f :
  WF s bl live -> 1 <= nq -> (forall x, In x bl -> snd x < nq) ->
  alloc_loop c (length bl + S f) nq (freep s) (ld_next c (mem s) (freep s)) s =
  match get_mem_from_pool c f nq s with
  | None => None
  | Some (p', s') =>
      if p' =? 0 then Some (0, s')
      else alloc_loop c f nq p' (ld_next c (mem s') p') s'
  end.
Proof.
  intros (W1 & W2 & W3 & W4 & _) Hq SM.
  assert (HH : hfar c (sentinel :: bl)) by (apply (canon_hfar _ bl W3); lia).
  unfold addrs in W4. apply in_map_iff in W4. destruct W4 as (F' & EF & HF).
  destruct (in_split F' _ HF) as (q1 & q2 & EL).
  assert (RG : ring c (mem s) ((q2 ++ q1) ++ [F']) /\ hfar c ((q2 ++ q1) ++ [F'])).
  { rewrite EL in W2, HH.
    assert (RG' : ring c (mem s) ((q1 ++ [F']) ++ q2))
      by (refine (eq_ind _ (ring c (mem s)) W2 _ _); list_eq).
    assert (HH' : hfar c ((q1 ++ [F']) ++ q2))
      by (refine (eq_ind _ (hfar c) HH _ _); list_eq).
    apply hfar_rot in HH'. split.
    - destruct q2 as [|y q2'].
      + rewrite app_nil_r in RG'. exact RG'.
      + apply ring_rot in RG'; [|discriminate].
        refine (eq_ind _ (ring c (mem s)) RG' _ _). list_eq.
    - refine (eq_ind _ (hfar c) HH' _ _). list_eq. }
  destruct RG as (RG & HF').
  assert (EL' : length bl = length (q2 ++ q1)).
  { apply (f_equal (@length node)) in EL. rewrite length_app in EL. cbn [length] in EL.
    rewrite length_app. unfold node in *. lia. }
  rewrite EL'.
  apply (alloc_loop_none c LAY nq s (q2 ++ q1) F' f RG HF' (eq_sym EF)).
  intros x Hx.
  assert (IX : In x (sentinel :: bl)).
  { rewrite EL. revert Hx. in_norm. tauto. }
  destruct IX as [IX | IX]; [subst x; cbn [sentinel snd]; lia | auto].
Qed.

(** *** What a call of [memmgr_alloc] does to a state of the invariant *)

(* how the free list gets a block that fits: it has one, or the pool is carved *)
Definition stage (s s' : state) (bl bl1 : list node) (nq : Z) : Prop :=
  (bl1 = bl /\ pool_free_pos s' = pool_free_pos s /\
   exists x, In x bl /\ nq <= snd x) \/
  ((forall x, In x bl -> snd x < nq) /\
   pool_free_pos s' = pool_free_pos s + carve_quantas nq * HSZ c /\
   pool_free_pos s' <= POOL_SIZE c /\
   exists P, freed bl (pool c + pool_free_pos s) (carve_quantas nq) P bl1).

Definition alloc_ok (s : state) (bl : list node) (live : Z -> Z -> Prop)
    (nq r : Z) (s' : state) : Prop :=
  exists bl1 bl',
    stage s s' bl bl1 nq /\ took bl1 nq r bl' /\
    WF s' bl' (fun a k => live a k \/ (a = r - HSZ c /\ k = nq)) /\
    (forall k, ~ live (r - HSZ c) k) /\
    (forall z, ~ covered bl z -> ~ in_base z ->
               ~ (pool c + pool_free_pos s <= z < pool c + pool_free_pos s') ->
               mem s' z = mem s z).

Definition alloc_fail (s : state) (bl : list node) (nq r : Z) (s' : state) : Prop :=
  r = 0 /\ s' = s /\ (forall x, In x bl -> snd x < nq) /\
  POOL_SIZE c < pool_free_pos s + carve_quantas nq * HSZ c.

Lemma alloc_loop_WF s bl live nq fuel :
  WF s bl live -> 1 <= nq -> nq * HSZ c <= POOL_SIZE c ->
  (2 * length bl + 3 <= fuel)%nat ->
  exists r s',
    alloc_loop c fuel nq (freep s) (ld_next c (mem s) (freep s)) s = Some (r, s') /\
    (alloc_fail s bl nq r s' \/ alloc_ok s bl live nq r s').
Proof.
  pose proof (HSZ_ge2 c LAY) as H2.
  intros W Hq Hf Hfuel.
  destruct (first_fit_split nq bl) as [SM | (A & X & B & E & HA & HX)].
  - (* nothing fits *)
    replace fuel with (length bl + S (fuel - length bl - 1))%nat by lia.
    rewrite (alloc_none_WF s bl live nq _ W Hq SM).
    destruct (get_mem_from_pool_WF s bl live nq (fuel - length bl - 1) W Hq Hf
                ltac:(lia)) as [(G & EG) | (G & s3 & P & bl3 & EG & EP & FD & EPF & W3 & CV & FR)];
      cbv zeta in *.
    + rewrite EG. cbn [Z.eqb]. exists 0, s. split; [reflexivity|].
      left. repeat split; auto.
    + rewrite EG. pose proof (WF_freep_pos s3 bl3 live W3) as FP. rewrite EP in FP.
      assert (E0 : (fst P =? 0) = false) by (apply Z.eqb_neq; lia).
      rewrite E0. rewrite <- EP.
      destruct (carve_quantas_bounds nq Hq Hf) as (Q1 & Q2 & Q3).
      assert (FIT : exists x, In x bl3 /\ nq <= snd x).
      { destruct W3 as (_ & _ & BO3 & _).
        destruct (covered_fit _ _ bl3 (pool c + pool_free_pos s) (carve_quantas nq) BO3
                    ltac:(lia)) as (x & Hx & Hs).
        - intros z Hz. apply CV. now right.
        - exists x. split; [exact Hx | lia]. }
      pose proof (freed_length _ _ _ _ _ FD) as FL.
      destruct (alloc_take_WF s3 bl3 live nq (fuel - length bl - 1) W3 Hq FIT ltac:(lia))
        as (r & s' & bl' & RUN & TK & EPF' & W' & NL & CV' & FR').
      exists r, s'. split; [exact RUN|]. right.
      exists bl3, bl'. split; [|split; [exact TK|split; [exact W'|split; [exact NL|]]]].
      * right. split; [exact SM|]. split; [lia|]. split; [lia|]. exists P. exact FD.
      * intros z N1 N2 N3. rewrite FR'; [apply FR| |]; auto.
        -- rewrite EPF', EPF in N3. nia.
        -- rewrite EPF', EPF in N3. intros HC. apply CV in HC. destruct HC; [tauto | lia].
  - (* a free block fits *)
    assert (FIT : exists x, In x bl /\ nq <= snd x).
    { exists X. split; [subst bl; apply in_or_app; right; now left | exact HX]. }
    destruct (alloc_take_WF s bl live nq fuel W Hq FIT ltac:(lia))
      as (r & s' & bl' & RUN & TK & EPF' & W' & NL & CV' & FR').
    exists r, s'. split; [exact RUN|]. right.
    exists bl, bl'. split; [|split; [exact TK|split; [exact W'|split; [exact NL|]]]].
    + left. auto.
    + intros z N1 N2 _. apply FR'; auto.
Qed.

(** *** Quantization of a request *)

Lemma quantas_bounds nbytes :
  1 <= quantas c nbytes /\ 2 * quantas c nbytes <= IMOD c + 1.
Proof.
  pose proof (HSZ_ge2 c LAY) as H2. pose proof (IMOD_pos c LAY) as HI.
  unfold quantas.
  set (x := wrap c (nbytes + HSZ c - 1)).
  assert (Hx : 0 <= x < IMOD c) by (apply Z.mod_pos_bound; lia).
  assert (Hd : 0 <= x / HSZ c /\ 2 * (x / HSZ c) <= IMOD c - 1).
  { split; [apply Z.div_pos; lia|].
    assert (x / HSZ c <= x / 2) by (apply Z.div_le_compat_l; lia).
    pose proof (Z.mul_div_le x 2 ltac:(lia)). lia. }
  rewrite (wrap_small c) by lia. lia.
Qed.

Lemma quantas_exact nbytes :
  0 <= nbytes -> nbytes + HSZ c - 1 < IMOD c ->
  quantas c nbytes = (nbytes + HSZ c - 1) / HSZ c + 1.
Proof.
  pose proof (HSZ_ge2 c LAY) as H2. intros H0 H1.
  destruct (quantas_bounds nbytes) as (Q1 & Q2). unfold quantas in *.
  rewrite (wrap_small c (nbytes + HSZ c - 1)) in * by lia.
  apply (wrap_small c).
  pose proof (Z.div_pos (nbytes + HSZ c - 1) (HSZ c) ltac:(lia) ltac:(lia)).
  assert ((nbytes + HSZ c - 1) / HSZ c <= (nbytes + HSZ c - 1) / 2)
    by (apply Z.div_le_compat_l; lia).
  pose proof (Z.mul_div_le (nbytes + HSZ c - 1) 2 ltac:(lia)). lia.
Qed.

(** *** The first call after [memmgr_init] *)

(* what memmgr_alloc does to the sentinel when [freep] is null *)
Definition bootstrap (s : state) : state :=
  mkState (st_size c (st_next c (mem s) (base c) (base c)) (base c) 0)
          (base c) (pool_free_pos s).

Lemma memmgr_alloc_unfold fuel nbytes s :
  memmgr_alloc c fuel nbytes s =
  let s1 := if freep s =? 0 then bootstrap s else s in
  alloc_loop c fuel (quantas c nbytes) (freep s1) (ld_next c (mem s1) (freep s1)) s1.
Proof. unfold memmgr_alloc, bootstrap. destruct (freep s =? 0); reflexivity. Qed.

Lemma bootstrap_WF s (live : Z -> Z -> Prop) :
  pool_free_pos s = 0 -> (forall a n, ~ live a n) -> WF (bootstrap s) [] live.
Proof.
  pose proof (HSZ_ge2 c LAY) as H2. pose proof (IMOD_pos c LAY) as HI.
  pose proof CFG as CFG0.
  destruct CFG0 as (_ & C1 & C2 & C3 & C4 & C5 & C6 & C7 & C8).
  intros E0 NL. unfold WF, bootstrap. cbn [mem freep pool_free_pos].
  split; [lia|]. split; [|split; [exact I|split; [now left|split; [|split]]]].
  - split; [discriminate|]. simpl. cbn [sentinel fst snd].
    rewrite (size_st_size c) by lia.
    rewrite (next_st_size c LAY), (next_st_next c) by lia. auto.
  - intros a n Ha. destruct (NL a n Ha).
  - intros a n z Ha. destruct (NL a n Ha).
  - intros a n a' n' Ha. destruct (NL a n Ha).
Qed.

Lemma bootstrap_frame s z : ~ in_base z -> mem (bootstrap s) z = mem s z.
Proof.
  unfold in_base, bootstrap. cbn [mem]. intros N.
  rewrite (st_size_out c LAY), (st_next_out c LAY) by lia. reflexivity.
Qed.

(** The invariant between public calls: either nothing was allocated since
    [memmgr_init], or the free list is a ring in address order. *)
Definition Inv (s : state) (bl : list node) (live : Z -> Z -> Prop) : Prop :=
  (freep s = 0 /\ pool_free_pos s = 0 /\ bl = [] /\ forall a n, ~ live a n) \/
  WF s bl live.

Lemma memmgr_init_Inv s : Inv (memmgr_init c s) [] (fun _ _ => False).
Proof. left. unfold memmgr_init. cbn. auto. Qed.

(** *** Every call of [memmgr_alloc] returns, whatever the request *)

Lemma get_mem_from_pool_total s bl live nq fuel :
  WF s bl live -> 1 <= nq -> 2 * nq <= IMOD c + 1 -> (length bl < fuel)%nat ->
  get_mem_from_pool c fuel nq s = Some (0, s) \/
  exists s' R,
    get_mem_from_pool c fuel nq s = Some (freep s', s') /\ 0 < freep s' /\
    ring c (mem s') R /\ hfar c R /\ In (freep s') (addrs R) /\
    (forall x, In x R -> 0 <= fst x) /\ (exists x, In x R /\ nq <= snd x) /\
    (length R <= length bl + 2)%nat.
Proof.
  pose proof (HSZ_ge2 c LAY) as H2.
  pose proof CFG as CFG0.
  destruct CFG0 as (_ & C1 & C2 & C3 & C4 & C5 & C6 & C7 & C8).
  intros (W1 & W2 & W3 & W4 & W5 & W6 & W7) Hq Hq2 Hfuel.
  unfold get_mem_from_pool. fold (carve_quantas nq).
  set (nq' := carve_quantas nq).
  assert (Q : nq <= nq' /\ nq' + POOL_SIZE c < IMOD c).
  { subst nq'. unfold carve_quantas.
    destruct (Z.ltb_spec nq (MIN_POOL_ALLOC_QUANTAS c)); split; nia. }
  destruct Q as (Q1 & Q2).
  destruct (wrap c (pool_free_pos s + wrap c (nq' * HSZ c)) <=? POOL_SIZE c);
    [right | now left].
  set (h := pool c + pool_free_pos s).
  set (m1 := st_size c (mem s) h nq').
  assert (Hhi : pool c + pool_free_pos s <= pool c + POOL_SIZE c) by lia.
  assert (FH : far_all c h (sentinel :: bl)).
  { apply Forall_cons.
    - cbn [sentinel fst]. red. subst h. destruct C8; [right; lia | left; lia].
    - apply Forall_forall. intros x Hx.
      destruct (blocks_ok_in _ _ _ _ W3 Hx) as (I1 & I2 & I3). right. subst h. nia. }
  assert (RG1 : ring c m1 (sentinel :: bl)).
  { destruct W2 as (N & L). split; [exact N|].
    apply (lseg_st_size_far c LAY); assumption. }
  assert (SZ : ld_size c m1 h = nq') by (apply (size_st_size c); lia).
  assert (Pb : in_pool h) by (red; subst h; lia).
  destruct (scan_canon m1 bl _ h (freep s) fuel RG1 W3 Hhi FH Pb W4 Hfuel)
    as (l1 & l2 & pre & P & E & EP & H1 & H2' & SC).
  assert (EL : sentinel :: bl = pre ++ P :: l2).
  { subst bl. rewrite app_comm_cons, EP, <- app_assoc. reflexivity. }
  assert (RG2 : ring c m1 ((l2 ++ pre) ++ [P])).
  { rewrite EL in RG1.
    assert (RG' : ring c m1 ((pre ++ [P]) ++ l2))
      by (refine (eq_ind _ (ring c m1) RG1 _ _); list_eq).
    destruct l2 as [|Y l2'].
    - rewrite app_nil_r in RG'. exact RG'.
    - apply ring_rot in RG'; [|discriminate].
      refine (eq_ind _ (ring c m1) RG' _ _). list_eq. }
  assert (HF1 : hfar c ((l2 ++ pre) ++ [P])).
  { pose proof (canon_hfar _ bl W3 Hhi) as HH. rewrite EL in HH.
    assert (HH' : hfar c ((pre ++ [P]) ++ l2))
      by (refine (eq_ind _ (hfar c) HH _ _); list_eq).
    apply hfar_rot in HH'. refine (eq_ind _ (hfar c) HH' _ _). list_eq. }
  assert (INL : forall x, In x ((l2 ++ pre) ++ [P]) -> In x (sentinel :: bl)).
  { intros x. rewrite EL. in_norm. tauto. }
  assert (FB1 : far_all c h ((l2 ++ pre) ++ [P])).
  { apply Forall_forall. intros x Hx. apply (far_all_in c h _ x FH). auto. }
  assert (W : forall x y, In x ((l2 ++ pre) ++ [P]) -> In y ((l2 ++ pre) ++ [P]) ->
                          snd x + snd y + nq' < IMOD c).
  { intros x y Hx Hy.
    destruct (canon_sizes _ bl x W3 Hhi (INL x Hx)).
    destruct (canon_sizes _ bl y W3 Hhi (INL y Hy)). lia. }
  pose proof (free_link_ring c LAY m1 (l2 ++ pre) P h nq' RG2 HF1 FB1
                ltac:(subst h; lia) SZ W) as RG3.
  destruct (link_result_props c (l2 ++ pre) P h nq' HF1 FB1) as (K1 & K2 & K3 & K4 & K5).
  { intros x Hx. apply (canon_sizes _ bl x W3 Hhi (INL x Hx)). }
  { lia. }
  assert (PP : forall x, In x (sentinel :: bl) -> 0 < fst x).
  { intros x [Ex | Hx]; [subst x; cbn [sentinel fst]; lia|].
    destruct (blocks_ok_in _ _ _ _ W3 Hx). lia. }
  exists (mkState (free_link c m1 h (fst P)) (fst P)
            (wrap c (pool_free_pos s + wrap c (nq' * HSZ c)))),
         (link_result c (l2 ++ pre) P h nq').
  cbn [mem freep pool_free_pos].
  split.
  { unfold memmgr_free. cbn [set_mem mem freep pool_free_pos]. fold h. fold m1.
    assert (E0 : (h + HSZ c =? 0) = false) by (apply Z.eqb_neq; subst h; lia).
    rewrite E0. replace (h + HSZ c - HSZ c) with h by lia. rewrite SC. reflexivity. }
  split; [apply PP; apply INL; apply in_or_app; right; now left|].
  split; [exact RG3|]. split; [exact K1|]. split; [exact K2|].
  split; [|split].
  - intros x Hx. destruct (K5 x Hx) as [Ha | Ha]; [|subst h; lia].
    unfold addrs in Ha. apply in_map_iff in Ha. destruct Ha as (y & Ey & Hy).
    rewrite <- Ey. pose proof (PP y (INL y Hy)). lia.
  - destruct K3 as (x & Hx & Hs). exists x. split; [exact Hx | lia].
  - assert (LL : length ((l2 ++ pre) ++ [P]) = S (length bl)).
    { apply (f_equal (@length node)) in EL. cbn [length] in EL.
      rewrite !length_app in *. cbn [length] in *. unfold node in *. lia. }
    unfold node in *. lia.
Qed.

Lemma alloc_loop_total s bl live nq fuel :
  WF s bl live -> 1 <= nq -> 2 * nq <= IMOD c + 1 ->
  (2 * length bl + 4 <= fuel)%nat ->
  exists r s',
    alloc_loop c fuel nq (freep s) (ld_next c (mem s) (freep s)) s = Some (r, s') /\
    (r = 0 -> s' = s).
Proof.
  pose proof CFG as CFG0.
  destruct CFG0 as (_ & C1 & C2 & C3 & C4 & C5 & C6 & C7 & C8).
  intros W Hq Hq2 Hfuel.
  destruct (first_fit_split nq bl) as [SM | (A & X & B & E & HA & HX)].
  - replace fuel with (length bl + S (fuel - length bl - 1))%nat by lia.
    rewrite (alloc_none_WF s bl live nq _ W Hq SM).
    destruct (get_mem_from_pool_total s bl live nq (fuel - length bl - 1) W Hq Hq2
                ltac:(lia))
      as [EG | (s3 & R & EG & FP & RG & HF & IF & POS & FIT & LEN)].
    + rewrite EG. cbn [Z.eqb]. exists 0, s. auto.
    + rewrite EG. assert (E0 : (freep s3 =? 0) = false) by (apply Z.eqb_neq; lia).
      rewrite E0.
      destruct (alloc_ring_found c LAY s3 R nq (fuel - length bl - 1) RG HF IF POS Hq FIT
                  ltac:(lia)) as (r & s' & RUN & NZ).
      exists r, s'. split; [exact RUN | tauto].
  - destruct W as (W1 & W2 & W3 & W4 & _).
    assert (HH : hfar c (sentinel :: bl)) by (apply (canon_hfar _ bl W3); lia).
    destruct (alloc_ring_found c LAY s (sentinel :: bl) nq fuel W2 HH W4) as (r & s' & RUN & NZ).
    + intros x [Ex | Hx]; [subst x; cbn [sentinel fst]; lia|].
      destruct (blocks_ok_in _ _ _ _ W3 Hx). lia.
    + exact Hq.
    + exists X. split; [right; subst bl; apply in_or_app; right; now left | exact HX].
    + cbn [length]. lia.
    + exists r, s'. split; [exact RUN | tauto].
Qed.

(** *** Requests that fit the pool *)

(* the request, rounded up to quantas and with its header, is no larger
   than the pool *)
Definition request_ok (nbytes : Z) : Prop :=
  0 <= nbytes /\ ((nbytes + HSZ c - 1) / HSZ c + 1) * HSZ c <= POOL_SIZE c.

Lemma request_ok_quantas nbytes :
  request_ok nbytes ->
  quantas c nbytes = (nbytes + HSZ c - 1) / HSZ c + 1 /\
  1 <= quantas c nbytes /\ quantas c nbytes * HSZ c <= POOL_SIZE c /\
  nbytes <= (quantas c nbytes - 1) * HSZ c /\ nbytes < IMOD c.
Proof.
  pose proof (HSZ_ge2 c LAY) as H2.
  pose proof CFG as CFG0.
  destruct CFG0 as (_ & C1 & C2 & C3 & C4 & C5 & C6 & C7 & C8).
  intros (R0 & R1).
  pose proof (Z.div_mod (nbytes + HSZ c - 1) (HSZ c) ltac:(lia)) as DM.
  pose proof (Z.mod_pos_bound (nbytes + HSZ c - 1) (HSZ c) ltac:(lia)) as MB.
  assert (E : quantas c nbytes = (nbytes + HSZ c - 1) / HSZ c + 1)
    by (apply quantas_exact; nia).
  destruct (quantas_bounds nbytes) as (Q1 & Q2).
  rewrite E in *. repeat split; try nia.
Qed.

(** *** Writes into the payload of live blocks keep the invariant *)

Definition in_payload (live : Z -> Z -> Prop) (z : Z) : Prop :=
  exists b k, live b k /\ b + HSZ c <= z < b + k * HSZ c.

Lemma WF_write s bl live m' :
  WF s bl live ->
  (forall z, m' z <> mem s z -> in_payload live z) ->
  WF (set_mem s m') bl live.
Proof.
  pose proof (HSZ_ge2 c LAY) as H2.
  pose proof CFG as CFG0.
  destruct CFG0 as (_ & C1 & C2 & C3 & C4 & C5 & C6 & C7 & C8).
  intros (W1 & W2 & W3 & W4 & W5 & W6 & W7) FR.
  assert (SAME : forall z, (in_base z \/ covered bl z) -> m' z = mem s z).
  { intros z Hz. destruct (Z.eq_dec (m' z) (mem s z)) as [E | N]; [exact E|].
    exfalso. destruct (FR z N) as (b & k & Hl & Hp).
    destruct (W5 b k Hl) as (_ & K1 & K2 & K3).
    destruct Hz as [Hz | Hz].
    - unfold in_base in Hz. destruct C8; nia.
    - apply (W6 b k z Hl); [nia | exact Hz]. }
  unfold WF. cbn [set_mem mem freep pool_free_pos].
  split; [exact W1|]. split; [|split; [exact W3|split; [exact W4|split; [|split; [exact W6 | exact W7]]]]].
  - destruct W2 as (N & L). split; [exact N|].
    apply (lseg_frame c (mem s) m'); [|exact L].
    intros x Hx.
    assert (HX : forall z, fst x <= z < fst x + HSZ c -> m' z = mem s z).
    { intros z Hz. apply SAME. apply (node_header_covered _ bl x z W3 Hx Hz). }
    split; [apply (ld_size_frame c LAY) | apply (ld_next_frame c LAY)]; exact HX.
  - intros a n Ha. destruct (W5 a n Ha) as (I1 & I2 & I3 & I4).
    repeat split; try assumption. rewrite <- I1.
    apply (ld_size_frame c LAY). intros z Hz.
    destruct (Z.eq_dec (m' z) (mem s z)) as [E | N]; [exact E|].
    exfalso. destruct (FR z N) as (b & k & Hl & Hp).
    destruct (Z.eq_dec a b) as [Eab | Nab]; [subst b; lia|].
    destruct (W5 b k Hl) as (_ & K1 & K2 & K3).
    destruct (W7 a n b k Ha Hl Nab); nia.
Qed.

Definition live_add (live : Z -> Z -> Prop) (a k : Z) : Z -> Z -> Prop :=
  fun a' k' => live a' k' \/ (a' = a /\ k' = k).

Definition live_del (live : Z -> Z -> Prop) (a : Z) : Z -> Z -> Prop :=
  fun a' k' => live a' k' /\ a' <> a.

Lemma WF_weaken s bl (live live' : Z -> Z -> Prop) :
  (forall a k, live' a k -> live a k) -> WF s bl live -> WF s bl live'.
Proof.
  intros SUB (W1 & W2 & W3 & W4 & W5 & W6 & W7).
  unfold WF.
  split; [exact W1|]. split; [exact W2|]. split; [exact W3|]. split; [exact W4|].
  split; [|split].
  - intros a n Ha. apply (W5 a n). auto.
  - intros a n z Ha. apply (W6 a n z). auto.
  - intros a n a' n' Ha Ha'. apply W7; auto.
Qed.

(** *** [memmgr_alloc] on a state of the invariant *)

(* the state the search of memmgr_alloc starts from *)
Definition started (s : state) : state :=
  if freep s =? 0 then bootstrap s else s.

Lemma started_WF s bl live : Inv s bl live -> WF (started s) bl live.
Proof.
  unfold started. intros [(E1 & E2 & E3 & E4) | W].
  - rewrite E1. cbn [Z.eqb]. subst bl. apply bootstrap_WF; assumption.
  - pose proof (WF_freep_pos s bl live W) as FP.
    assert (E0 : (freep s =? 0) = false) by (apply Z.eqb_neq; lia).
    rewrite E0. exact W.
Qed.

Lemma started_frame s z : ~ in_base z -> mem (started s) z = mem s z.
Proof.
  unfold started. destruct (freep s =? 0); [apply bootstrap_frame | reflexivity].
Qed.

Lemma started_pfp s : pool_free_pos (started s) = pool_free_pos s.
Proof. unfold started. destruct (freep s =? 0); reflexivity. Qed.

Lemma memmgr_alloc_spec s bl live nbytes fuel :
  Inv s bl live -> quantas c nbytes * HSZ c <= POOL_SIZE c ->
  (2 * length bl + 3 <= fuel)%nat ->
  exists r s',
    memmgr_alloc c fuel nbytes s = Some (r, s') /\
    (alloc_fail (started s) bl (quantas c nbytes) r s' \/
     alloc_ok (started s) bl live (quantas c nbytes) r s').
Proof.
  intros I Hf Hfuel. rewrite memmgr_alloc_unfold. cbv zeta. fold (started s).
  destruct (quantas_bounds nbytes) as (Q1 & _).
  apply alloc_loop_WF; auto. apply started_WF. exact I.
Qed.

Lemma memmgr_alloc_total s bl live nbytes fuel :
  Inv s bl live -> (2 * length bl + 4 <= fuel)%nat ->
  exists r s',
    memmgr_alloc c fuel nbytes s = Some (r, s') /\ (r = 0 -> s' = started s).
Proof.
  intros I Hfuel. rewrite memmgr_alloc_unfold. cbv zeta. fold (started s).
  destruct (quantas_bounds nbytes) as (Q1 & Q2).
  apply (alloc_loop_total (started s) bl live); auto. apply started_WF. exact I.
Qed.

(** *** Requests that are too large for the pool, without wrap-around *)

(* the size arithmetic of the request stays within the size type *)
Definition request_exact (nbytes : Z) : Prop :=
  0 <= nbytes /\
  ((nbytes + HSZ c - 1) / HSZ c + 1) * HSZ c + POOL_SIZE c < IMOD c.

Lemma request_ok_exact nbytes : request_ok nbytes -> request_exact nbytes.
Proof.
  pose proof CFG as CFG0.
  destruct CFG0 as (_ & C1 & C2 & C3 & C4 & C5 & C6 & C7 & C8).
  intros (R0 & R1). split; lia.
Qed.

Lemma request_exact_quantas nbytes :
  request_exact nbytes ->
  quantas c nbytes = (nbytes + HSZ c - 1) / HSZ c + 1 /\
  1 <= quantas c nbytes /\ quantas c nbytes * HSZ c + POOL_SIZE c < IMOD c.
Proof.
  pose proof (HSZ_ge2 c LAY) as H2.
  pose proof CFG as CFG0.
  destruct CFG0 as (_ & C1 & C2 & C3 & C4 & C5 & C6 & C7 & C8).
  intros (R0 & R1).
  pose proof (Z.div_mod (nbytes + HSZ c - 1) (HSZ c) ltac:(lia)) as DM.
  pose proof (Z.mod_pos_bound (nbytes + HSZ c - 1) (HSZ c) ltac:(lia)) as MB.
  assert (E : quantas c nbytes = (nbytes + HSZ c - 1) / HSZ c + 1)
    by (apply quantas_exact; nia).
  destruct (quantas_bounds nbytes) as (Q1 & Q2).
  rewrite E in *. repeat split; lia.
Qed.

Lemma request_exact_cases nbytes :
  request_exact nbytes ->
  request_ok nbytes \/ POOL_SIZE c < quantas c nbytes * HSZ c.
Proof.
  intros RE. destruct (request_exact_quantas nbytes RE) as (QE & _).
  destruct RE as (R0 & _).
  destruct (Z_le_gt_dec (quantas c nbytes * HSZ c) (POOL_SIZE c)) as [LE | GT].
  - left. split; [exact R0|]. rewrite <- QE. exact LE.
  - right. lia.
Qed.

(* no block fits and the pool cannot be carved: the search gives up *)
Lemma alloc_too_big s bl live nq fuel :
  WF s bl live -> 1 <= nq -> POOL_SIZE c < nq * HSZ c ->
  nq * HSZ c + POOL_SIZE c < IMOD c -> (length bl + 1 <= fuel)%nat ->
  alloc_loop c fuel nq (freep s) (ld_next c (mem s) (freep s)) s = Some (0, s).
Proof.
  pose proof (HSZ_ge2 c LAY) as H2.
  pose proof CFG as CFG0.
  destruct CFG0 as (_ & C1 & C2 & C3 & C4 & C5 & C6 & C7 & C8).
  intros W Hq BIG NW Hfuel.
  assert (SM : forall x, In x bl -> snd x < nq).
  { destruct W as (W1 & _ & W3 & _). intros x Hx.
    destruct (blocks_ok_in _ _ _ _ W3 Hx). nia. }
  replace fuel with (length bl + S (fuel - length bl - 1))%nat by lia.
  rewrite (alloc_none_WF s bl live nq _ W Hq SM).
  destruct W as (W1 & _).
  unfold get_mem_from_pool. fold (carve_quantas nq).
  assert (CQ : nq <= carve_quantas nq /\
               carve_quantas nq * HSZ c + POOL_SIZE c < IMOD c).
  { unfold carve_quantas.
    destruct (Z.ltb_spec nq (MIN_POOL_ALLOC_QUANTAS c)); split; lia. }
  destruct CQ as (CQ1 & CQ2).
  rewrite (wrap_small c (carve_quantas nq * HSZ c)) by nia.
  rewrite (wrap_small c) by nia.
  destruct (Z.leb_spec (pool_free_pos s + carve_quantas nq * HSZ c) (POOL_SIZE c));
    [nia | reflexivity].
Qed.

Lemma memmgr_alloc_too_big s bl live nbytes fuel :
  Inv s bl live -> request_exact nbytes ->
  POOL_SIZE c < quantas c nbytes * HSZ c -> (length bl + 1 <= fuel)%nat ->
  memmgr_alloc c fuel nbytes s = Some (0, started s).
Proof.
  intros I RE BIG Hfuel. destruct (request_exact_quantas nbytes RE) as (_ & Q1 & Q2).
  rewrite memmgr_alloc_unfold. cbv zeta. fold (started s).
  apply (alloc_too_big (started s) bl live); auto. apply started_WF. exact I.
Qed.

Lemma memmgr_alloc_mono f f' nbytes s x :
  memmgr_alloc c f nbytes s = Some x -> (f <= f')%nat ->
  memmgr_alloc c f' nbytes s = Some x.
Proof. rewrite !memmgr_alloc_unfold. cbv zeta. apply alloc_loop_mono. Qed.

Lemma alloc_ok_nonnull s bl live nq r s' : alloc_ok s bl live nq r s' -> 0 < r - HSZ c.
Proof.
  pose proof CFG as CFG0.
  destruct CFG0 as (_ & C1 & C2 & C3 & C4 & C5 & C6 & C7 & C8).
  intros (bl1 & bl' & _ & _ & (_ & _ & _ & _ & W5 & _) & _).
  destruct (W5 (r - HSZ c) nq) as (_ & _ & K & _); [right; auto | lia].
Qed.

Lemma alloc_ok_length s bl nq r s' bl1 bl' :
  stage s s' bl bl1 nq -> took bl1 nq r bl' -> (length bl' <= S (length bl))%nat.
Proof.
  intros ST (b1 & X & b2 & E & TK).
  assert (L1 : (length bl1 <= S (length bl))%nat).
  { destruct ST as [(E1 & _) | (_ & _ & _ & P & FD)]; [subst; lia|].
    apply (freed_length _ _ _ _ _ FD). }
  assert (L2 : (length bl' <= length bl1)%nat).
  { subst bl1. destruct TK as [(_ & _ & E') | (_ & _ & E')]; subst bl';
      rewrite !length_app; cbn [length]; lia. }
  lia.
Qed.

Lemma started_id s bl live : WF s bl live -> started s = s.
Proof.
  intros W. pose proof (WF_freep_pos s bl live W) as FP. unfold started.
  assert (E0 : (freep s =? 0) = false) by (apply Z.eqb_neq; lia).
  now rewrite E0.
Qed.

Lemma carve_quantas_pos nq : 0 < carve_quantas nq.
Proof.
  pose proof CFG as CFG0. destruct CFG0 as (_ & C1 & _).
  unfold carve_quantas. destruct (Z.ltb_spec nq (MIN_POOL_ALLOC_QUANTAS c)); lia.
Qed.

Lemma stage_pfp s s' bl bl1 nq :
  stage s s' bl bl1 nq ->
  exists j, 0 <= j /\ pool_free_pos s' = pool_free_pos s + j * HSZ c.
Proof.
  intros [(_ & E & _) | (_ & E & _)].
  - exists 0. lia.
  - exists (carve_quantas nq). pose proof (carve_quantas_pos nq). lia.
Qed.

Lemma memcpy_changed m dst src n z :
  memcpy m dst src n z <> m z -> dst <= z < dst + n.
Proof.
  unfold memcpy. destruct (Z.leb_spec dst z); destruct (Z.ltb_spec z (dst + n));
    cbn [andb]; intros N; try lia; congruence.
Qed.

Lemma memset0_changed m dst n z :
  memset0 m dst n z <> m z -> dst <= z < dst + n.
Proof.
  unfold memset0. destruct (Z.leb_spec dst z); destruct (Z.ltb_spec z (dst + n));
    cbn [andb]; intros N; try lia; congruence.
Qed.

(** *** [memmgr_realloc] when the block has to grow *)

Lemma realloc_grow_spec s bl live b k nbytes fuel :
  WF s bl live -> live b k -> nbytes <> 0 -> request_ok nbytes ->
  k < quantas c nbytes -> (2 * length bl + 3 <= fuel)%nat ->
  exists r s1 s',
    memmgr_alloc c fuel nbytes s = Some (r, s1) /\
    memmgr_realloc c fuel (b + HSZ c) nbytes s = Some (r, s') /\
    ((r = 0 /\ s1 = s /\ s' = s) \/
     (0 < r - HSZ c /\ r - HSZ c <> b /\
      exists bl',
        WF s' bl' (live_del (live_add live (r - HSZ c) (quantas c nbytes)) b) /\
        (forall i, 0 <= i < (k - 1) * HSZ c ->
                   mem s' (r + i) = mem s (b + HSZ c + i)) /\
        (exists j, 0 <= j /\ pool_free_pos s' = pool_free_pos s + j * HSZ c) /\
        (forall z, b <= z < b + k * HSZ c -> covered bl' z))).
Proof.
  pose proof (HSZ_ge2 c LAY) as H2.
  pose proof CFG as CFG0.
  destruct CFG0 as (_ & C1 & C2 & C3 & C4 & C5 & C6 & C7 & C8).
  intros W Hl Hnz RQ Hgrow Hfuel.
  destruct (request_ok_quantas nbytes RQ) as (QE & Q1 & Q2 & Q3 & Q4).
  set (nq := quantas c nbytes) in *.
  pose proof W as (W1 & W2 & W3 & W4 & W5 & W6 & W7).
  destruct (W5 b k Hl) as (Hsz & Hk & Hb & Hbk).
  destruct (memmgr_alloc_spec s bl live nbytes fuel (or_intror W) Q2 Hfuel)
    as (r & s1 & RUN & OUT).
  rewrite (started_id s bl live W) in OUT. fold nq in OUT.
  unfold memmgr_realloc.
  assert (E1 : (b + HSZ c =? 0) = false) by (apply Z.eqb_neq; lia).
  assert (E2 : (nbytes =? 0) = false) by (apply Z.eqb_neq; lia).
  rewrite E1, E2. replace (b + HSZ c - HSZ c) with b by lia.
  fold nq. rewrite Hsz.
  assert (E3 : (nq <=? k) = false) by (apply Z.leb_gt; lia).
  rewrite E3, RUN.
  assert (KH : k * HSZ c + HSZ c <= nq * HSZ c) by nia.
  assert (K1H : HSZ c <= k * HSZ c) by nia.
  destruct OUT as [(R0 & ES & _) | OK].
  - subst r s1. cbn [Z.eqb]. exists 0, s, s. repeat split; auto.
  - pose proof (alloc_ok_nonnull _ _ _ _ _ _ OK) as RP.
    destruct OK as (bl1 & bl1' & ST & TK & WA & NL & FR).
    assert (E4 : (r =? 0) = false) by (apply Z.eqb_neq; lia).
    rewrite E4.
    destruct (stage_pfp _ _ _ _ _ ST) as (j & Hj & EJ).
    assert (OLD : forall z, b <= z < b + k * HSZ c -> mem s1 z = mem s z).
    { intros z Hz. apply FR.
      - apply (W6 b k z Hl Hz).
      - unfold in_base. destruct C8; lia.
      - lia. }
    assert (SZ1 : ld_size c (mem s1) b = k).
    { rewrite <- Hsz. apply (ld_size_frame c LAY). intros z Hz. apply OLD. lia. }
    rewrite SZ1. rewrite (wrap_small c ((k - 1) * HSZ c)) by lia.
    set (s2 := set_mem s1 (memcpy (mem s1) r (b + HSZ c) ((k - 1) * HSZ c))).
    assert (W2' : WF s2 bl1' (live_add live (r - HSZ c) nq)).
    { apply WF_write; [exact WA|]. intros z Hz. apply memcpy_changed in Hz.
      exists (r - HSZ c), nq. split; [right; auto | lia]. }
    assert (LB : live_add live (r - HSZ c) nq b k) by (left; exact Hl).
    pose proof (alloc_ok_length _ _ _ _ _ _ _ ST TK) as LEN.
    destruct (memmgr_free_WF s2 bl1' _ b k fuel W2' LB ltac:(lia))
      as (s3 & P & bl3 & RF & FD & EP & EPF & W3' & CV & FR3).
    assert (NB : r - HSZ c <> b) by (intros E; apply (NL k); rewrite E; exact Hl).
    rewrite RF. exists r, s1, s3. split; [reflexivity|]. split; [reflexivity|].
    right. split; [exact RP|]. split; [exact NB|]. exists bl3. split; [exact W3'|].
    split; [|split].
    + intros i Hi.
      destruct WA as (A1 & _ & _ & _ & A5 & A6 & A7).
      assert (LN : live_add live (r - HSZ c) nq (r - HSZ c) nq) by (right; auto).
      rewrite FR3.
      * subst s2. cbn [set_mem mem]. unfold memcpy.
        assert (EC : ((r <=? r + i) && (r + i <? r + (k - 1) * HSZ c))%bool = true).
        { apply andb_true_iff. split; [apply Z.leb_le | apply Z.ltb_lt]; lia. }
        rewrite EC. replace (b + HSZ c + (r + i - r)) with (b + HSZ c + i) by lia.
        apply OLD. lia.
      * apply (A6 (r - HSZ c) nq (r + i) LN). lia.
      * destruct (A5 _ _ LN) as (_ & _ & K3 & K4). unfold in_base. destruct C8; lia.
      * destruct (A7 (r - HSZ c) nq b k LN LB NB); lia.
    + exists j. split; [exact Hj|]. rewrite EPF. subst s2. cbn [set_mem pool_free_pos]. exact EJ.
    + intros z Hz. apply CV. now right.
Qed.

(** *** [memmgr_calloc] *)

Lemma calloc_spec s bl live num nbytes fuel :
  Inv s bl live -> request_ok (wrap c (num * nbytes)) ->
  (2 * length bl + 3 <= fuel)%nat ->
  let n := wrap c (num * nbytes) in
  exists r s1 s',
    memmgr_alloc c fuel n s = Some (r, s1) /\
    memmgr_calloc c fuel num nbytes s = Some (r, s') /\
    ((r = 0 /\ s' = s1 /\ alloc_fail (started s) bl (quantas c n) r s1) \/
     (0 < r - HSZ c /\ alloc_ok (started s) bl live (quantas c n) r s1 /\
      s' = set_mem s1 (memset0 (mem s1) r n) /\
      (forall i, 0 <= i < n -> mem s' (r + i) = 0) /\
      exists bl', WF s' bl' (live_add live (r - HSZ c) (quantas c n)))).
Proof.
  pose proof (HSZ_ge2 c LAY) as H2.
  intros I RQ Hfuel n.
  destruct (request_ok_quantas n RQ) as (QE & Q1 & Q2 & Q3 & Q4).
  destruct (memmgr_alloc_spec s bl live n fuel I Q2 Hfuel) as (r & s1 & RUN & OUT).
  unfold memmgr_calloc. fold n. rewrite RUN.
  destruct OUT as [FAIL | OK].
  - pose proof FAIL as (R0 & _). subst r. cbn [Z.eqb].
    exists 0, s1, s1. repeat split; auto.
  - pose proof (alloc_ok_nonnull _ _ _ _ _ _ OK) as RP.
    assert (E4 : (r =? 0) = false) by (apply Z.eqb_neq; lia).
    rewrite E4. exists r, s1, (set_mem s1 (memset0 (mem s1) r n)).
    split; [reflexivity|]. split; [reflexivity|]. right.
    split; [exact RP|]. split; [exact OK|]. split; [reflexivity|]. split.
    + intros i Hi. cbn [set_mem mem]. unfold memset0.
      assert (EC : ((r <=? r + i) && (r + i <? r + n))%bool = true).
      { apply andb_true_iff. split; [apply Z.leb_le | apply Z.ltb_lt]; lia. }
      now rewrite EC.
    + destruct OK as (bl1 & bl' & _ & _ & WA & _). exists bl'.
      apply WF_write; [exact WA|]. intros z Hz. apply memset0_changed in Hz.
      exists (r - HSZ c), (quantas c n). split; [right; auto | lia].
Qed.

(** ** The public operations and the states they reach *)

Inductive op : Type :=
| OpInit
| OpAlloc (nbytes : Z)
| OpFree (ap : Z)
| OpRealloc (ap nbytes : Z)
| OpCalloc (num nbytes : Z)
| OpWrite (a v : Z).           (* the caller stores a byte in one of its blocks *)

Definition run_op (fuel : nat) (o : op) (s : state) : option (Z * state) :=
  match o with
  | OpInit => Some (0, memmgr_init c s)
  | OpAlloc nbytes => memmgr_alloc c fuel nbytes s
  | OpFree ap =>
      match memmgr_free c fuel ap s with
      | None => None
      | Some s' => Some (0, s')
      end
  | OpRealloc ap nbytes => memmgr_realloc c fuel ap nbytes s
  | OpCalloc num nbytes => memmgr_calloc c fuel num nbytes s
  | OpWrite a v => Some (0, set_mem s (upd (mem s) a v))
  end.

(* the calls the interface allows, given the blocks that are live *)
Definition op_ok (live : Z -> Z -> Prop) (o : op) : Prop :=
  match o with
  | OpInit => True
  | OpAlloc nbytes => request_exact nbytes
  | OpFree ap => ap = 0 \/ exists k, live (ap - HSZ c) k
  | OpRealloc ap nbytes =>
      (ap = 0 /\ request_exact nbytes) \/
      (ap <> 0 /\ (exists k, live (ap - HSZ c) k) /\
       (nbytes = 0 \/ request_exact nbytes))
  | OpCalloc num nbytes => request_exact (wrap c (num * nbytes))
  | OpWrite a v => in_payload live a
  end.

(* the live blocks after a call that returned [r] *)
Definition live_after (o : op) (r : Z) (live : Z -> Z -> Prop) : Z -> Z -> Prop :=
  match o with
  | OpInit => fun _ _ => False
  | OpAlloc nbytes =>
      if r =? 0 then live else live_add live (r - HSZ c) (quantas c nbytes)
  | OpFree ap => if ap =? 0 then live else live_del live (ap - HSZ c)
  | OpRealloc ap nbytes =>
      if ap =? 0 then
        if r =? 0 then live else live_add live (r - HSZ c) (quantas c nbytes)
      else if nbytes =? 0 then live_del live (ap - HSZ c)
      else if r =? ap then live
      else if r =? 0 then live
      else live_del (live_add live (r - HSZ c) (quantas c nbytes)) (ap - HSZ c)
  | OpCalloc num nbytes =>
      if r =? 0 then live
      else live_add live (r - HSZ c) (quantas c (wrap c (num * nbytes)))
  | OpWrite a v => live
  end.

Inductive reachable : state -> (Z -> Z -> Prop) -> Prop :=
| reach_init s0 : reachable (memmgr_init c s0) (fun _ _ => False)
| reach_step s live o fuel r s' :
    reachable s live -> op_ok live o -> run_op fuel o s = Some (r, s') ->
    reachable s' (live_after o r live).

Lemma memmgr_realloc_mono f f' ap nbytes s x :
  memmgr_realloc c f ap nbytes s = Some x -> (f <= f')%nat ->
  memmgr_realloc c f' ap nbytes s = Some x.
Proof.
  unfold memmgr_realloc. intros E Hle.
  destruct (ap =? 0); [apply (memmgr_alloc_mono f f' _ _ _ E Hle)|].
  destruct (nbytes =? 0).
  - destruct (memmgr_free c f ap s) as [s1|] eqn:EF; [|discriminate].
    rewrite (memmgr_free_mono c f f' _ _ _ EF Hle). exact E.
  - destruct (quantas c nbytes <=? ld_size c (mem s) (ap - HSZ c)); [exact E|].
    destruct (memmgr_alloc c f nbytes s) as [[p s1]|] eqn:EA; [|discriminate].
    rewrite (memmgr_alloc_mono f f' _ _ _ EA Hle).
    destruct (p =? 0); [exact E|].
    match type of E with
    | match ?t with _ => _ end = _ => destruct t as [s3|] eqn:EF; [|discriminate]
    end.
    rewrite (memmgr_free_mono c f f' _ _ _ EF Hle). exact E.
Qed.

Lemma memmgr_calloc_mono f f' num nbytes s x :
  memmgr_calloc c f num nbytes s = Some x -> (f <= f')%nat ->
  memmgr_calloc c f' num nbytes s = Some x.
Proof.
  unfold memmgr_calloc. intros E Hle.
  destruct (memmgr_alloc c f _ s) as [[p s1]|] eqn:EA; [|discriminate].
  rewrite (memmgr_alloc_mono f f' _ _ _ EA Hle). exact E.
Qed.

Lemma run_op_mono f f' o s x :
  run_op f o s = Some x -> (f <= f')%nat -> run_op f' o s = Some x.
Proof.
  destruct o; cbn [run_op]; intros E Hle; auto.
  - apply (memmgr_alloc_mono f f' _ _ _ E Hle).
  - destruct (memmgr_free c f ap s) as [s1|] eqn:EF; [|discriminate].
    rewrite (memmgr_free_mono c f f' _ _ _ EF Hle). exact E.
  - apply (memmgr_realloc_mono f f' _ _ _ _ E Hle).
  - apply (memmgr_calloc_mono f f' _ _ _ _ E Hle).
Qed.

(* two runs of the same call that both return agree *)
Lemma run_op_agree f f' o s x y :
  run_op f o s = Some x -> run_op f' o s = Some y -> x = y.
Proof.
  intros E1 E2.
  pose proof (run_op_mono f (Nat.max f f') o s x E1 (Nat.le_max_l _ _)) as M1.
  pose proof (run_op_mono f' (Nat.max f f') o s y E2 (Nat.le_max_r _ _)) as M2.
  congruence.
Qed.

(** *** Every call keeps the invariant *)

Definition advanced (s s' : state) : Prop :=
  exists j, 0 <= j /\ pool_free_pos s' = pool_free_pos s + j * HSZ c.

Lemma advanced_refl s : advanced s s.
Proof. exists 0. lia. Qed.

Lemma alloc_step s bl live nbytes fuel r s' :
  Inv s bl live -> request_exact nbytes ->
  memmgr_alloc c fuel nbytes s = Some (r, s') ->
  advanced s s' /\
  exists bl',
    Inv s' bl' (if r =? 0 then live
                else live_add live (r - HSZ c) (quantas c nbytes)).
Proof.
  pose proof (HSZ_ge2 c LAY) as H2.
  intros I RE RUN.
  destruct (request_exact_cases nbytes RE) as [RQ | BIG].
  2:{ pose proof (memmgr_alloc_too_big s bl live nbytes _ I RE BIG (le_n _)) as RUN2.
      assert (EQ : (r, s') = (0, started s))
        by (apply (run_op_agree fuel (length bl + 1) (OpAlloc nbytes) s); assumption).
      injection EQ. intros -> ->. cbn [Z.eqb]. split.
      - exists 0. rewrite started_pfp. lia.
      - exists bl. right. apply started_WF. exact I. }
  destruct (request_ok_quantas nbytes RQ) as (QE & Q1 & Q2 & Q3 & Q4).
  destruct (memmgr_alloc_spec s bl live nbytes (2 * length bl + 3) I Q2 (le_n _))
    as (r2 & s2 & RUN2 & OUT).
  assert (EQ : (r, s') = (r2, s2))
    by (apply (run_op_agree fuel (2 * length bl + 3) (OpAlloc nbytes) s); assumption).
  injection EQ. intros E1 E2. subst r2 s2.
  destruct OUT as [(R0 & ES & _) | OK].
  - subst r s'. cbn [Z.eqb]. split.
    + exists 0. rewrite started_pfp. lia.
    + exists bl. right. apply started_WF. exact I.
  - pose proof (alloc_ok_nonnull _ _ _ _ _ _ OK) as RP.
    assert (E4 : (r =? 0) = false) by (apply Z.eqb_neq; lia).
    rewrite E4. destruct OK as (bl1 & bl' & ST & TK & WA & _). split.
    + destruct (stage_pfp _ _ _ _ _ ST) as (j & Hj & EJ). exists j.
      rewrite started_pfp in EJ. auto.
    + exists bl'. right. exact WA.
Qed.

Lemma free_step s bl live ap fuel s' :
  Inv s bl live -> (ap = 0 \/ exists k, live (ap - HSZ c) k) ->
  memmgr_free c fuel ap s = Some s' ->
  advanced s s' /\
  exists bl', Inv s' bl' (if ap =? 0 then live else live_del live (ap - HSZ c)).
Proof.
  pose proof CFG as CFG0.
  destruct CFG0 as (_ & C1 & C2 & C3 & C4 & C5 & C6 & C7 & C8).
  intros I OK RUN. destruct (Z.eqb_spec ap 0) as [E0 | N0].
  - subst ap. unfold memmgr_free in RUN. cbn [Z.eqb] in RUN. injection RUN. intros <-.
    split; [apply advanced_refl | exists bl; exact I].
  - destruct OK as [E | (k & Hl)]; [contradiction|].
    destruct I as [(_ & _ & _ & NL) | W]; [destruct (NL _ _ Hl)|].
    destruct (memmgr_free_WF s bl live (ap - HSZ c) k (S (length bl)) W Hl (le_n _))
      as (s2 & P & bl' & RUN2 & FD & EP & EPF & W' & _).
    replace (ap - HSZ c + HSZ c) with ap in RUN2 by lia.
    assert (EQ : (0, s') = (0, s2)).
    { apply (run_op_agree fuel (S (length bl)) (OpFree ap) s); cbn [run_op].
      - now rewrite RUN.
      - now rewrite RUN2. }
    injection EQ. intros ->. split.
    + exists 0. lia.
    + exists bl'. right. exact W'.
Qed.

Lemma quantas_le_exact nbytes k :
  0 < nbytes -> k * HSZ c <= POOL_SIZE c ->
  (nbytes + HSZ c - 1) / HSZ c + 1 <= k ->
  quantas c nbytes = (nbytes + HSZ c - 1) / HSZ c + 1.
Proof.
  pose proof (HSZ_ge2 c LAY) as H2.
  pose proof CFG as CFG0.
  destruct CFG0 as (_ & C1 & C2 & C3 & C4 & C5 & C6 & C7 & C8).
  intros Hn Hk Hq. apply quantas_exact; [lia|].
  pose proof (Z.div_mod (nbytes + HSZ c - 1) (HSZ c) ltac:(lia)) as DM.
  pose proof (Z.mod_pos_bound (nbytes + HSZ c - 1) (HSZ c) ltac:(lia)) as MB.
  nia.
Qed.

Lemma realloc_step s bl live ap nbytes fuel r s' :
  Inv s bl live -> op_ok live (OpRealloc ap nbytes) ->
  memmgr_realloc c fuel ap nbytes s = Some (r, s') ->
  advanced s s' /\
  exists bl', Inv s' bl' (live_after (OpRealloc ap nbytes) r live).
Proof.
  pose proof (HSZ_ge2 c LAY) as H2.
  pose proof CFG as CFG0.
  destruct CFG0 as (_ & C1 & C2 & C3 & C4 & C5 & C6 & C7 & C8).
  intros I OK RUN. cbn [live_after].
  destruct OK as [(E0 & RQ) | (N0 & (k & Hl) & RQ)].
  - subst ap. cbn [Z.eqb]. unfold memmgr_realloc in RUN. cbn [Z.eqb] in RUN.
    apply (alloc_step s bl live nbytes fuel r s' I RQ RUN).
  - assert (E1 : (ap =? 0) = false) by (apply Z.eqb_neq; exact N0).
    rewrite E1.
    destruct I as [(_ & _ & _ & NL) | W]; [destruct (NL _ _ Hl)|].
    pose proof W as (W1 & W2 & W3 & W4 & W5 & W6 & W7).
    destruct (W5 _ _ Hl) as (Hsz & Hk & Hb & Hbk).
    destruct (Z.eqb_spec nbytes 0) as [En | Nn].
    + (* realloc(p, 0) frees *)
      subst nbytes. unfold memmgr_realloc in RUN. rewrite E1 in RUN. cbn [Z.eqb] in RUN.
      destruct (memmgr_free c fuel ap s) as [s1|] eqn:EF; [|discriminate].
      injection RUN. intros <- <-.
      destruct (free_step s bl live ap fuel s1 (or_intror W)
                  (or_intror (ex_intro _ k Hl)) EF) as (AD & bl' & I').
      rewrite E1 in I'. split; [exact AD | exists bl'; exact I'].
    + destruct RQ as [En | RE]; [contradiction|].
      destruct (request_exact_cases nbytes RE) as [RQ | BIG].
      2:{ (* too large for the pool: the allocation fails, nothing changes *)
          unfold memmgr_realloc in RUN. rewrite E1 in RUN.
          assert (E2 : (nbytes =? 0) = false) by (apply Z.eqb_neq; exact Nn).
          rewrite E2, Hsz in RUN.
          assert (E3 : (quantas c nbytes <=? k) = false) by (apply Z.leb_gt; nia).
          rewrite E3 in RUN.
          destruct (memmgr_alloc c fuel nbytes s) as [[p s1]|] eqn:EA; [|discriminate].
          pose proof (memmgr_alloc_too_big s bl live nbytes _ (or_intror W) RE BIG
                        (le_n _)) as RUN2.
          assert (EQ : (p, s1) = (0, started s))
            by (apply (run_op_agree fuel (length bl + 1) (OpAlloc nbytes) s);
                assumption).
          injection EQ. intros -> ->. cbn [Z.eqb] in RUN.
          injection RUN. intros <- <-. rewrite (started_id s bl live W).
          assert (E7 : (0 =? ap) = false) by (apply Z.eqb_neq; lia).
          rewrite E7. cbn [Z.eqb].
          split; [apply advanced_refl | exists bl; right; exact W]. }
      destruct (request_ok_quantas nbytes RQ) as (QE & Q1 & Q2 & Q3 & Q4).
      destruct (Z_le_gt_dec (quantas c nbytes) k) as [SH | GR].
      * (* it fits in place *)
        unfold memmgr_realloc in RUN. rewrite E1 in RUN.
        assert (E2 : (nbytes =? 0) = false) by (apply Z.eqb_neq; exact Nn).
        rewrite E2, Hsz in RUN.
        assert (E3 : (quantas c nbytes <=? k) = true) by (apply Z.leb_le; exact SH).
        rewrite E3 in RUN. injection RUN. intros <- <-.
        rewrite Z.eqb_refl. split; [apply advanced_refl | exists bl; right; exact W].
      * (* it has to move *)
        replace ap with (ap - HSZ c + HSZ c) in RUN by lia.
        destruct (realloc_grow_spec s bl live (ap - HSZ c) k nbytes (2 * length bl + 3)
                    W Hl Nn RQ ltac:(lia) (le_n _))
          as (r2 & s1 & s2 & RA & RR & OUT).
        assert (EQ : (r, s') = (r2, s2)).
        { apply (run_op_agree fuel (2 * length bl + 3)
                   (OpRealloc (ap - HSZ c + HSZ c) nbytes) s); assumption. }
        injection EQ. intros E5 E6. subst r2 s2.
        destruct OUT as [(R0 & _ & ES) | (RP & NB & bl' & W' & _ & AD & _)].
        -- subst r s'. assert (E7 : (0 =? ap) = false) by (apply Z.eqb_neq; lia).
           rewrite E7. cbn [Z.eqb].
           split; [apply advanced_refl | exists bl; right; exact W].
        -- assert (E7 : (r =? ap) = false) by (apply Z.eqb_neq; lia).
           assert (E8 : (r =? 0) = false) by (apply Z.eqb_neq; lia).
           rewrite E7, E8. split; [exact AD | exists bl'; right; exact W'].
Qed.

Lemma calloc_step s bl live num nbytes fuel r s' :
  Inv s bl live -> request_exact (wrap c (num * nbytes)) ->
  memmgr_calloc c fuel num nbytes s = Some (r, s') ->
  advanced s s' /\
  exists bl', Inv s' bl' (live_after (OpCalloc num nbytes) r live).
Proof.
  pose proof (HSZ_ge2 c LAY) as H2.
  intros I RE RUN. cbn [live_after].
  destruct (request_exact_cases _ RE) as [RQ | BIG].
  2:{ unfold memmgr_calloc in RUN.
      destruct (memmgr_alloc c fuel (wrap c (num * nbytes)) s) as [[p s1]|] eqn:EA;
        [|discriminate].
      pose proof (memmgr_alloc_too_big s bl live _ _ I RE BIG (le_n _)) as RUN2.
      assert (EQ : (p, s1) = (0, started s))
        by (apply (run_op_agree fuel (length bl + 1)
                     (OpAlloc (wrap c (num * nbytes))) s); assumption).
      injection EQ. intros -> ->. cbn [Z.eqb] in RUN.
      injection RUN. intros <- <-. cbn [Z.eqb]. split.
      - exists 0. rewrite started_pfp. lia.
      - exists bl. right. apply started_WF. exact I. }
  destruct (calloc_spec s bl live num nbytes (2 * length bl + 3) I RQ (le_n _))
    as (r2 & s1 & s2 & RA & RC & OUT). cbv zeta in *.
  assert (EQ : (r, s') = (r2, s2))
    by (apply (run_op_agree fuel (2 * length bl + 3) (OpCalloc num nbytes) s); assumption).
  injection EQ. intros E1 E2. subst r2 s2.
  destruct OUT as [(R0 & ES & (_ & ES1 & _)) | (RP & OK & ES & _ & bl' & W')].
  - subst r s' s1. cbn [Z.eqb]. split.
    + exists 0. rewrite started_pfp. lia.
    + exists bl. right. apply started_WF. exact I.
  - assert (E4 : (r =? 0) = false) by (apply Z.eqb_neq; lia).
    rewrite E4. split; [|exists bl'; right; exact W'].
    destruct OK as (bl1 & bl2 & ST & _).
    destruct (stage_pfp _ _ _ _ _ ST) as (j & Hj & EJ). exists j.
    rewrite started_pfp in EJ. subst s'. cbn [set_mem pool_free_pos]. auto.
Qed.

Lemma upd_changed m a v z : upd m a v z <> m z -> z = a.
Proof. unfold upd. destruct (Z.eqb_spec z a); [auto | congruence]. Qed.

Theorem step_Inv s bl live o fuel r s' :
  Inv s bl live -> op_ok live o -> run_op fuel o s = Some (r, s') ->
  (o <> OpInit -> advanced s s') /\
  exists bl', Inv s' bl' (live_after o r live).
Proof.
  intros I OK RUN. destruct o; cbn [run_op op_ok live_after] in *.
  - injection RUN. intros <- <-. split; [congruence|].
    exists []. apply memmgr_init_Inv.
  - destruct (alloc_step s bl live nbytes fuel r s' I OK RUN). auto.
  - destruct (memmgr_free c fuel ap s) as [s1|] eqn:EF; [|discriminate].
    injection RUN. intros <- <-.
    destruct (free_step s bl live ap fuel s1 I OK EF). auto.
  - destruct (realloc_step s bl live ap nbytes fuel r s' I OK RUN). auto.
  - destruct (calloc_step s bl live num nbytes fuel r s' I OK RUN). auto.
  - injection RUN. intros <- <-.
    split; [intros _; exists 0; cbn [set_mem pool_free_pos]; lia|].
    destruct I as [(_ & _ & _ & NL) | W].
    + destruct OK as (b & k & Hl & _). destruct (NL _ _ Hl).
    + exists bl. right. apply WF_write; [exact W|].
      intros z Hz. apply upd_changed in Hz. subst z. exact OK.
Qed.

Theorem reachable_Inv s live : reachable s live -> exists bl, Inv s bl live.
Proof.
  induction 1 as [s0 | s live o fuel r s' RS (bl & I) OK RUN].
  - exists []. apply memmgr_init_Inv.
  - destruct (step_Inv s bl live o fuel r s' I OK RUN) as (_ & bl' & I'). eauto.
Qed.

(** ** The free list as the program sees it

    The blocks on the free list are the headers met when following [next]
    from [freep]; nothing here refers to the ghost list. *)

Fixpoint walk (m : memory) (n : nat) (p : Z) : Z :=
  match n with
  | O => p
  | S k => walk m k (ld_next c m p)
  end.

Definition on_free_list (s : state) (a : Z) : Prop :=
  freep s <> 0 /\ exists n, walk (mem s) n (freep s) = a.

Definition no_adjacent_free (s : state) : Prop :=
  forall a b, on_free_list s a -> on_free_list s b ->
              a + ld_size c (mem s) a * HSZ c = b -> a = b.

Lemma lseg_walk m : forall A rest nxt,
  lseg c m (A ++ rest) nxt ->
  walk m (length A) (entry (A ++ rest) nxt) = entry rest nxt.
Proof.
  induction A as [|a A IH]; intros rest nxt L; [reflexivity|].
  cbn [length app entry walk]. simpl in L. destruct L as (_ & Hn & L).
  rewrite Hn. apply IH. exact L.
Qed.

Lemma ring_next_in m R x :
  ring c m R -> In x R -> In (ld_next c m (fst x)) (addrs R).
Proof.
  intros (N & L) Hx. destruct (in_split x R Hx) as (l1 & l2 & E). subst R.
  rewrite (lseg_next m l1 x l2 _ L).
  destruct l2 as [|y l2']; cbn [entry].
  - destruct l1 as [|z l1']; cbn [app entry]; [now left|]. now left.
  - apply in_addrs. apply in_or_app. right. right. now left.
Qed.

Lemma walk_in_ring m R : ring c m R -> forall n p,
  In p (addrs R) -> In (walk m n p) (addrs R).
Proof.
  intros RG. induction n as [|n IH]; intros p Hp; [exact Hp|].
  cbn [walk]. apply IH. unfold addrs in Hp. apply in_map_iff in Hp.
  destruct Hp as (x & Ex & Hx). rewrite <- Ex. apply ring_next_in; assumption.
Qed.

Lemma ring_reach m R p x :
  ring c m R -> In p (addrs R) -> In x R -> exists n, walk m n p = fst x.
Proof.
  intros RG Hp Hx. unfold addrs in Hp. apply in_map_iff in Hp.
  destruct Hp as (F & EF & HF).
  destruct (in_split x R Hx) as (pre & post & E). subst R.
  destruct (ring_from m pre x post F RG HF) as (A & B & (_ & L) & EA & _).
  exists (length A). rewrite <- EF, <- EA.
  set (e := entry (A ++ x :: B) 0) in *.
  replace e with (entry (A ++ x :: B) e)
    by (apply entry_nonempty; destruct A; discriminate).
  apply (lseg_walk m A (x :: B) e L).
Qed.

Lemma WF_on_free_list s bl live a :
  WF s bl live -> (on_free_list s a <-> In a (addrs (sentinel :: bl))).
Proof.
  intros W. pose proof (WF_freep_pos s bl live W) as FP.
  destruct W as (W1 & W2 & W3 & W4 & _). split.
  - intros (_ & n & E). rewrite <- E. apply walk_in_ring; assumption.
  - intros Ha. split; [lia|]. unfold addrs in Ha. apply in_map_iff in Ha.
    destruct Ha as (x & Ex & Hx). rewrite <- Ex.
    apply (ring_reach (mem s) (sentinel :: bl) (freep s) x W2 W4 Hx).
Qed.

Lemma WF_no_adjacent s bl live : WF s bl live -> no_adjacent_free s.
Proof.
  pose proof (HSZ_ge2 c LAY) as H2.
  pose proof CFG as CFG0.
  destruct CFG0 as (_ & C1 & C2 & C3 & C4 & C5 & C6 & C7 & C8).
  intros W a b Ha Hb ADJ.
  apply (WF_on_free_list s bl live a W) in Ha.
  apply (WF_on_free_list s bl live b W) in Hb.
  destruct W as (W1 & (_ & L) & W3 & _).
  unfold addrs in Ha, Hb. apply in_map_iff in Ha, Hb.
  destruct Ha as (x & Ex & Hx). destruct Hb as (y & Ey & Hy). subst a b.
  rewrite (lseg_size c _ _ _ x L Hx) in ADJ.
  destruct Hx as [Hx | Hx]; destruct Hy as [Hy | Hy]; try subst x; try subst y;
    cbn [sentinel fst snd] in *; try reflexivity.
  - destruct (blocks_ok_in _ _ _ _ W3 Hy). destruct C8; nia.
  - destruct (blocks_ok_in _ _ _ _ W3 Hx). destruct C8; nia.
  - destruct (node_eq_dec x y) as [E | N]; [now subst|].
    destruct (blocks_ok_in _ _ _ _ W3 Hx) as (_ & I2 & _).
    destruct (blocks_ok_in _ _ _ _ W3 Hy) as (_ & J2 & _).
    destruct (blocks_sep _ _ bl x y W3 Hx Hy N); nia.
Qed.

Lemma Inv_no_adjacent s bl live : Inv s bl live -> no_adjacent_free s.
Proof.
  intros [(E & _) | W]; [|apply (WF_no_adjacent s bl live W)].
  intros a b (N & _). contradiction.
Qed.

(** *** The pool cursor *)

(* in the states of the invariant the cursor is a whole number of quantas *)
Lemma reachable_cursor_quantas s live :
  reachable s live -> exists j, 0 <= j /\ pool_free_pos s = j * HSZ c.
Proof.
  induction 1 as [s0 | s live o fuel r s' RS (j & J0 & EJ) OK RUN].
  - exists 0. split; [lia | reflexivity].
  - destruct (reachable_Inv s live RS) as (bl & I).
    destruct (step_Inv s bl live o fuel r s' I OK RUN) as (ADV & _).
    destruct o; try (destruct ADV as (i & I0 & EI); [discriminate|];
                     exists (j + i); split; [lia | rewrite EI, EJ; ring]).
    cbn [run_op] in RUN. injection RUN. intros <- _.
    exists 0. split; [lia | reflexivity].
Qed.

(** *** Room for a request *)

(* a block of [nq] quantas can be had: the pool can still be carved for it,
   or a block of the free list is large enough *)
Definition has_room (s : state) (nq : Z) : Prop :=
  pool_free_pos s + carve_quantas nq * HSZ c <= POOL_SIZE c \/
  exists a, on_free_list s a /\ nq <= ld_size c (mem s) a.

Lemma alloc_room s bl live nbytes fuel :
  Inv s bl live -> request_ok nbytes -> has_room s (quantas c nbytes) ->
  (2 * length bl + 3 <= fuel)%nat ->
  exists r s',
    memmgr_alloc c fuel nbytes s = Some (r, s') /\
    alloc_ok (started s) bl live (quantas c nbytes) r s'.
Proof.
  intros I RQ ROOM Hfuel.
  destruct (request_ok_quantas nbytes RQ) as (QE & Q1 & Q2 & Q3 & Q4).
  destruct (memmgr_alloc_spec s bl live nbytes fuel I Q2 Hfuel)
    as (r & s' & RUN & [FAIL | OK]); [|exists r, s'; auto].
  exfalso. destruct FAIL as (_ & _ & SM & FULL). rewrite started_pfp in FULL.
  destruct ROOM as [R1 | (a & OF & SZ)]; [lia|].
  destruct I as [(E & _) | W]; [destruct OF as (N & _); contradiction|].
  apply (WF_on_free_list s bl live a W) in OF.
  destruct W as (_ & (_ & L) & _).
  unfold addrs in OF. apply in_map_iff in OF. destruct OF as (x & Ex & Hx).
  subst a. rewrite (lseg_size c _ _ _ x L Hx) in SZ.
  destruct Hx as [Hx | Hx].
  - subst x. cbn [sentinel snd] in SZ. lia.
  - specialize (SM x Hx). lia.
Qed.

Lemma WF_covered_free s bl live z :
  WF s bl live -> covered bl z ->
  exists a, on_free_list s a /\ a <= z < a + ld_size c (mem s) a * HSZ c.
Proof.
  intros W (x & Hx & Hz). exists (fst x). split.
  - apply (WF_on_free_list s bl live (fst x) W). apply in_addrs. now right.
  - destruct W as (_ & (_ & L) & _).
    rewrite (lseg_size c _ _ _ x L (or_intror Hx)). exact Hz.
Qed.

Lemma has_room_header s bl live nq :
  Inv s bl live -> 1 <= nq -> has_room s nq -> HSZ c <= POOL_SIZE c.
Proof.
  pose proof (HSZ_ge2 c LAY) as H2. pose proof (carve_quantas_pos nq) as CP.
  intros I N1 [R1 | (a & OF & SZ)].
  - destruct I as [(_ & E & _) | (W1 & _)]; nia.
  - destruct I as [(E & _) | W]; [destruct OF as (N & _); contradiction|].
    apply (WF_on_free_list s bl live a W) in OF.
    destruct W as (W1 & (_ & L) & W3 & _).
    unfold addrs in OF. apply in_map_iff in OF. destruct OF as (x & Ex & Hx).
    subst a. rewrite (lseg_size c _ _ _ x L Hx) in SZ.
    destruct Hx as [Hx | Hx].
    + subst x. cbn [sentinel snd] in SZ. lia.
    + destruct (blocks_ok_in _ _ _ _ W3 Hx). nia.
Qed.

Lemma quantas_zero : quantas c 0 = 1.
Proof.
  pose proof (HSZ_ge2 c LAY) as H2.
  pose proof CFG as CFG0.
  destruct CFG0 as (_ & C1 & C2 & C3 & C4 & C5 & C6 & C7 & C8).
  rewrite quantas_exact by nia.
  replace (0 + HSZ c - 1) with (HSZ c - 1) by lia.
  rewrite Z.div_small by lia. reflexivity.
Qed.

(** ** The properties of the interface *)

(* a state with a live block is past its first allocation *)
Lemma reachable_WF s live b k :
  reachable s live -> live b k -> exists bl, WF s bl live.
Proof.
  intros RS Hl. destruct (reachable_Inv s live RS) as (bl & [(_ & _ & _ & NL) | W]).
  - destruct (NL b k Hl).
  - exists bl. exact W.
Qed.

(** C5. Realloc shrink in place: for a live block at [b] of [k] quantas and
    [nbytes > 0] whose quantized size [(nbytes + H - 1) / H + 1] is at most
    [k], [memmgr_realloc] returns the pointer it was given and the state it
    was called in: memory (headers, contents, free list) and pool cursor are
    unchanged. *)
Theorem realloc_shrink_in_place s live b k nbytes fuel :
  reachable s live -> live b k -> 0 < nbytes ->
  (nbytes + HSZ c - 1) / HSZ c + 1 <= k ->
  memmgr_realloc c fuel (b + HSZ c) nbytes s = Some (b + HSZ c, s).
Proof.
  pose proof (HSZ_ge2 c LAY) as H2.
  pose proof CFG as CFG0.
  destruct CFG0 as (_ & C1 & C2 & C3 & C4 & C5 & C6 & C7 & C8).
  intros RS Hl Hn Hq. destruct (reachable_WF s live b k RS Hl) as (bl & W).
  destruct W as (W1 & _ & _ & _ & W5 & _).
  destruct (W5 b k Hl) as (SZ & K1 & B1 & B2).
  assert (KP : k * HSZ c <= POOL_SIZE c) by lia.
  pose proof (quantas_le_exact nbytes k Hn KP Hq) as QE.
  unfold memmgr_realloc.
  assert (E1 : (b + HSZ c =? 0) = false) by (apply Z.eqb_neq; lia).
  assert (E2 : (nbytes =? 0) = false) by (apply Z.eqb_neq; lia).
  rewrite E1, E2. replace (b + HSZ c - HSZ c) with b by lia.
  rewrite SZ, QE.
  assert (E3 : ((nbytes + HSZ c - 1) / HSZ c + 1 <=? k) = true)
    by (apply Z.leb_le; exact Hq).
  now rewrite E3.
Qed.

(** C7. Realloc failure atomicity: for a live block at [b] of [k] quantas and
    a request that needs more quantas, the allocation inside
    [memmgr_realloc] returns, and when it returns none so does
    [memmgr_realloc], in the very state it was called in: the old block keeps
    its header and contents and is not put on the free list. *)
Theorem realloc_failure_atomic s live b k nbytes :
  reachable s live -> live b k -> nbytes <> 0 -> k < quantas c nbytes ->
  exists f0, forall fuel, (f0 <= fuel)%nat ->
    exists r s1,
      memmgr_alloc c fuel nbytes s = Some (r, s1) /\
      (r = 0 -> memmgr_realloc c fuel (b + HSZ c) nbytes s = Some (0, s)).
Proof.
  pose proof (HSZ_ge2 c LAY) as H2.
  pose proof CFG as CFG0.
  destruct CFG0 as (_ & C1 & C2 & C3 & C4 & C5 & C6 & C7 & C8).
  intros RS Hl Hn Hq. destruct (reachable_WF s live b k RS Hl) as (bl & W).
  exists (2 * length bl + 4)%nat. intros fuel Hfuel.
  destruct (memmgr_alloc_total s bl live nbytes fuel (or_intror W) Hfuel)
    as (r & s1 & E & R0).
  exists r, s1. split; [exact E|]. intros Hr. subst r.
  rewrite (started_id s bl live W) in R0. rewrite (R0 eq_refl) in E.
  destruct W as (W1 & _ & _ & _ & W5 & _).
  destruct (W5 b k Hl) as (SZ & K1 & B1 & B2).
  unfold memmgr_realloc.
  assert (E1 : (b + HSZ c =? 0) = false) by (apply Z.eqb_neq; lia).
  assert (E2 : (nbytes =? 0) = false) by (apply Z.eqb_neq; lia).
  rewrite E1, E2. replace (b + HSZ c - HSZ c) with b by lia.
  rewrite SZ.
  assert (E3 : (quantas c nbytes <=? k) = false) by (apply Z.leb_gt; exact Hq).
  rewrite E3, E. reflexivity.
Qed.

(** C10. Init frame: [memmgr_init], called in any state, sets the sentinel's
    next and size, [freep] and [pool_free_pos] to zero and changes no byte
    outside the sentinel header; in particular every byte of the pool keeps
    the value it had, carved or not. *)
Theorem memmgr_init_frame s :
  freep (memmgr_init c s) = 0 /\
  pool_free_pos (memmgr_init c s) = 0 /\
  ld_next c (mem (memmgr_init c s)) (base c) = 0 /\
  ld_size c (mem (memmgr_init c s)) (base c) = 0 /\
  (forall z, ~ in_base z -> mem (memmgr_init c s) z = mem s z) /\
  (forall z, pool c <= z < pool c + POOL_SIZE c ->
             mem (memmgr_init c s) z = mem s z).
Proof.
  pose proof (HSZ_ge2 c LAY) as H2. pose proof (IMOD_pos c LAY) as HI.
  pose proof CFG as CFG0.
  destruct CFG0 as (_ & C1 & C2 & C3 & C4 & C5 & C6 & C7 & C8).
  unfold memmgr_init. cbn [mem freep pool_free_pos].
  assert (FR : forall z, ~ in_base z ->
             st_size c (st_next c (mem s) (base c) 0) (base c) 0 z = mem s z).
  { intros z N. unfold in_base in N.
    rewrite (st_size_out c LAY), (st_next_out c LAY) by lia. reflexivity. }
  split; [reflexivity|]. split; [reflexivity|]. split; [|split; [|split]].
  - rewrite (next_st_size c LAY), (next_st_next c) by lia. reflexivity.
  - rewrite (size_st_size c) by lia. reflexivity.
  - exact FR.
  - intros z Hz. apply FR. unfold in_base. lia.
Qed.

(** C3 (amended). Zero-byte allocation: in a state reached from
    [memmgr_init] by calls whose size arithmetic does not wrap around the
    size type, when the pool can still be carved by
    [max 1 MIN_POOL_ALLOC_QUANTAS] headers or the free list has a block,
    [memmgr_alloc 0] returns a non-null pointer that differs from every live
    pointer; the block it takes is ONE quantum, the header alone, so the
    pointer has no usable payload. *)
Theorem alloc_zero_takes_header_only s live :
  reachable s live -> has_room s 1 ->
  exists f0, forall fuel, (f0 <= fuel)%nat ->
    exists r s',
      memmgr_alloc c fuel 0 s = Some (r, s') /\
      r <> 0 /\
      (forall b k, live b k -> r <> b + HSZ c) /\
      ld_size c (mem s') (r - HSZ c) = 1 /\
      reachable s' (live_add live (r - HSZ c) 1).
Proof.
  pose proof (HSZ_ge2 c LAY) as H2.
  intros RS ROOM. destruct (reachable_Inv s live RS) as (bl & I).
  pose proof (has_room_header s bl live 1 I ltac:(lia) ROOM) as HP.
  exists (2 * length bl + 3)%nat. intros fuel Hfuel.
  assert (RQ : request_ok 0).
  { split; [lia|]. replace (0 + HSZ c - 1) with (HSZ c - 1) by lia.
    rewrite Z.div_small by lia. lia. }
  pose proof quantas_zero as Q0.
  destruct (alloc_room s bl live 0 fuel I RQ ltac:(rewrite Q0; exact ROOM) Hfuel)
    as (r & s' & RUN & OK).
  pose proof (alloc_ok_nonnull _ _ _ _ _ _ OK) as RP.
  exists r, s'. rewrite Q0 in OK.
  destruct OK as (bl1 & bl' & _ & _ & W' & NL & _).
  assert (E0 : (r =? 0) = false) by (apply Z.eqb_neq; lia).
  split; [exact RUN|]. split; [lia|]. split; [|split].
  - intros b k Hl E. apply (NL k). replace (r - HSZ c) with b by lia. exact Hl.
  - destruct W' as (_ & _ & _ & _ & W5 & _).
    destruct (W5 (r - HSZ c) 1) as (SZ & _); [right; auto | exact SZ].
  - pose proof (reach_step s live (OpAlloc 0) fuel r s' RS (request_ok_exact 0 RQ) RUN)
      as RS'.
    cbn [live_after] in RS'. rewrite E0, Q0 in RS'. exact RS'.
Qed.

(** C4 (amended). Calloc and overflow: [memmgr_calloc] does not detect an
    overflow of [num * nbytes]: in every state it does what
    [memmgr_calloc 1 n] does, [n] being the product reduced modulo the size
    type (the same pointer and the same state, or neither call returns). In a
    state reached from [memmgr_init] by calls whose size arithmetic does not
    wrap around the size type, when [n] fits the pool and there is room for
    it, the call returns a non-null block of [quantas n] quantas whose first
    [n] bytes are zero, and the block is live from then on. *)
Theorem calloc_acts_on_wrapped_product s num nbytes :
  (forall fuel,
     memmgr_calloc c fuel num nbytes s =
     memmgr_calloc c fuel 1 (wrap c (num * nbytes)) s) /\
  (forall live,
     reachable s live ->
     request_ok (wrap c (num * nbytes)) ->
     has_room s (quantas c (wrap c (num * nbytes))) ->
     exists f0, forall fuel, (f0 <= fuel)%nat ->
       exists r s',
         memmgr_calloc c fuel num nbytes s = Some (r, s') /\
         r <> 0 /\
         (forall i, 0 <= i < wrap c (num * nbytes) -> mem s' (r + i) = 0) /\
         ld_size c (mem s') (r - HSZ c) = quantas c (wrap c (num * nbytes)) /\
         reachable s' (live_add live (r - HSZ c) (quantas c (wrap c (num * nbytes))))).
Proof.
  pose proof (HSZ_ge2 c LAY) as H2. pose proof (IMOD_pos c LAY) as HI.
  set (n := wrap c (num * nbytes)).
  assert (EN : wrap c (1 * n) = n).
  { unfold n, wrap. rewrite Z.mul_1_l. apply Z.mod_mod. lia. }
  split.
  { intros fuel. unfold memmgr_calloc. fold n. rewrite EN. reflexivity. }
  intros live RS RQ ROOM. destruct (reachable_Inv s live RS) as (bl & I).
  exists (2 * length bl + 3)%nat. intros fuel Hfuel.
  destruct (alloc_room s bl live n fuel I RQ ROOM Hfuel) as (r & s1 & RUN & OK).
  pose proof (alloc_ok_nonnull _ _ _ _ _ _ OK) as RP.
  assert (E0 : (r =? 0) = false) by (apply Z.eqb_neq; lia).
  assert (RC : memmgr_calloc c fuel num nbytes s =
               Some (r, set_mem s1 (memset0 (mem s1) r n))).
  { unfold memmgr_calloc. fold n. rewrite RUN, E0. reflexivity. }
  exists r, (set_mem s1 (memset0 (mem s1) r n)).
  split; [exact RC|]. split; [lia|].
  assert (RS' : reachable (set_mem s1 (memset0 (mem s1) r n))
                  (live_add live (r - HSZ c) (quantas c n))).
  { pose proof (reach_step s live (OpCalloc num nbytes) fuel r _ RS
                    (request_ok_exact _ RQ) RC) as RS'.
    cbn [live_after] in RS'. rewrite E0 in RS'. exact RS'. }
  split; [|split; [|exact RS']].
  - intros i Hi. cbn [set_mem mem]. unfold memset0.
    destruct (Z.leb_spec r (r + i)); [|lia].
    destruct (Z.ltb_spec (r + i) (r + n)); [|lia]. reflexivity.
  - destruct (reachable_WF _ _ (r - HSZ c) (quantas c n) RS') as (bl' & W');
      [right; auto|].
    destruct W' as (_ & _ & _ & _ & W5 & _).
    destruct (W5 (r - HSZ c) (quantas c n)) as (SZ & _); [right; auto | exact SZ].
Qed.

(** X16. The grow path of [memmgr_realloc]: in a state reached from
    [memmgr_init] by calls whose size arithmetic does not wrap around the
    size type, for a live block at [b] of [k] quantas and a request [nbytes]
    whose size arithmetic does not wrap either and whose quantized size
    exceeds [k], the allocation inside [memmgr_realloc] returns, and when it
    returns a pointer [r], so does [memmgr_realloc]: the first
    [min nbytes ((k - 1) * H)] bytes at [r] are the old payload, every byte
    of the old block lies in a block of the free list, and the old block is
    no longer live. *)
Theorem realloc_grow_copies_and_frees s live b k nbytes :
  reachable s live -> live b k -> request_exact nbytes ->
  k < (nbytes + HSZ c - 1) / HSZ c + 1 ->
  exists f0, forall fuel, (f0 <= fuel)%nat ->
    exists r s1 s',
      memmgr_alloc c fuel nbytes s = Some (r, s1) /\
      memmgr_realloc c fuel (b + HSZ c) nbytes s = Some (r, s') /\
      (r <> 0 ->
       (forall i, 0 <= i < Z.min nbytes ((k - 1) * HSZ c) ->
                  mem s' (r + i) = mem s (b + HSZ c + i)) /\
       (forall z, b <= z < b + k * HSZ c ->
          exists a, on_free_list s' a /\
                    a <= z < a + ld_size c (mem s') a * HSZ c) /\
       reachable s' (live_del (live_add live (r - HSZ c) (quantas c nbytes)) b)).
Proof.
  pose proof (HSZ_ge2 c LAY) as H2.
  pose proof CFG as CFG0.
  destruct CFG0 as (_ & C1 & C2 & C3 & C4 & C5 & C6 & C7 & C8).
  intros RS Hl RE Hq. destruct (reachable_WF s live b k RS Hl) as (bl & W).
  destruct (request_exact_quantas nbytes RE) as (QE & QP & _).
  pose proof W as (_ & _ & _ & _ & W5 & _).
  destruct (W5 b k Hl) as (SZ & K1 & B1 & B2).
  assert (NZ : nbytes <> 0).
  { intros E. subst nbytes. rewrite quantas_zero in QE. lia. }
  assert (GR : k < quantas c nbytes) by lia.
  exists (2 * length bl + 3)%nat. intros fuel Hfuel.
  destruct (request_exact_cases nbytes RE) as [RQ | BIG].
  2:{ (* too large for the pool: the allocation returns none *)
      pose proof (memmgr_alloc_too_big s bl live nbytes fuel (or_intror W) RE BIG
                    ltac:(lia)) as RA.
      rewrite (started_id s bl live W) in RA.
      exists 0, s, s. split; [exact RA|]. split; [|intros N; now destruct N].
      unfold memmgr_realloc.
      assert (E1 : (b + HSZ c =? 0) = false) by (apply Z.eqb_neq; lia).
      assert (E2 : (nbytes =? 0) = false) by (apply Z.eqb_neq; lia).
      rewrite E1, E2. replace (b + HSZ c - HSZ c) with b by lia. rewrite SZ.
      assert (E3 : (quantas c nbytes <=? k) = false) by (apply Z.leb_gt; exact GR).
      rewrite E3, RA. reflexivity. }
  destruct (request_ok_quantas nbytes RQ) as (_ & Q1 & Q2 & Q3 & Q4).
  destruct (realloc_grow_spec s bl live b k nbytes fuel W Hl NZ RQ GR Hfuel)
    as (r & s1 & s' & RA & RR & OUT).
  exists r, s1, s'. split; [exact RA|]. split; [exact RR|]. intros RN.
  destruct OUT as [(R0 & _) | (RP & RB & bl' & W' & CP & _ & CV)]; [contradiction|].
  split; [|split].
  - intros i Hi. apply CP. lia.
  - intros z Hz. apply (WF_covered_free s' bl' _ z W'). apply CV. exact Hz.
  - assert (OK : op_ok live (OpRealloc (b + HSZ c) nbytes)).
    { cbn [op_ok]. right. split; [lia|]. split; [|now right].
      exists k. replace (b + HSZ c - HSZ c) with b by lia. exact Hl. }
    pose proof (reach_step s live _ fuel r s' RS OK RR) as RS'.
    cbn [live_after] in RS'.
    assert (E1 : (b + HSZ c =? 0) = false) by (apply Z.eqb_neq; lia).
    assert (E2 : (nbytes =? 0) = false) by (apply Z.eqb_neq; lia).
    assert (E3 : (r =? b + HSZ c) = false) by (apply Z.eqb_neq; lia).
    assert (E4 : (r =? 0) = false) by (apply Z.eqb_neq; lia).
    rewrite E1, E2, E3, E4 in RS'.
    replace (b + HSZ c - HSZ c) with b in RS' by lia. exact RS'.
Qed.

(* the shapes of a one-block free list *)
Lemma single_split (x : node) b1 X b2 :
  [x] = b1 ++ X :: b2 -> b1 = [] /\ X = x /\ b2 = [].
Proof.
  destruct b1 as [|y b1]; cbn [app]; intros E.
  - injection E. intros <- <-. auto.
  - injection E. intros E' _. destruct b1; discriminate.
Qed.

Lemma took_single h n nq r bl' :
  took [(h, n)] nq r bl' -> nq < n ->
  r = h + (n - nq) * HSZ c + HSZ c /\ bl' = [(h, n - nq)].
Proof.
  intros (b1 & X & b2 & E & TK) Hlt.
  destruct (single_split _ _ _ _ E) as (-> & -> & ->). cbn [fst snd app] in TK.
  destruct TK as [(E1 & _) | (_ & Er & Eb)]; [lia | auto].
Qed.

(** C8. Immediate reuse: with a pool of 64 headers and carves of at least 4
    quantas, [memmgr_init], [p1 = memmgr_alloc 1], [memmgr_free p1],
    [p2 = memmgr_alloc 1] give non-null [p1] and [p2] with [p1 = p2]; each
    call returns within 5 iterations of its loops. *)
Theorem immediate_reuse s0 fuel :
  POOL_SIZE c = 64 * HSZ c -> MIN_POOL_ALLOC_QUANTAS c = 4 -> (5 <= fuel)%nat ->
  exists p1 s1 s2 p2 s3,
    memmgr_alloc c fuel 1 (memmgr_init c s0) = Some (p1, s1) /\
    memmgr_free c fuel p1 s1 = Some s2 /\
    memmgr_alloc c fuel 1 s2 = Some (p2, s3) /\
    p1 <> 0 /\ p2 <> 0 /\ p1 = p2.
Proof.
  pose proof (HSZ_ge2 c LAY) as H2.
  pose proof CFG as CFG0.
  destruct CFG0 as (_ & C1 & C2 & C3 & C4 & C5 & C6 & C7 & C8).
  intros EP EM Hfuel.
  assert (RQ : request_ok 1).
  { split; [lia|]. replace (1 + HSZ c - 1) with (1 * HSZ c) by lia.
    rewrite Z.div_mul by lia. lia. }
  assert (Q2 : quantas c 1 = 2).
  { destruct (request_ok_quantas 1 RQ) as (QE & _). rewrite QE.
    replace (1 + HSZ c - 1) with (1 * HSZ c) by lia.
    rewrite Z.div_mul by lia. reflexivity. }
  assert (CQ : carve_quantas 2 = 4).
  { unfold carve_quantas. rewrite EM. reflexivity. }
  set (si := memmgr_init c s0).
  assert (P0 : pool_free_pos (started si) = 0) by (rewrite started_pfp; reflexivity).
  (* the first allocation carves four quantas and takes the upper two *)
  destruct (alloc_room si [] (fun _ _ => False) 1 fuel (memmgr_init_Inv s0) RQ)
    as (p1 & s1 & RUN1 & OK1).
  { left. rewrite Q2, CQ. unfold si. cbn [memmgr_init pool_free_pos]. lia. }
  { cbn [length]. lia. }
  rewrite Q2 in OK1. destruct OK1 as (bl1 & bl' & ST & TK & W1 & _ & _).
  destruct ST as [(_ & _ & x & [] & _) | (_ & PF1 & _ & P & FD)].
  rewrite P0, CQ in *. replace (pool c + 0) with (pool c) in FD by lia.
  destruct FD as (l1 & l2 & pre & E & EPre & _ & _ & SH).
  symmetry in E. apply app_eq_nil in E. destruct E as (-> & ->).
  change ([] ++ [sentinel] = pre ++ [P]) in EPre.
  apply app_inj_tail in EPre. destruct EPre as (<- & <-).
  unfold link_mid in SH. cbn [sentinel fst snd app] in SH.
  destruct (Z.eqb_spec (base c + 0 * HSZ c) (pool c)) as [EB | _]; [lia|].
  cbn [fst snd app] in SH. injection SH. intros ->.
  destruct (took_single _ _ _ _ _ TK ltac:(lia)) as (R1 & ->).
  (* freeing it merges it back with the lower two *)
  assert (L1 : (fun a k : Z => False \/ a = p1 - HSZ c /\ k = 2) (p1 - HSZ c) 2)
    by (right; auto).
  destruct (memmgr_free_WF s1 _ _ (p1 - HSZ c) 2 fuel W1 L1 ltac:(cbn [length]; lia))
    as (s2 & P & bl2 & RUNF & FD & _ & PF2 & W2 & _).
  replace (p1 - HSZ c + HSZ c) with p1 in RUNF by lia.
  destruct FD as (l1 & l2 & pre & E & EPre & _ & GT & SH2).
  destruct l1 as [|y l1]; cbn [app] in E.
  { subst l2. specialize (GT _ (or_introl eq_refl)). cbn [fst] in GT. lia. }
  injection E. intros E' <-. symmetry in E'. apply app_eq_nil in E'.
  destruct E' as (-> & ->).
  change ([sentinel] ++ [(pool c, 4 - 2)] = pre ++ [P]) in EPre.
  apply app_inj_tail in EPre. destruct EPre as (<- & <-).
  unfold link_mid in SH2. cbn [fst snd app] in SH2.
  destruct (Z.eqb_spec (pool c + (4 - 2) * HSZ c) (p1 - HSZ c)) as [_ | NE]; [|lia].
  cbn [fst snd app] in SH2. injection SH2. intros ->.
  (* the second allocation finds the merged block and takes the same two *)
  destruct (alloc_room s2 _ _ 1 fuel (or_intror W2) RQ) as (p2 & s3 & RUN3 & OK3).
  { left. rewrite Q2, CQ, PF2, PF1. lia. }
  { cbn [length]. lia. }
  rewrite Q2 in OK3. destruct OK3 as (bl3 & bl4 & ST & TK3 & _).
  destruct ST as [(-> & _) | (SM & _)].
  2:{ specialize (SM _ (or_introl eq_refl)). cbn [snd] in SM. lia. }
  destruct (took_single _ _ _ _ _ TK3 ltac:(lia)) as (R3 & _).
  exists p1, s1, s2, p2, s3.
  split; [exact RUN1|]. split; [exact RUNF|]. split; [exact RUN3|]. lia.
Qed.

(** ** Every block of the carved pool is accounted for

    Beyond the claims: the carved part of the pool, [pool .. pool +
    pool_free_pos), is tiled by the free blocks and the live blocks, and a
    call touches no byte of a block that stays live. *)

(* the byte [z] belongs to a live block, header included *)
Definition in_live (live : Z -> Z -> Prop) (z : Z) : Prop :=
  exists b k, live b k /\ b <= z < b + k * HSZ c.

(* the byte [z] belongs to a block of the free list, as the program sees it *)
Definition free_byte (s : state) (z : Z) : Prop :=
  exists a, on_free_list s a /\ a <= z < a + ld_size c (mem s) a * HSZ c.

Definition tiled (s : state) (bl : list node) (live : Z -> Z -> Prop) : Prop :=
  forall z, pool c <= z < pool c + pool_free_pos s ->
            covered bl z \/ in_live live z.

Lemma WF_free_byte s bl live z : WF s bl live -> (free_byte s z <-> covered bl z).
Proof.
  intros W. split; [|apply (WF_covered_free s bl live z W)].
  intros (a & OF & Hz). apply (WF_on_free_list s bl live a W) in OF.
  destruct W as (_ & (_ & L) & _).
  unfold addrs in OF. apply in_map_iff in OF. destruct OF as (x & Ex & Hx).
  subst a. rewrite (lseg_size c _ _ _ x L Hx) in Hz.
  destruct Hx as [Hx | Hx].
  - subst x. cbn [sentinel fst snd] in Hz. lia.
  - exists x. auto.
Qed.

Lemma covered_sentinel bl z : covered (sentinel :: bl) z <-> covered bl z.
Proof. rewrite covered_cons. cbn [sentinel fst snd]. split; [intros [H | H]; [lia | exact H] | auto]. Qed.

Lemma covered_single (x : node) z :
  covered [x] z <-> fst x <= z < fst x + snd x * HSZ c.
Proof.
  rewrite covered_cons. split; [intros [H | H]; [exact H | destruct (covered_nil z H)] | auto].
Qed.

(* inserting a block adds its bytes to the free bytes, merged or not *)
Lemma link_mid_covered P l2 b n z :
  0 <= snd P -> 0 <= n -> (forall x, In x l2 -> 0 <= snd x) ->
  (covered (fst (link_mid P l2 b n) ++ snd (link_mid P l2 b n)) z <->
   covered [P] z \/ covered l2 z \/ b <= z < b + n * HSZ c).
Proof.
  pose proof (HSZ_ge2 c LAY) as H2.
  intros HP Hn HL. unfold link_mid.
  assert (PP : 0 <= snd P * HSZ c) by nia.
  assert (PN : 0 <= n * HSZ c) by nia.
  pose proof (covered_nil z) as CN.
  destruct l2 as [|Y l2'].
  - destruct (Z.eqb_spec (fst P + snd P * HSZ c) b) as [EL | NL];
      cbn [fst snd app]; rewrite ?covered_cons, ?covered_single; cbn [fst snd];
      rewrite ?Z.mul_add_distr_r; intuition lia.
  - assert (HY : 0 <= snd Y) by (apply HL; now left).
    assert (PY : 0 <= snd Y * HSZ c) by nia.
    destruct (Z.eqb_spec (b + n * HSZ c) (fst Y)) as [EU | NU];
      destruct (Z.eqb_spec (fst P + snd P * HSZ c) b) as [EL | NL];
      cbn [fst snd app]; rewrite ?covered_cons, ?covered_single; cbn [fst snd];
      rewrite ?Z.mul_add_distr_r; intuition lia.
Qed.

Lemma freed_covered bl b n P bl' z :
  freed bl b n P bl' -> 0 <= n -> (forall x, In x bl -> 0 <= snd x) ->
  (covered bl' z <-> covered bl z \/ b <= z < b + n * HSZ c).
Proof.
  intros (l1 & l2 & pre & E & EP & _ & _ & SH) Hn HB.
  assert (HP : 0 <= snd P).
  { assert (IP : In P (sentinel :: l1)) by (rewrite EP; apply in_or_app; right; now left).
    destruct IP as [<- | IP]; [cbn [sentinel snd]; lia|].
    apply HB. subst bl. apply in_or_app. now left. }
  assert (HL : forall x, In x l2 -> 0 <= snd x).
  { intros x Hx. apply HB. subst bl. apply in_or_app. now right. }
  rewrite <- (covered_sentinel bl'), SH, covered_app,
    (link_mid_covered P l2 b n z HP Hn HL).
  rewrite <- (covered_sentinel bl). subst bl.
  rewrite app_comm_cons, EP, !covered_app. tauto.
Qed.

Lemma took_covered bl nq r bl' z :
  took bl nq r bl' -> 0 <= nq ->
  (covered bl z <-> covered bl' z \/ r - HSZ c <= z < r - HSZ c + nq * HSZ c).
Proof.
  pose proof (HSZ_ge2 c LAY) as H2.
  intros (b1 & X & b2 & E & TK) Hn. subst bl.
  assert (PN : 0 <= nq * HSZ c) by nia.
  destruct TK as [(E1 & Er & ->) | (E1 & Er & ->)];
    rewrite !covered_app, !covered_cons; cbn [fst snd];
    rewrite ?Z.mul_sub_distr_r in *.
  - rewrite E1. intuition lia.
  - assert (LX : nq * HSZ c <= snd X * HSZ c) by nia. intuition lia.
Qed.

(* the bytes of the blocks of [live] are the same in [s] and in [s'] *)
Definition same_live (live : Z -> Z -> Prop) (s s' : state) : Prop :=
  forall z, in_live live z -> mem s' z = mem s z.

Lemma in_live_facts s bl live z :
  Inv s bl live -> in_live live z ->
  ~ covered bl z /\ ~ in_base z /\ pool c <= z < pool c + pool_free_pos s.
Proof.
  pose proof (HSZ_ge2 c LAY) as H2.
  pose proof CFG as CFG0.
  destruct CFG0 as (_ & C1 & C2 & C3 & C4 & C5 & C6 & C7 & C8).
  intros [(_ & _ & _ & NL) | W] (b & k & Hl & Hz); [destruct (NL _ _ Hl)|].
  destruct W as (W1 & _ & _ & _ & W5 & W6 & _).
  destruct (W5 b k Hl) as (_ & K1 & K2 & K3).
  split; [apply (W6 b k z Hl Hz)|]. split; [unfold in_base; destruct C8; lia | lia].
Qed.

Lemma in_live_add (live : Z -> Z -> Prop) a k z :
  in_live (live_add live a k) z <-> in_live live z \/ a <= z < a + k * HSZ c.
Proof.
  unfold in_live, live_add. split.
  - intros (b & n & [Hl | (-> & ->)] & Hz); [left; eauto | now right].
  - intros [(b & n & Hl & Hz) | Hz]; [exists b, n; auto | exists a, k; auto].
Qed.

Lemma WF_sizes s bl live x : WF s bl live -> In x bl -> 0 <= snd x.
Proof.
  intros (_ & _ & W3 & _) Hx. destruct (blocks_ok_in _ _ _ _ W3 Hx). lia.
Qed.

(* when no block fits and the pool cannot be carved there is no room *)
Lemma no_room s bl live nq :
  Inv s bl live -> 1 <= nq -> (forall x, In x bl -> snd x < nq) ->
  POOL_SIZE c < pool_free_pos s + carve_quantas nq * HSZ c ->
  ~ has_room s nq.
Proof.
  intros I Hq SM FULL [R1 | (a & OF & SZ)]; [lia|].
  destruct I as [(E & _) | W]; [destruct OF as (N & _); contradiction|].
  apply (WF_on_free_list s bl live a W) in OF.
  destruct W as (_ & (_ & L) & _).
  unfold addrs in OF. apply in_map_iff in OF. destruct OF as (x & Ex & Hx).
  subst a. rewrite (lseg_size c _ _ _ x L Hx) in SZ.
  destruct Hx as [Hx | Hx].
  - subst x. cbn [sentinel snd] in SZ. lia.
  - specialize (SM x Hx). lia.
Qed.

(** What [memmgr_alloc] does to a tiled state, for a request whose size
    arithmetic does not wrap. *)
Lemma alloc_full s bl live nbytes fuel r s' :
  Inv s bl live -> tiled s bl live -> request_exact nbytes ->
  memmgr_alloc c fuel nbytes s = Some (r, s') ->
  same_live live s s' /\
  ((r = 0 /\ s' = started s /\ ~ has_room s (quantas c nbytes)) \/
   (r <> 0 /\ request_ok nbytes /\ has_room s (quantas c nbytes) /\
    (forall k, ~ live (r - HSZ c) k) /\
    (pool_free_pos s' = pool_free_pos s \/
     (pool_free_pos s' = pool_free_pos s + carve_quantas (quantas c nbytes) * HSZ c /\
      ~ exists a, on_free_list s a /\ quantas c nbytes <= ld_size c (mem s) a)) /\
    exists bl',
      WF s' bl' (live_add live (r - HSZ c) (quantas c nbytes)) /\
      tiled s' bl' (live_add live (r - HSZ c) (quantas c nbytes)))).
Proof.
  pose proof (HSZ_ge2 c LAY) as H2.
  pose proof CFG as CFG0.
  destruct CFG0 as (_ & C1 & C2 & C3 & C4 & C5 & C6 & C7 & C8).
  intros I T RE RUN.
  destruct (request_exact_quantas nbytes RE) as (QE & Q1 & QW).
  set (nq := quantas c nbytes) in *.
  assert (FR0 : same_live live s (started s)).
  { intros z Hz. destruct (in_live_facts s bl live z I Hz) as (_ & NB & _).
    apply started_frame. exact NB. }
  pose proof (started_WF s bl live I) as W0.
  assert (FAILS : (forall x, In x bl -> snd x < nq) ->
                  POOL_SIZE c < pool_free_pos s + carve_quantas nq * HSZ c ->
                  (r, s') = (0, started s) ->
                  same_live live s s' /\
                  ((r = 0 /\ s' = started s /\ ~ has_room s nq) \/
                   (r <> 0 /\ request_ok nbytes /\ has_room s nq /\
                    (forall k, ~ live (r - HSZ c) k) /\
                    (pool_free_pos s' = pool_free_pos s \/
                     (pool_free_pos s' = pool_free_pos s + carve_quantas nq * HSZ c /\
                      ~ exists a, on_free_list s a /\ nq <= ld_size c (mem s) a)) /\
                    exists bl',
                      WF s' bl' (live_add live (r - HSZ c) nq) /\
                      tiled s' bl' (live_add live (r - HSZ c) nq)))).
  { intros SM FULL EQ. injection EQ. intros -> ->. split; [exact FR0|]. left.
    split; [reflexivity|]. split; [reflexivity|].
    apply (no_room s bl live nq I Q1 SM FULL). }
  assert (NOFIT : (forall x, In x bl -> snd x < nq) ->
                  ~ exists a, on_free_list s a /\ nq <= ld_size c (mem s) a).
  { intros SM (a & OF & SZ).
    destruct I as [(E & _) | W]; [destruct OF as (N & _); contradiction|].
    apply (WF_on_free_list s bl live a W) in OF.
    destruct W as (_ & (_ & L) & _).
    unfold addrs in OF. apply in_map_iff in OF. destruct OF as (x & Ex & Hx).
    subst a. rewrite (lseg_size c _ _ _ x L Hx) in SZ.
    destruct Hx as [Hx | Hx]; [subst x; cbn [sentinel snd] in SZ; lia|].
    specialize (SM x Hx). lia. }
  destruct (request_exact_cases nbytes RE) as [RQ | BIG].
  2:{ pose proof (memmgr_alloc_too_big s bl live nbytes _ I RE BIG (le_n _)) as RUN2.
      fold nq in BIG. apply FAILS.
      - destruct W0 as (W1 & _ & W3 & _). intros x Hx.
        destruct (blocks_ok_in _ _ _ _ W3 Hx). rewrite started_pfp in *. nia.
      - pose proof (carve_quantas_pos nq).
        assert (nq <= carve_quantas nq).
        { unfold carve_quantas.
          destruct (Z.ltb_spec nq (MIN_POOL_ALLOC_QUANTAS c)); lia. }
        destruct W0 as (W1 & _). rewrite started_pfp in W1. nia.
      - apply (run_op_agree fuel (length bl + 1) (OpAlloc nbytes) s); assumption. }
  destruct (request_ok_quantas nbytes RQ) as (_ & _ & Q2 & Q3 & Q4). fold nq in Q2, Q3.
  destruct (memmgr_alloc_spec s bl live nbytes (2 * length bl + 3) I Q2 (le_n _))
    as (r2 & s2 & RUN2 & OUT). fold nq in OUT.
  assert (EQ : (r, s') = (r2, s2))
    by (apply (run_op_agree fuel (2 * length bl + 3) (OpAlloc nbytes) s); assumption).
  injection EQ. intros E1 E2. subst r2 s2.
  destruct OUT as [(R0 & ES & SM & FULL) | OK].
  { apply FAILS; [exact SM | rewrite started_pfp in FULL; exact FULL | congruence]. }
  pose proof (alloc_ok_nonnull _ _ _ _ _ _ OK) as RP.
  destruct OK as (bl1 & bl' & ST & TK & W' & NL & FR).
  pose proof (started_pfp s) as SP.
  assert (SL : same_live live s s').
  { intros z Hz. destruct (in_live_facts s bl live z I Hz) as (NC & NB & Hp).
    rewrite FR; [apply FR0; exact Hz | exact NC | exact NB | lia]. }
  split; [exact SL|]. right. split; [lia|]. split; [exact RQ|].
  assert (CV1 : forall z, covered bl1 z <->
                covered bl z \/
                pool c + pool_free_pos s <= z < pool c + pool_free_pos s').
  { intros z. destruct ST as [(-> & EP & _) | (_ & EP & _ & P & FD)].
    - rewrite EP. split; [auto | intros [H | H]; [exact H | lia]].
    - rewrite (freed_covered _ _ _ _ _ z FD).
      + rewrite EP, !SP. intuition lia.
      + pose proof (carve_quantas_pos nq). lia.
      + intros x Hx. apply (WF_sizes _ _ _ x W0 Hx). }
  split; [|split; [exact NL|split]].
  - destruct ST as [(-> & EP & x & Hx & SZ) | (_ & EP & LE & _)].
    + right. destruct I as [(_ & _ & -> & _) | W]; [destruct Hx|].
      exists (fst x). split.
      * apply (WF_on_free_list s bl live _ W). apply in_addrs. now right.
      * destruct W as (_ & (_ & L) & _).
        rewrite (lseg_size c _ _ _ x L (or_intror Hx)). exact SZ.
    + left. lia.
  - destruct ST as [(_ & EP & _) | (SM & EP & _)].
    + left. lia.
    + right. split; [lia | apply NOFIT; exact SM].
  - exists bl'. split; [exact W'|].
    intros z Hz. rewrite in_live_add.
    assert (C1' : covered bl1 z \/ in_live live z).
    { destruct (Z_lt_ge_dec z (pool c + pool_free_pos s)) as [LT | GE].
      - destruct (T z ltac:(lia)) as [HC | HL]; [left; apply CV1; auto | now right].
      - left. apply CV1. right. lia. }
    destruct C1' as [HC | HL]; [|auto].
    apply (took_covered _ _ _ _ z TK ltac:(lia)) in HC. tauto.
Qed.

Lemma memmgr_free_agree f f' ap s x y :
  memmgr_free c f ap s = Some x -> memmgr_free c f' ap s = Some y -> x = y.
Proof.
  intros E1 E2.
  pose proof (memmgr_free_mono c f (Nat.max f f') ap s x E1 (Nat.le_max_l _ _)) as M1.
  pose proof (memmgr_free_mono c f' (Nat.max f f') ap s y E2 (Nat.le_max_r _ _)) as M2.
  congruence.
Qed.

(** What [memmgr_free] does to a tiled state. *)
Lemma free_full s bl live b k fuel s' :
  WF s bl live -> tiled s bl live -> live b k ->
  memmgr_free c fuel (b + HSZ c) s = Some s' ->
  pool_free_pos s' = pool_free_pos s /\
  (forall z, ~ covered bl z -> ~ in_base z -> ~ (b <= z < b + HSZ c) ->
             mem s' z = mem s z) /\
  exists bl',
    WF s' bl' (live_del live b) /\ tiled s' bl' (live_del live b) /\
    (forall z, covered bl' z <-> covered bl z \/ b <= z < b + k * HSZ c).
Proof.
  intros W T Hl RUN.
  destruct (memmgr_free_WF s bl live b k (S (length bl)) W Hl (le_n _))
    as (s2 & P & bl' & RUN2 & _ & _ & EPF & W' & CV & FR).
  assert (E : s' = s2) by (apply (memmgr_free_agree _ _ _ _ _ _ RUN RUN2)).
  subst s2. split; [exact EPF|]. split; [exact FR|].
  exists bl'. split; [exact W'|]. split; [|exact CV].
  intros z Hz. rewrite EPF in Hz.
  destruct (T z Hz) as [HC | (b' & k' & Hl' & Hz')].
  - left. apply CV. now left.
  - destruct (Z.eq_dec b' b) as [E | N].
    + subst b'. destruct W as (_ & _ & _ & _ & W5 & _).
      pose proof (proj1 (W5 b k Hl)) as S1. pose proof (proj1 (W5 b k' Hl')) as S2.
      left. apply CV. right. rewrite <- S1, S2. exact Hz'.
    + right. exists b', k'. split; [split; assumption | exact Hz'].
Qed.

Lemma tiled_set_mem s bl live m' :
  tiled s bl live -> tiled (set_mem s m') bl live.
Proof. intros T z Hz. apply T. exact Hz. Qed.

(* a block that was live before the allocation is not the new block *)
Lemma live_apart s bl (live : Z -> Z -> Prop) a n b k z :
  WF s bl (live_add live a n) -> (forall j, ~ live a j) -> live b k ->
  b <= z < b + k * HSZ c -> ~ (a <= z < a + n * HSZ c).
Proof.
  intros (_ & _ & _ & _ & _ & _ & W7) NL Hl Hz Ha.
  assert (N : a <> b) by (intros ->; apply (NL k); exact Hl).
  destruct (W7 a n b k) as [D | D]; [right; auto | left; exact Hl | exact N | lia | lia].
Qed.

(** What [memmgr_calloc] does to a tiled state. *)
Lemma calloc_full s bl live num nbytes fuel r s' :
  Inv s bl live -> tiled s bl live -> request_exact (wrap c (num * nbytes)) ->
  memmgr_calloc c fuel num nbytes s = Some (r, s') ->
  same_live live s s' /\
  exists bl',
    Inv s' bl' (live_after (OpCalloc num nbytes) r live) /\
    tiled s' bl' (live_after (OpCalloc num nbytes) r live).
Proof.
  pose proof (HSZ_ge2 c LAY) as H2.
  intros I T RE RUN. cbn [live_after]. unfold memmgr_calloc in RUN.
  set (n := wrap c (num * nbytes)) in *.
  destruct (memmgr_alloc c fuel n s) as [[p s1]|] eqn:EA; [|discriminate].
  destruct (alloc_full s bl live n fuel p s1 I T RE EA)
    as (SL & [(-> & ES & _) | (NZ & RQ & _ & NL & _ & bl' & W' & T')]).
  - cbn [Z.eqb] in RUN. injection RUN. intros <- <-. cbn [Z.eqb].
    split; [exact SL|]. exists bl. subst s1.
    split; [right; apply started_WF; exact I|].
    intros z Hz. apply T. rewrite started_pfp in Hz. exact Hz.
  - assert (E0 : (p =? 0) = false) by (apply Z.eqb_neq; exact NZ).
    rewrite E0 in RUN. injection RUN. intros <- <-. rewrite E0.
    destruct (request_ok_quantas n RQ) as (_ & Q1 & Q2 & Q3 & Q4).
    split.
    + intros z Hz. cbn [set_mem mem].
      destruct (Z.eq_dec (memset0 (mem s1) p n z) (mem s1 z)) as [E | N];
        [rewrite E; apply SL; exact Hz|].
      apply memset0_changed in N. destruct Hz as (b & k & Hl & Hz).
      exfalso. apply (live_apart s1 bl' live _ _ b k z W' NL Hl Hz). lia.
    + exists bl'. split; [|apply tiled_set_mem; exact T'].
      right. apply WF_write; [exact W'|]. intros z Hz. apply memset0_changed in Hz.
      exists (p - HSZ c), (quantas c n). split; [right; auto | lia].
Qed.

(* the blocks live before and after a call keep their bytes *)
Definition kept (live live' : Z -> Z -> Prop) (s s' : state) : Prop :=
  forall b k z, live b k -> live' b k -> b <= z < b + k * HSZ c ->
                mem s' z = mem s z.

Lemma same_live_kept live live' s s' : same_live live s s' -> kept live live' s s'.
Proof. intros SL b k z Hl _ Hz. apply SL. exists b, k. auto. Qed.

Lemma alloc_full_step s bl live nbytes fuel r s' :
  Inv s bl live -> tiled s bl live -> request_exact nbytes ->
  memmgr_alloc c fuel nbytes s = Some (r, s') ->
  same_live live s s' /\
  exists bl',
    Inv s' bl' (if r =? 0 then live
                else live_add live (r - HSZ c) (quantas c nbytes)) /\
    tiled s' bl' (if r =? 0 then live
                  else live_add live (r - HSZ c) (quantas c nbytes)).
Proof.
  intros I T RE RUN.
  destruct (alloc_full s bl live nbytes fuel r s' I T RE RUN)
    as (SL & [(-> & ES & _) | (NZ & _ & _ & _ & _ & bl' & W' & T')]).
  - split; [exact SL|]. cbn [Z.eqb]. exists bl. subst s'.
    split; [right; apply started_WF; exact I|].
    intros z Hz. apply T. rewrite started_pfp in Hz. exact Hz.
  - assert (E0 : (r =? 0) = false) by (apply Z.eqb_neq; exact NZ).
    rewrite E0. split; [exact SL|]. exists bl'. split; [right; exact W' | exact T'].
Qed.

(* the header of another live block is outside a live block *)
Lemma live_headers_apart s bl live b k b0 k0 z :
  WF s bl live -> live b k -> live b0 k0 -> b <> b0 ->
  b <= z < b + k * HSZ c -> ~ (b0 <= z < b0 + HSZ c).
Proof.
  pose proof (HSZ_ge2 c LAY) as H2.
  intros (_ & _ & _ & _ & W5 & _ & W7) Hl Hl0 N Hz Hz0.
  destruct (W5 b0 k0 Hl0) as (_ & K1 & _).
  destruct (W7 b k b0 k0 Hl Hl0 N); nia.
Qed.

(** What [memmgr_realloc] does to a tiled state. *)
Lemma realloc_full s bl live ap nbytes fuel r s' :
  Inv s bl live -> tiled s bl live -> op_ok live (OpRealloc ap nbytes) ->
  memmgr_realloc c fuel ap nbytes s = Some (r, s') ->
  kept live (live_after (OpRealloc ap nbytes) r live) s s' /\
  exists bl',
    Inv s' bl' (live_after (OpRealloc ap nbytes) r live) /\
    tiled s' bl' (live_after (OpRealloc ap nbytes) r live).
Proof.
  pose proof (HSZ_ge2 c LAY) as H2. pose proof (IMOD_pos c LAY) as HI.
  pose proof CFG as CFG0.
  destruct CFG0 as (_ & C1 & C2 & C3 & C4 & C5 & C6 & C7 & C8).
  intros I T OK RUN. cbn [live_after].
  destruct OK as [(E0 & RE) | (N0 & (k & Hl) & RQ)].
  { subst ap. cbn [Z.eqb]. unfold memmgr_realloc in RUN. cbn [Z.eqb] in RUN.
    destruct (alloc_full_step s bl live nbytes fuel r s' I T RE RUN) as (SL & EX).
    split; [apply same_live_kept; exact SL | exact EX]. }
  assert (E1 : (ap =? 0) = false) by (apply Z.eqb_neq; exact N0).
  rewrite E1.
  destruct I as [(_ & _ & _ & NL) | W]; [destruct (NL _ _ Hl)|].
  set (b := ap - HSZ c) in *.
  assert (EAP : ap = b + HSZ c) by (subst b; lia).
  pose proof W as (W1 & _ & _ & _ & W5 & W6 & W7).
  destruct (W5 b k Hl) as (Hsz & Hk & Hb & Hbk).
  assert (K1H : 1 * HSZ c <= k * HSZ c) by (apply Z.mul_le_mono_nonneg_r; lia).
  unfold memmgr_realloc in RUN. rewrite E1 in RUN. fold b in RUN.
  destruct (Z.eqb_spec nbytes 0) as [En | Nn].
  { (* realloc(p, 0) frees *)
    destruct (memmgr_free c fuel ap s) as [s1|] eqn:EF; [|discriminate].
    injection RUN. intros <- <-. rewrite EAP in EF.
    destruct (free_full s bl live b k fuel s1 W T Hl EF) as (_ & FR & bl' & W' & T' & _).
    split; [|exists bl'; split; [right; exact W' | exact T']].
    intros b' k' z Hl' (_ & N') Hz.
    destruct (in_live_facts s bl live z (or_intror W)) as (NC & NB & _);
      [exists b', k'; auto|].
    apply FR; [exact NC | exact NB |].
    apply (live_headers_apart s bl live b' k' b k z W Hl' Hl N' Hz). }
  destruct RQ as [En | RE]; [contradiction|].
  rewrite Hsz in RUN.
  destruct (Z.leb_spec (quantas c nbytes) k) as [SH | GR].
  { (* it fits in place *)
    injection RUN. intros <- <-. rewrite Z.eqb_refl.
    split; [intros b' k' z _ _ _; reflexivity|].
    exists bl. split; [right; exact W | exact T]. }
  destruct (memmgr_alloc c fuel nbytes s) as [[p s1]|] eqn:EA; [|discriminate].
  destruct (alloc_full s bl live nbytes fuel p s1 (or_intror W) T RE EA)
    as (SL & [(-> & ES & _) | (NZ & RQ & _ & NL & _ & bl1 & W1' & T1)]).
  { (* the allocation failed *)
    cbn [Z.eqb] in RUN. injection RUN. intros <- <-.
    rewrite (started_id s bl live W) in ES. subst s1.
    assert (E7 : (0 =? ap) = false) by (apply Z.eqb_neq; lia).
    rewrite E7. cbn [Z.eqb].
    split; [intros b' k' z _ _ _; reflexivity|].
    exists bl. split; [right; exact W | exact T]. }
  (* the block moves *)
  assert (E0 : (p =? 0) = false) by (apply Z.eqb_neq; exact NZ).
  rewrite E0 in RUN.
  destruct (request_ok_quantas nbytes RQ) as (_ & Q1 & Q2 & Q3 & Q4).
  set (nq := quantas c nbytes) in *.
  assert (KH : (k + 1) * HSZ c <= nq * HSZ c)
    by (apply Z.mul_le_mono_nonneg_r; lia).
  assert (SZ1 : ld_size c (mem s1) b = k).
  { rewrite <- Hsz. apply (ld_size_frame c LAY). intros z Hz. apply SL.
    exists b, k. split; [exact Hl | lia]. }
  rewrite SZ1 in RUN. rewrite (wrap_small c ((k - 1) * HSZ c)) in RUN by lia.
  set (s2 := set_mem s1 (memcpy (mem s1) p ap ((k - 1) * HSZ c))) in *.
  assert (W2' : WF s2 bl1 (live_add live (p - HSZ c) nq)).
  { apply WF_write; [exact W1'|]. intros z Hz. apply memcpy_changed in Hz.
    exists (p - HSZ c), nq. split; [right; auto | lia]. }
  assert (T2 : tiled s2 bl1 (live_add live (p - HSZ c) nq))
    by (apply tiled_set_mem; exact T1).
  assert (LB : live_add live (p - HSZ c) nq b k) by (left; exact Hl).
  destruct (memmgr_free c fuel ap s2) as [s3|] eqn:EF; [|discriminate].
  injection RUN. intros <- <-. rewrite EAP in EF.
  destruct (free_full s2 bl1 _ b k fuel s3 W2' T2 LB EF)
    as (_ & FR & bl3 & W3' & T3 & _).
  assert (NB : p - HSZ c <> b) by (intros E; apply (NL k); rewrite E; exact Hl).
  assert (E7 : (p =? ap) = false) by (apply Z.eqb_neq; lia).
  rewrite E7, E0.
  split; [|exists bl3; split; [right; exact W3' | exact T3]].
  intros b' k' z Hl' (_ & N') Hz.
  assert (LB' : live_add live (p - HSZ c) nq b' k') by (left; exact Hl').
  destruct (in_live_facts s2 bl1 _ z (or_intror W2')) as (NC & NBS & _);
    [exists b', k'; auto|].
  rewrite FR; [| exact NC | exact NBS
               | apply (live_headers_apart s2 bl1 _ b' k' b k z W2' LB' LB N' Hz)].
  subst s2. cbn [set_mem mem].
  destruct (Z.eq_dec (memcpy (mem s1) p ap ((k - 1) * HSZ c) z) (mem s1 z)) as [E | N];
    [rewrite E; apply SL; exists b', k'; auto|].
  apply memcpy_changed in N. exfalso.
  apply (live_apart s1 bl1 live _ _ b' k' z W1' NL Hl' Hz). lia.
Qed.

(* every call keeps the tiling, and the bytes of the blocks that stay live *)
Lemma step_full s bl live o fuel r s' :
  Inv s bl live -> tiled s bl live -> op_ok live o ->
  run_op fuel o s = Some (r, s') ->
  (forall b k z, live b k -> live_after o r live b k ->
     b <= z < b + k * HSZ c ->
     match o with OpWrite a _ => z <> a | _ => True end ->
     mem s' z = mem s z) /\
  exists bl', Inv s' bl' (live_after o r live) /\ tiled s' bl' (live_after o r live).
Proof.
  intros I T OK RUN. destruct o; cbn [run_op op_ok] in *.
  - (* memmgr_init *)
    injection RUN. intros <- <-. cbn [live_after]. split; [intros b k z _ []|].
    exists []. split; [apply memmgr_init_Inv|].
    intros z Hz. unfold memmgr_init in Hz. cbn [pool_free_pos] in Hz. lia.
  - (* memmgr_alloc *)
    destruct (alloc_full_step s bl live nbytes fuel r s' I T OK RUN) as (SL & EX).
    split; [|exact EX]. intros b k z Hl _ Hz _. apply SL. exists b, k. auto.
  - (* memmgr_free *)
    destruct (memmgr_free c fuel ap s) as [s1|] eqn:EF; [|discriminate].
    injection RUN. intros <- <-. cbn [live_after].
    destruct (Z.eqb_spec ap 0) as [E0 | N0].
    + subst ap. unfold memmgr_free in EF. cbn [Z.eqb] in EF. injection EF. intros <-.
      split; [intros; reflexivity | exists bl; auto].
    + destruct OK as [E | (k & Hl)]; [contradiction|].
      destruct I as [(_ & _ & _ & NL) | W]; [destruct (NL _ _ Hl)|].
      replace ap with (ap - HSZ c + HSZ c) in EF by lia.
      destruct (free_full s bl live (ap - HSZ c) k fuel s1 W T Hl EF)
        as (_ & FR & bl' & W' & T' & _).
      split; [|exists bl'; split; [right; exact W' | exact T']].
      intros b' k' z Hl' (_ & N') Hz _.
      destruct (in_live_facts s bl live z (or_intror W)) as (NC & NB & _);
        [exists b', k'; auto|].
      apply FR; [exact NC | exact NB |].
      apply (live_headers_apart s bl live b' k' _ k z W Hl' Hl N' Hz).
  - (* memmgr_realloc *)
    destruct (realloc_full s bl live ap nbytes fuel r s' I T OK RUN) as (KP & EX).
    split; [|exact EX]. intros b k z Hl Hl' Hz _. apply (KP b k z Hl Hl' Hz).
  - (* memmgr_calloc *)
    destruct (calloc_full s bl live num nbytes fuel r s' I T OK RUN) as (SL & EX).
    split; [|exact EX]. intros b k z Hl _ Hz _. apply SL. exists b, k. auto.
  - (* a store of the caller *)
    injection RUN. intros <- <-. cbn [live_after]. split.
    + intros b k z _ _ _ N. cbn [set_mem mem]. unfold upd.
      destruct (Z.eqb_spec z a); [contradiction | reflexivity].
    + destruct I as [(_ & _ & _ & NL) | W].
      * destruct OK as (b & k & Hl & _). destruct (NL _ _ Hl).
      * exists bl. split; [|apply tiled_set_mem; exact T].
        right. apply WF_write; [exact W|].
        intros z Hz. apply upd_changed in Hz. subst z. exact OK.
Qed.

Lemma reachable_full s live :
  reachable s live -> exists bl, Inv s bl live /\ tiled s bl live.
Proof.
  induction 1 as [s0 | s live o fuel r s' RS (bl & I & T) OK RUN].
  - exists []. split; [apply memmgr_init_Inv|].
    intros z Hz. unfold memmgr_init in Hz. cbn [pool_free_pos] in Hz. lia.
  - destruct (step_full s bl live o fuel r s' I T OK RUN) as (_ & bl' & I' & T').
    exists bl'. auto.
Qed.

(** ** Further properties of the calls *)

(** X1. The carved part of the pool is partitioned: in a state reached by
    calls, every byte of [pool .. pool + pool_free_pos) belongs to a block of
    the free list or to a live block, never to both, and no free or live
    block has a byte outside that range. *)
Theorem pool_partition s live :
  reachable s live ->
  forall z,
    (pool c <= z < pool c + pool_free_pos s <-> free_byte s z \/ in_live live z) /\
    ~ (free_byte s z /\ in_live live z).
Proof.
  intros RS z. destruct (reachable_full s live RS) as (bl & I & T).
  destruct I as [(E0 & EP & _ & NL) | W].
  - assert (NF : ~ free_byte s z) by (intros (a & (N & _) & _); contradiction).
    assert (NI : ~ in_live live z) by (intros (b & k & Hl & _); apply (NL _ _ Hl)).
    split; [|tauto]. rewrite EP. split; [lia | tauto].
  - pose proof (WF_free_byte s bl live z W) as FB.
    split; [split|].
    + intros Hz. rewrite FB. apply T. exact Hz.
    + intros [HF | HL].
      * apply FB in HF. destruct HF as (x & Hx & Hz).
        destruct W as (_ & _ & W3 & _). destruct (blocks_ok_in _ _ _ _ W3 Hx). lia.
      * apply (in_live_facts s bl live z (or_intror W) HL).
    + intros (HF & HL). apply FB in HF.
      destruct (in_live_facts s bl live z (or_intror W) HL) as (NC & _). tauto.
Qed.

(** X2. A call touches no byte of a block that stays live: in a state
    reached from [memmgr_init] by calls whose size arithmetic does not wrap
    around the size type, for a call given a null or live pointer and a size
    whose arithmetic does not wrap either, a block live before and after the
    call has the same bytes, header and payload, after it, except the byte a
    store of the caller into a live payload writes. *)
Theorem calls_keep_live_blocks s live o fuel r s' b k z :
  reachable s live -> op_ok live o -> run_op fuel o s = Some (r, s') ->
  live b k -> live_after o r live b k -> b <= z < b + k * HSZ c ->
  match o with OpWrite a _ => z <> a | _ => True end ->
  mem s' z = mem s z.
Proof.
  intros RS OK RUN Hl Hl' Hz NW. destruct (reachable_full s live RS) as (bl & I & T).
  destruct (step_full s bl live o fuel r s' I T OK RUN) as (KP & _).
  apply (KP b k z Hl Hl' Hz NW).
Qed.

(** X3. The block of a successful [memmgr_alloc]: in a state reached from
    [memmgr_init] by calls whose size arithmetic does not wrap around the
    size type, for a request whose size arithmetic does not wrap either, a
    non-null pointer returned lies at least one header into the pool, the
    header before it records the quantized size, the payload has room for
    [nbytes] bytes and ends inside the carved part of the pool, and the block
    overlaps no block that was live. *)
Theorem alloc_block_is_safe s live nbytes fuel r s' :
  reachable s live -> request_exact nbytes ->
  memmgr_alloc c fuel nbytes s = Some (r, s') -> r <> 0 ->
  pool c + HSZ c <= r /\
  ld_size c (mem s') (r - HSZ c) = quantas c nbytes /\
  nbytes <= (quantas c nbytes - 1) * HSZ c /\
  r + (quantas c nbytes - 1) * HSZ c <= pool c + pool_free_pos s' /\
  pool_free_pos s' <= POOL_SIZE c /\
  (forall b k, live b k ->
     b + k * HSZ c <= r - HSZ c \/ r - HSZ c + quantas c nbytes * HSZ c <= b).
Proof.
  pose proof (HSZ_ge2 c LAY) as H2.
  intros RS RE RUN NZ. destruct (reachable_full s live RS) as (bl & I & T).
  destruct (alloc_full s bl live nbytes fuel r s' I T RE RUN)
    as (_ & [(E & _) | (_ & RQ & _ & NL & _ & bl' & W' & _)]); [contradiction|].
  destruct (request_ok_quantas nbytes RQ) as (_ & Q1 & Q2 & Q3 & Q4).
  destruct W' as (W1 & _ & _ & _ & W5 & _ & W7).
  destruct (W5 (r - HSZ c) (quantas c nbytes)) as (SZ & _ & K2 & K3); [right; auto|].
  split; [lia|]. split; [exact SZ|]. split; [exact Q3|]. split; [lia|].
  split; [lia|]. intros b k Hl.
  assert (N : r - HSZ c <> b) by (intros E; apply (NL k); rewrite E; exact Hl).
  destruct (W7 (r - HSZ c) (quantas c nbytes) b k) as [D | D];
    [right; auto | left; exact Hl | exact N | right; exact D | left; exact D].
Qed.

(** X4. Exhaustion: in a state reached from [memmgr_init] by calls whose
    size arithmetic does not wrap around the size type, [memmgr_alloc] of a
    request whose size arithmetic does not wrap either returns, and it
    returns none exactly when no block of the free list is large enough and
    the pool cannot be carved for it; then pool cursor and every byte outside
    the sentinel are as before, and the whole state is as before once
    [freep] is not null (the first call after [memmgr_init] sets up the
    sentinel). *)
Theorem alloc_fails_iff_no_room s live nbytes :
  reachable s live -> request_exact nbytes ->
  exists f0, forall fuel, (f0 <= fuel)%nat ->
    exists r s',
      memmgr_alloc c fuel nbytes s = Some (r, s') /\
      (r = 0 <-> ~ has_room s (quantas c nbytes)) /\
      (r = 0 -> s' = started s /\ pool_free_pos s' = pool_free_pos s /\
                (freep s <> 0 -> s' = s) /\
                (forall z, ~ in_base z -> mem s' z = mem s z)).
Proof.
  intros RS RE. destruct (reachable_full s live RS) as (bl & I & T).
  exists (2 * length bl + 4)%nat. intros fuel Hfuel.
  destruct (memmgr_alloc_total s bl live nbytes fuel I Hfuel) as (r & s' & RUN & _).
  exists r, s'. split; [exact RUN|].
  destruct (alloc_full s bl live nbytes fuel r s' I T RE RUN)
    as (_ & [(E & ES & NR) | (NZ & _ & HR & _)]).
  - split; [tauto|]. intros _. split; [exact ES|]. subst s'.
    split; [apply started_pfp|]. split; [|intros z; apply started_frame].
    intros N. unfold started. apply Z.eqb_neq in N. now rewrite N.
  - split; [tauto | contradiction].
Qed.



Lemma run_op_returns s live o :
  reachable s live -> op_ok live o ->
  exists f0, forall fuel, (f0 <= fuel)%nat ->
    exists r s', run_op fuel o s = Some (r, s').
Proof.
  pose proof (HSZ_ge2 c LAY) as H2.
  intros RS OK. destruct (reachable_Inv s live RS) as (bl & I).
  assert (AL : forall n fuel, (2 * length bl + 4 <= fuel)%nat ->
                 exists r s', memmgr_alloc c fuel n s = Some (r, s')).
  { intros n fuel Hfuel.
    destruct (memmgr_alloc_total s bl live n fuel I Hfuel) as (r & s' & E & _). eauto. }
  assert (FR : forall b k fuel, live b k -> (2 * length bl + 4 <= fuel)%nat ->
                 exists s', memmgr_free c fuel (b + HSZ c) s = Some s').
  { intros b k fuel Hl Hfuel.
    destruct I as [(_ & _ & _ & NL) | W]; [destruct (NL _ _ Hl)|].
    destruct (memmgr_free_WF s bl live b k fuel W Hl ltac:(lia)) as (s' & _ & _ & E & _).
    eauto. }
  exists (2 * length bl + 4)%nat. intros fuel Hfuel.
  destruct o; cbn [run_op op_ok] in *.
  - eauto.
  - apply AL. exact Hfuel.
  - destruct OK as [-> | (k & Hl)].
    + unfold memmgr_free. cbn [Z.eqb]. eauto.
    + destruct (FR _ k fuel Hl Hfuel) as (s' & E).
      replace (ap - HSZ c + HSZ c) with ap in E by lia. rewrite E. eauto.
  - destruct OK as [(-> & _) | (N0 & (k & Hl) & RQ)].
    + unfold memmgr_realloc. cbn [Z.eqb]. apply AL. exact Hfuel.
    + destruct I as [(_ & _ & _ & NL) | W]; [destruct (NL _ _ Hl)|].
      pose proof W as (_ & _ & _ & _ & W5 & _).
      destruct (W5 _ _ Hl) as (Hsz & K1 & K2 & K3).
      assert (E1 : (ap =? 0) = false) by (apply Z.eqb_neq; exact N0).
      unfold memmgr_realloc. rewrite E1.
      destruct (Z.eqb_spec nbytes 0) as [En | Nn].
      * destruct (FR _ k fuel Hl Hfuel) as (s' & E).
        replace (ap - HSZ c + HSZ c) with ap in E by lia. rewrite E. eauto.
      * destruct RQ as [En | RE]; [contradiction|]. rewrite Hsz.
        destruct (Z.leb_spec (quantas c nbytes) k) as [SH | GR]; [eauto|].
        destruct (request_exact_cases nbytes RE) as [RQ | BIG].
        -- destruct (realloc_grow_spec s bl live (ap - HSZ c) k nbytes fuel W Hl Nn RQ
                       GR ltac:(lia)) as (r & s1 & s' & _ & RR & _).
           replace (ap - HSZ c + HSZ c) with ap in RR by lia.
           unfold memmgr_realloc in RR. rewrite E1 in RR.
           assert (E2 : (nbytes =? 0) = false) by (apply Z.eqb_neq; exact Nn).
           rewrite E2, Hsz in RR.
           assert (E3 : (quantas c nbytes <=? k) = false) by (apply Z.leb_gt; exact GR).
           rewrite E3 in RR. rewrite RR. eauto.
        -- rewrite (memmgr_alloc_too_big s bl live nbytes fuel (or_intror W) RE BIG
                      ltac:(lia)).
           cbn [Z.eqb]. eauto.
  - unfold memmgr_calloc.
    destruct (AL (wrap c (num * nbytes)) fuel Hfuel) as (r & s' & E). rewrite E.
    destruct (r =? 0); eauto.
  - eauto.
Qed.

(** X7. Every call the interface allows returns: in a state reached from
    [memmgr_init] by calls whose size arithmetic does not wrap around the
    size type, each of [memmgr_init], [memmgr_alloc], [memmgr_free],
    [memmgr_realloc] and [memmgr_calloc], given a null or live pointer and a
    size whose arithmetic does not wrap either, comes back once its loops are
    given enough iterations. *)
Theorem calls_return s live o :
  reachable s live -> op_ok live o ->
  exists f0, forall fuel, (f0 <= fuel)%nat ->
    exists r s', run_op fuel o s = Some (r, s').
Proof. exact (run_op_returns s live o). Qed.

(** X8. The pool carve: in a state reached from [memmgr_init] by calls
    whose size arithmetic does not wrap around the size type and in which the
    free list exists, [get_mem_from_pool], called (as [memmgr_alloc] does)
    with a request that fits the pool, returns: either the pool is too full
    for [max nquantas MIN_POOL_ALLOC_QUANTAS] more headers and it returns
    null leaving the state as it is, or it advances the cursor by exactly
    that many headers, makes exactly the carved bytes free bytes, touches no
    live block and returns the new [freep], which is not null. *)
Theorem get_mem_from_pool_contract s live nq :
  reachable s live -> freep s <> 0 -> 1 <= nq -> nq * HSZ c <= POOL_SIZE c ->
  exists f0, forall fuel, (f0 <= fuel)%nat ->
    exists r s',
      get_mem_from_pool c fuel nq s = Some (r, s') /\
      ((POOL_SIZE c < pool_free_pos s + carve_quantas nq * HSZ c /\
        r = 0 /\ s' = s) \/
       (pool_free_pos s + carve_quantas nq * HSZ c <= POOL_SIZE c /\
        r <> 0 /\ r = freep s' /\
        pool_free_pos s' = pool_free_pos s + carve_quantas nq * HSZ c /\
        (forall z, free_byte s' z <->
                   free_byte s z \/
                   pool c + pool_free_pos s <= z < pool c + pool_free_pos s') /\
        same_live live s s')).
Proof.
  pose proof (HSZ_ge2 c LAY) as H2.
  intros RS FP N1 NP. destruct (reachable_Inv s live RS) as (bl & I).
  destruct I as [(E & _) | W]; [contradiction|].
  exists (S (length bl)). intros fuel Hfuel.
  destruct (get_mem_from_pool_WF s bl live nq fuel W N1 NP ltac:(lia))
    as [(G & E) | (G & s2 & P & bl' & E & EF & _ & EP & W' & CV & FR)].
  - exists 0, s. split; [exact E|]. left. auto.
  - exists (fst P), s2. split; [exact E|]. right.
    pose proof (WF_freep_pos s2 bl' live W') as FP'.
    split; [exact G|]. split; [lia|]. split; [auto|]. split; [exact EP|]. split.
    + intros z. rewrite (WF_free_byte s2 bl' live z W'), (WF_free_byte s bl live z W).
      rewrite (CV z), EP. intuition lia.
    + intros z Hz.
      destruct (in_live_facts s bl live z (or_intror W) Hz) as (NC & NB & Hp).
      apply FR; [exact NC | exact NB | lia].
Qed.

(** X9. The first allocation after [memmgr_init], whatever the state
    [memmgr_init] was called in: [memmgr_alloc] of a request that fits the
    pool returns within three iterations. When
    [max nquantas MIN_POOL_ALLOC_QUANTAS] headers fit the pool it carves that
    many at the start of the pool and returns the last [nquantas] of them;
    when they do not, it returns null and the cursor stays 0. *)
Theorem first_alloc_address s0 nbytes fuel :
  request_ok nbytes -> (3 <= fuel)%nat ->
  exists r s',
    memmgr_alloc c fuel nbytes (memmgr_init c s0) = Some (r, s') /\
    (carve_quantas (quantas c nbytes) * HSZ c <= POOL_SIZE c ->
     r = pool c + (carve_quantas (quantas c nbytes) - quantas c nbytes) * HSZ c
         + HSZ c /\
     pool_free_pos s' = carve_quantas (quantas c nbytes) * HSZ c) /\
    (POOL_SIZE c < carve_quantas (quantas c nbytes) * HSZ c ->
     r = 0 /\ pool_free_pos s' = 0).
Proof.
  pose proof (HSZ_ge2 c LAY) as H2.
  pose proof CFG as CFG0.
  destruct CFG0 as (_ & C1 & C2 & C3 & C4 & C5 & C6 & C7 & C8).
  intros RQ Hfuel.
  destruct (request_ok_quantas nbytes RQ) as (_ & Q1 & Q2 & _).
  set (nq := quantas c nbytes) in *.
  set (si := memmgr_init c s0) in *.
  assert (P0 : pool_free_pos (started si) = 0) by (rewrite started_pfp; reflexivity).
  destruct (memmgr_alloc_spec si [] (fun _ _ => False) nbytes fuel
              (memmgr_init_Inv s0) Q2 ltac:(cbn [length]; lia))
    as (r & s' & RUN & OUT).
  fold nq in OUT. exists r, s'. split; [exact RUN|].
  destruct OUT as [(E & ES & _ & FULL) | OK].
  - rewrite P0 in FULL. split; [intros CF; lia|].
    intros _. split; [exact E|]. rewrite ES. exact P0.
  - destruct OK as (bl1 & bl' & ST & TK & _).
    destruct ST as [(_ & _ & x & [] & _) | (_ & PF1 & PF2 & P & FD)].
    rewrite P0 in *. split; [|intros CF; lia]. intros _.
    replace (pool c + 0) with (pool c) in FD by lia.
    destruct FD as (l1 & l2 & pre & E & EPre & _ & _ & SH).
    symmetry in E. apply app_eq_nil in E. destruct E as (-> & ->).
    change ([] ++ [sentinel] = pre ++ [P]) in EPre.
    apply app_inj_tail in EPre. destruct EPre as (<- & <-).
    unfold link_mid in SH. cbn [sentinel fst snd app] in SH.
    destruct (Z.eqb_spec (base c + 0 * HSZ c) (pool c)) as [EB | _]; [lia|].
    cbn [fst snd app] in SH. injection SH. intros ->.
    destruct TK as (b1 & X & b2 & E & TK).
    destruct (single_split _ _ _ _ E) as (-> & -> & ->). cbn [fst snd app] in TK.
    split; [|lia].
    destruct TK as [(E1 & Er & _) | (_ & Er & _)]; [rewrite E1, Er; lia | exact Er].
Qed.

(** ** memmgr_print_stats

    The body compiled under DEBUG_MEMMGR_SUPPORT_STATS; the lines it prints
    are the result, one constructor for each [printf] of the source. *)

Inductive line : Type :=
| LTitle                                  (* ------ Memory manager stats ------ *)
| LPool (free_pos bytes_left : Z)         (* Pool: free_pos = .. (.. bytes left) *)
| LBlock (addr size : Z)                  (*   * Addr: ..; Size: .. *)
| LFreeTitle                              (* Free list: *)
| LFree (addr size next : Z)              (*   * Addr: ..; Size: ..; Next: .. *)
| LEmpty                                  (* Empty *)
| LEnd.                                   (* the closing newline *)

(* while (p < pool + pool_free_pos) { printf(..); p += p->s.size; } *)
Fixpoint stats_pool (fuel : nat) (m : memory) (p lim : Z) : option (list line) :=
  match fuel with
  | O => None
  | S f =>
      if p <? lim then
        match stats_pool f m (p + ld_size c m p * HSZ c) lim with
        | None => None
        | Some l => Some (LBlock p (ld_size c m p) :: l)
        end
      else Some []
  end.

(* while (1) { printf(..); p = p->s.next; if (p == freep) break; } *)
Fixpoint stats_free (fuel : nat) (m : memory) (p stop : Z) : option (list line) :=
  match fuel with
  | O => None
  | S f =>
      let e := LFree p (ld_size c m p) (ld_next c m p) in
      if ld_next c m p =? stop then Some [e]
      else
        match stats_free f m (ld_next c m p) stop with
        | None => None
        | Some l => Some (e :: l)
        end
  end.

Definition memmgr_print_stats (fuel : nat) (s : state) : option (list line) :=
  match stats_pool fuel (mem s) (pool c) (pool c + pool_free_pos s) with
  | None => None
  | Some bs =>
      match (if freep s =? 0 then Some [LEmpty]
             else stats_free fuel (mem s) (freep s) (freep s)) with
      | None => None
      | Some fs =>
          Some (LTitle
                :: LPool (pool_free_pos s) (wrap c (POOL_SIZE c - pool_free_pos s))
                :: bs ++ LFreeTitle :: fs ++ [LEnd])
      end
  end.

(* blocks that follow each other from [lo] to [hi] *)
Fixpoint chain (lo hi : Z) (l : list node) : Prop :=
  match l with
  | [] => lo = hi
  | x :: r => fst x = lo /\ 1 <= snd x /\ chain (lo + snd x * HSZ c) hi r
  end.

Definition block_line (x : node) : line := LBlock (fst x) (snd x).

(* a block of the pool: on the free list, or live *)
Definition gblock (bl : list node) (live : Z -> Z -> Prop) (x : node) : Prop :=
  In x bl \/ live (fst x) (snd x).

Lemma gblock_facts s bl live x :
  WF s bl live -> gblock bl live x ->
  pool c <= fst x /\ 1 <= snd x /\
  fst x + snd x * HSZ c <= pool c + pool_free_pos s /\
  ld_size c (mem s) (fst x) = snd x.
Proof.
  intros (_ & (_ & L) & W3 & _ & W5 & _) [Hx | Hl].
  - destruct (blocks_ok_in _ _ _ _ W3 Hx) as (B1 & B2 & B3).
    split; [exact B1|]. split; [exact B2|]. split; [exact B3|].
    apply (lseg_size c _ _ _ x L (or_intror Hx)).
  - destruct (W5 _ _ Hl) as (S1 & K1 & K2 & K3). auto.
Qed.

Lemma gblock_byte s bl live z :
  tiled s bl live -> pool c <= z < pool c + pool_free_pos s ->
  exists x, gblock bl live x /\ fst x <= z < fst x + snd x * HSZ c.
Proof.
  intros T Hz. destruct (T z Hz) as [(x & Hx & Hc) | (b & k & Hl & Hc)].
  - exists x. split; [now left | exact Hc].
  - exists (b, k). split; [right; exact Hl | exact Hc].
Qed.

Lemma gblock_same s bl live x y z :
  WF s bl live -> gblock bl live x -> gblock bl live y ->
  fst x <= z < fst x + snd x * HSZ c -> fst y <= z < fst y + snd y * HSZ c ->
  x = y.
Proof.
  intros W Gx Gy Hx Hy. pose proof W as (_ & _ & W3 & _ & W5 & W6 & W7).
  destruct Gx as [Bx | Lx]; destruct Gy as [By | Ly].
  - destruct (node_eq_dec x y) as [E | N]; [exact E|].
    destruct (blocks_sep _ _ bl x y W3 Bx By N); lia.
  - exfalso. apply (W6 _ _ z Ly Hy). exists x. auto.
  - exfalso. apply (W6 _ _ z Lx Hx). exists y. auto.
  - destruct (Z.eq_dec (fst x) (fst y)) as [E | N].
    + pose proof (proj1 (W5 _ _ Lx)) as S1. pose proof (proj1 (W5 _ _ Ly)) as S2.
      rewrite E in S1. destruct x, y. cbn [fst snd] in *. congruence.
    + destruct (W7 _ _ _ _ Lx Ly N); lia.
Qed.

(* where a block ends, or at the start of the pool, a block begins *)
Definition boundary (bl : list node) (live : Z -> Z -> Prop) (p : Z) : Prop :=
  p = pool c \/ exists y, gblock bl live y /\ p = fst y + snd y * HSZ c.

Lemma gblock_start s bl live p :
  WF s bl live -> tiled s bl live -> boundary bl live p ->
  pool c <= p < pool c + pool_free_pos s ->
  exists x, gblock bl live x /\ fst x = p.
Proof.
  pose proof (HSZ_ge2 c LAY) as H2.
  intros W T B Hp. destruct (gblock_byte s bl live p T Hp) as (x & Gx & Hx).
  exists x. split; [exact Gx|].
  destruct (Z.eq_dec (fst x) p) as [E | N]; [exact E | exfalso].
  destruct (gblock_facts s bl live x W Gx) as (X1 & X2 & X3 & _).
  destruct B as [-> | (y & Gy & ->)]; [lia|].
  destruct (gblock_facts s bl live y W Gy) as (Y1 & Y2 & Y3 & _).
  assert (YH : 1 * HSZ c <= snd y * HSZ c) by (apply Z.mul_le_mono_nonneg_r; lia).
  assert (E : x = y).
  { apply (gblock_same s bl live x y (fst y + snd y * HSZ c - 1) W Gx Gy); lia. }
  subst y. lia.
Qed.

Lemma stats_pool_walk s bl live :
  WF s bl live -> tiled s bl live ->
  forall n p fuel,
    boundary bl live p -> pool c <= p <= pool c + pool_free_pos s ->
    pool c + pool_free_pos s - p <= Z.of_nat n -> (S n <= fuel)%nat ->
    exists l,
      stats_pool fuel (mem s) p (pool c + pool_free_pos s) = Some (map block_line l) /\
      chain p (pool c + pool_free_pos s) l /\
      (forall x, In x l -> gblock bl live x).
Proof.
  pose proof (HSZ_ge2 c LAY) as H2.
  intros W T. induction n as [|n IH]; intros p fuel B Hp Hn Hfuel;
    (destruct fuel as [|f]; [lia|]); cbn [stats_pool].
  - destruct (Z.ltb_spec p (pool c + pool_free_pos s)); [lia|].
    exists []. split; [reflexivity|]. split; [cbn; lia | intros x []].
  - destruct (Z.ltb_spec p (pool c + pool_free_pos s)) as [LT | GE].
    + destruct (gblock_start s bl live p W T B ltac:(lia)) as (x & Gx & Ex).
      destruct (gblock_facts s bl live x W Gx) as (X1 & X2 & X3 & X4).
      assert (XH : 1 * HSZ c <= snd x * HSZ c) by (apply Z.mul_le_mono_nonneg_r; lia).
      subst p. rewrite X4.
      destruct (IH (fst x + snd x * HSZ c) f) as (l & RUN & CH & GL);
        [right; exists x; auto | lia | lia | lia |].
      rewrite RUN. exists (x :: l). split; [reflexivity|].
      split; [cbn [chain]; auto|]. intros y [<- | Hy]; auto.
    + exists []. split; [reflexivity|]. split; [cbn; lia | intros x []].
Qed.

Lemma chain_cover : forall l lo hi z,
  chain lo hi l -> lo <= z < hi ->
  exists x, In x l /\ fst x <= z < fst x + snd x * HSZ c.
Proof.
  induction l as [|x r IH]; cbn [chain]; intros lo hi z CH Hz; [lia|].
  destruct CH as (E & K & CH).
  destruct (Z_lt_ge_dec z (lo + snd x * HSZ c)) as [LT | GE].
  - exists x. split; [now left | lia].
  - destruct (IH _ _ z CH ltac:(lia)) as (y & Hy & Hc). exists y. split; [now right | exact Hc].
Qed.

Definition free_line (m : memory) (x : node) : line :=
  LFree (fst x) (snd x) (ld_next c m (fst x)).

Lemma stats_free_lseg m stop : forall R fuel,
  R <> [] -> lseg c m R stop -> (forall x, In x (tl R) -> fst x <> stop) ->
  (length R <= fuel)%nat ->
  stats_free fuel m (entry R stop) stop = Some (map (free_line m) R).
Proof.
  induction R as [|x r IH]; intros fuel NE L ND Hfuel; [congruence|].
  destruct fuel as [|f]; [cbn [length] in Hfuel; lia|].
  cbn [stats_free entry]. simpl in L. destruct L as (Hs & Hn & L).
  cbn [map]. unfold free_line at 1. rewrite Hs, Hn.
  destruct r as [|y r'].
  - cbn [entry]. rewrite Z.eqb_refl. reflexivity.
  - cbn [entry]. cbn [tl] in ND.
    assert (E : (fst y =? stop) = false)
      by (apply Z.eqb_neq; apply ND; now left).
    rewrite E.
    assert (RUN : stats_free f m (entry (y :: r') stop) stop =
                  Some (map (free_line m) (y :: r'))).
    { apply IH; [discriminate | exact L | | cbn [length] in *; lia].
      intros z Hz. apply ND. cbn [tl] in Hz. now right. }
    cbn [entry] in RUN. rewrite RUN. reflexivity.
Qed.

Lemma hfar_NoDup R : hfar c R -> NoDup (addrs R).
Proof.
  pose proof (HSZ_ge2 c LAY) as H2.
  induction R as [|x r IH]; cbn [hfar addrs map]; intros HF; [constructor|].
  destruct HF as (FA & HF). constructor; [|apply IH; exact HF].
  intros Hin. apply in_map_iff in Hin. destruct Hin as (y & Ey & Hy).
  unfold far_all in FA. rewrite Forall_forall in FA. specialize (FA y Hy).
  unfold far in FA. lia.
Qed.

(* the free list, read from [freep] around *)
Lemma WF_ring_from_freep s bl live :
  WF s bl live ->
  exists R,
    ring c (mem s) R /\ entry R 0 = freep s /\ hfar c R /\
    length R = S (length bl) /\
    (forall x, In x R <-> In x (sentinel :: bl)).
Proof.
  intros (W1 & W2 & W3 & W4 & _).
  assert (HH : hfar c (sentinel :: bl)) by (apply (canon_hfar _ bl W3); lia).
  unfold addrs in W4. apply in_map_iff in W4. destruct W4 as (F & EF & HF).
  destruct (in_split F _ HF) as (q1 & q2 & E). rewrite E in *.
  exists ((F :: q2) ++ q1).
  split; [apply (ring_rot c); [exact W2 | discriminate]|].
  split; [exact EF|]. split; [apply (hfar_rot c); exact HH|]. split.
  - apply (f_equal (@length node)) in E. rewrite length_app in *.
    cbn [length] in *. lia.
  - intros x. rewrite !in_app_iff. cbn [In]. tauto.
Qed.

Lemma stats_free_ring s bl live fuel :
  WF s bl live -> (S (length bl) <= fuel)%nat ->
  exists R,
    stats_free fuel (mem s) (freep s) (freep s) = Some (map (free_line (mem s)) R) /\
    ring c (mem s) R /\ entry R 0 = freep s /\ NoDup (addrs R) /\
    length R = S (length bl) /\
    (forall a, In a (addrs R) <-> on_free_list s a).
Proof.
  pose proof (HSZ_ge2 c LAY) as H2.
  intros W Hfuel. destruct (WF_ring_from_freep s bl live W) as (R & RG & ER & HF & LR & IR).
  exists R. pose proof RG as (NE & L).
  split; [|split; [exact RG|split; [exact ER|split; [apply hfar_NoDup; exact HF|split]]]].
  - rewrite ER in L. rewrite <- ER at 1.
    rewrite (entry_nonempty R 0 (freep s) NE).
    apply stats_free_lseg; [exact NE | exact L | | lia].
    destruct R as [|x r]; [congruence|]. cbn [tl entry] in *.
    destruct HF as (FA & _). intros y Hy.
    unfold far_all in FA. rewrite Forall_forall in FA. specialize (FA y Hy).
    unfold far in FA. lia.
  - exact LR.
  - intros a. rewrite (WF_on_free_list s bl live a W). unfold addrs.
    rewrite !in_map_iff. split; intros (x & Ex & Hx); exists x; split; auto;
      apply IR; exact Hx.
Qed.

(* what memmgr_print_stats prints in a state reached by calls *)
Lemma print_stats_run s live :
  reachable s live ->
  exists f0, forall fuel, (f0 <= fuel)%nat ->
    exists l fs,
      memmgr_print_stats fuel s =
        Some (LTitle :: LPool (pool_free_pos s) (POOL_SIZE c - pool_free_pos s)
              :: map block_line l ++ LFreeTitle :: fs ++ [LEnd]) /\
      chain (pool c) (pool c + pool_free_pos s) l /\
      (forall a n, In (a, n) l <->
         live a n \/
         (on_free_list s a /\ a <> base c /\ ld_size c (mem s) a = n)) /\
      (freep s = 0 -> fs = [LEmpty]) /\
      (freep s <> 0 ->
       exists R,
         fs = map (free_line (mem s)) R /\ ring c (mem s) R /\
         entry R 0 = freep s /\ NoDup (addrs R) /\
         (forall a, In a (addrs R) <-> on_free_list s a)).
Proof.
  pose proof (HSZ_ge2 c LAY) as H2. pose proof (IMOD_pos c LAY) as HI.
  pose proof CFG as CFG0.
  destruct CFG0 as (_ & C1 & C2 & C3 & C4 & C5 & C6 & C7 & C8).
  intros RS. destruct (reachable_full s live RS) as (bl & I & T).
  destruct I as [(E0 & EP & _ & NL) | W].
  - (* nothing allocated since memmgr_init *)
    exists 1%nat. intros fuel Hfuel. destruct fuel as [|f]; [lia|].
    exists [], [LEmpty]. unfold memmgr_print_stats. cbn [stats_pool].
    rewrite EP, E0. replace (pool c + 0) with (pool c) by lia.
    rewrite Z.ltb_irrefl. cbn [Z.eqb map app].
    rewrite (wrap_small c) by lia. replace (POOL_SIZE c - 0) with (POOL_SIZE c) by lia.
    split; [reflexivity|]. split; [cbn; lia|]. split; [|split; [auto | congruence]].
    intros a n. split; [intros [] | intros [Hl | ((N & _) & _)]];
      [destruct (NL _ _ Hl) | contradiction].
  - pose proof W as (W1 & (_ & L) & W3 & _).
    pose proof (WF_freep_pos s bl live W) as FP.
    exists (S (Z.to_nat (pool_free_pos s)) + S (length bl))%nat. intros fuel Hfuel.
    destruct (stats_pool_walk s bl live W T (Z.to_nat (pool_free_pos s)) (pool c) fuel)
      as (l & RUNP & CH & GL); [now left | lia | lia | lia |].
    destruct (stats_free_ring s bl live fuel W ltac:(lia))
      as (R & RUNF & RG & ER & ND & _ & IR).
    exists l, (map (free_line (mem s)) R). unfold memmgr_print_stats.
    rewrite RUNP. assert (E0 : (freep s =? 0) = false) by (apply Z.eqb_neq; lia).
    rewrite E0, RUNF. rewrite (wrap_small c) by lia.
    split; [reflexivity|]. split; [exact CH|]. split; [|split; [lia|]].
    + intros a n. split.
      * intros Hin. destruct (GL _ Hin) as [Hb | Hl]; [right | left; exact Hl].
        cbn [fst snd] in *. split; [|split].
        -- apply (WF_on_free_list s bl live a W). apply (in_addrs (a, n)). now right.
        -- destruct (blocks_ok_in _ _ _ _ W3 Hb) as (B1 & B2 & B3).
           cbn [fst snd] in *. destruct C8; nia.
        -- apply (lseg_size c _ _ _ (a, n) L (or_intror Hb)).
      * intros HB.
        assert (G : gblock bl live (a, n)).
        { destruct HB as [Hl | (OF & NB & SZ)]; [right; exact Hl | left].
          apply (WF_on_free_list s bl live a W) in OF.
          unfold addrs in OF. apply in_map_iff in OF. destruct OF as (x & Ex & Hx).
          destruct Hx as [<- | Hx]; [cbn [sentinel fst] in Ex; congruence|].
          pose proof (lseg_size c _ _ _ x L (or_intror Hx)) as SX.
          destruct x as (xa, xn). cbn [fst snd] in *. subst xa.
          assert (EN : xn = n) by congruence. rewrite <- EN. exact Hx. }
        destruct (gblock_facts s bl live _ W G) as (G1 & G2 & G3 & _).
        cbn [fst snd] in *.
        assert (GH : 1 * HSZ c <= n * HSZ c) by (apply Z.mul_le_mono_nonneg_r; lia).
        destruct (chain_cover l _ _ a CH ltac:(lia)) as (x & Hx & Hc).
        assert (E : x = (a, n)).
        { apply (gblock_same s bl live x (a, n) a W (GL x Hx) G Hc). cbn [fst snd]. lia. }
        subst x. exact Hx.
    + intros _. exists R. auto.
Qed.

Lemma chain_sum : forall l lo hi,
  chain lo hi l -> hi = lo + fold_right Z.add 0 (map snd l) * HSZ c.
Proof.
  induction l as [|x r IH]; cbn [chain map fold_right]; intros lo hi CH; [lia|].
  destruct CH as (_ & _ & CH). rewrite (IH _ _ CH). ring.
Qed.

(** X10. The pool section of [memmgr_print_stats]: in a state reached
    from [memmgr_init] by calls whose size arithmetic does not wrap around
    the size type, the walk over the pool ends, and the blocks it prints
    follow each other from the start of the pool to the cursor; they are
    exactly the live blocks and the blocks of the free list, each with its
    size, and their sizes add up to [pool_free_pos]. The header line prints
    [POOL_SIZE - pool_free_pos] bytes left without wrap-around. *)
Theorem print_stats_lists_every_block s live :
  reachable s live ->
  exists f0, forall fuel, (f0 <= fuel)%nat ->
    exists l fs,
      memmgr_print_stats fuel s =
        Some (LTitle :: LPool (pool_free_pos s) (POOL_SIZE c - pool_free_pos s)
              :: map block_line l ++ LFreeTitle :: fs ++ [LEnd]) /\
      chain (pool c) (pool c + pool_free_pos s) l /\
      pool_free_pos s = fold_right Z.add 0 (map snd l) * HSZ c /\
      (forall a n, In (a, n) l <->
         live a n \/
         (on_free_list s a /\ a <> base c /\ ld_size c (mem s) a = n)).
Proof.
  intros RS. destruct (print_stats_run s live RS) as (f0 & RUN).
  exists f0. intros fuel Hfuel.
  destruct (RUN fuel Hfuel) as (l & fs & E & CH & BL & _).
  exists l, fs. split; [exact E|]. split; [exact CH|]. split; [|exact BL].
  pose proof (chain_sum l _ _ CH). lia.
Qed.




Lemma has_room_mono s nq nq' : nq <= nq' -> has_room s nq' -> has_room s nq.
Proof.
  pose proof (HSZ_ge2 c LAY) as H2.
  intros LE [R1 | (a & OF & SZ)].
  - left. assert (carve_quantas nq <= carve_quantas nq').
    { unfold carve_quantas.
      destruct (Z.ltb_spec nq (MIN_POOL_ALLOC_QUANTAS c));
        destruct (Z.ltb_spec nq' (MIN_POOL_ALLOC_QUANTAS c)); lia. }
    nia.
  - right. exists a. split; [exact OF | lia].
Qed.

Lemma quantas_mono n m :
  request_exact n -> request_exact m -> n <= m -> quantas c n <= quantas c m.
Proof.
  pose proof (HSZ_ge2 c LAY) as H2.
  intros RN RM LE.
  destruct (request_exact_quantas n RN) as (-> & _).
  destruct (request_exact_quantas m RM) as (-> & _).
  assert ((n + HSZ c - 1) / HSZ c <= (m + HSZ c - 1) / HSZ c)
    by (apply Z.div_le_mono; lia).
  lia.
Qed.

(** X13. Failure is monotone in the size: in a state reached from
    [memmgr_init] by calls whose size arithmetic does not wrap around the
    size type, where [memmgr_alloc] returns none for a request, it returns,
    and returns none, for every larger request (sizes whose arithmetic does
    not wrap). *)
Theorem larger_request_fails_too s live n m fuel s1 :
  reachable s live -> request_exact n -> request_exact m -> n <= m ->
  memmgr_alloc c fuel n s = Some (0, s1) ->
  exists f0, forall fuel', (f0 <= fuel')%nat ->
    exists s2, memmgr_alloc c fuel' m s = Some (0, s2).
Proof.
  intros RS RN RM LE RUN1. destruct (reachable_full s live RS) as (bl & I & T).
  destruct (alloc_full s bl live n fuel 0 s1 I T RN RUN1)
    as (_ & [(_ & _ & NR) | (NZ & _)]); [|contradiction].
  exists (2 * length bl + 4)%nat. intros fuel' Hfuel.
  destruct (memmgr_alloc_total s bl live m fuel' I Hfuel) as (r & s2 & RUN2 & _).
  destruct (alloc_full s bl live m fuel' r s2 I T RM RUN2)
    as (_ & [(E & _) | (_ & _ & HR & _)]).
  - subst r. exists s2. exact RUN2.
  - exfalso. apply NR. apply (has_room_mono s _ _ (quantas_mono n m RN RM LE) HR).
Qed.

(** X14. No adjacent free blocks: in every state reached from [memmgr_init]
    by calls whose size arithmetic does not wrap around the size type, no
    two distinct blocks of the free list are address-adjacent; and the pool
    carve [get_mem_from_pool] of a request that fits the pool, made in such
    a state once the free list exists, returns and leaves no two distinct
    free blocks adjacent either, before the search takes the block. *)
Theorem free_list_never_adjacent s live :
  reachable s live ->
  no_adjacent_free s /\
  (forall nq,
     freep s <> 0 -> 1 <= nq -> nq * HSZ c <= POOL_SIZE c ->
     exists f0, forall fuel, (f0 <= fuel)%nat ->
       exists r s',
         get_mem_from_pool c fuel nq s = Some (r, s') /\ no_adjacent_free s').
Proof.
  intros RS. destruct (reachable_Inv s live RS) as (bl & I).
  split; [apply (Inv_no_adjacent s bl live I)|].
  intros nq FP N1 NP.
  destruct I as [(E & _) | W]; [contradiction|].
  exists (S (length bl)). intros fuel Hfuel.
  destruct (get_mem_from_pool_WF s bl live nq fuel W N1 NP ltac:(lia))
    as [(_ & E) | (_ & s2 & P & bl' & E & _ & _ & _ & W' & _)].
  - exists 0, s. split; [exact E|]. apply (WF_no_adjacent s bl live W).
  - exists (fst P), s2. split; [exact E|]. apply (WF_no_adjacent s2 bl' live W').
Qed.

(** X15. The pool cursor: in every state reached from [memmgr_init] by calls
    whose size arithmetic does not wrap around the size type,
    [0 <= pool_free_pos <= POOL_SIZE] and [pool_free_pos] is a multiple of
    the header size; every further call other than [memmgr_init], given a
    null or live pointer and a size whose arithmetic does not wrap, returns
    and leaves [pool_free_pos] where it was or further on, by a whole number
    of headers. *)
Theorem pool_cursor_in_range s live :
  reachable s live ->
  0 <= pool_free_pos s <= POOL_SIZE c /\
  pool_free_pos s mod HSZ c = 0 /\
  (forall o, op_ok live o -> o <> OpInit ->
     exists f0, forall fuel, (f0 <= fuel)%nat ->
       exists r s',
         run_op fuel o s = Some (r, s') /\
         pool_free_pos s <= pool_free_pos s' /\
         (pool_free_pos s' - pool_free_pos s) mod HSZ c = 0).
Proof.
  pose proof (HSZ_ge2 c LAY) as H2.
  pose proof CFG as CFG0.
  destruct CFG0 as (_ & C1 & C2 & C3 & C4 & C5 & C6 & C7 & C8).
  intros RS. destruct (reachable_Inv s live RS) as (bl & I).
  split; [|split].
  - destruct I as [(_ & E & _) | (W1 & _)]; lia.
  - destruct (reachable_cursor_quantas s live RS) as (j & _ & E).
    rewrite E. apply Z_mod_mult.
  - intros o OK NI. destruct (run_op_returns s live o RS OK) as (f0 & RET).
    exists f0. intros fuel Hfuel. destruct (RET fuel Hfuel) as (r & s' & RUN).
    exists r, s'. split; [exact RUN|].
    destruct (step_Inv s bl live o fuel r s' I OK RUN) as (ADV & _).
    destruct (ADV NI) as (j & J0 & E). rewrite E. split; [nia|].
    replace (pool_free_pos s + j * HSZ c - pool_free_pos s) with (j * HSZ c) by ring.
    apply Z_mod_mult.
Qed.

End Canon.

(** ** A concrete configuration: 64-bit, 16-byte headers, 64 quantas *)

Definition cfg64 : config :=
  mkConfig 16 8 8 8 1024 4 4096 1024.

Definition zero_mem : memory := fun _ => 0.
Definition boot : state := mkState zero_mem 0 0.

Lemma cfg64_ok : cfg_ok cfg64.
Proof.
  unfold cfg_ok, layout_ok, IMOD, PMOD, cfg64.
  cbn [HSZ PTR_BYTES INT_BYTES SIZE_OFF POOL_SIZE MIN_POOL_ALLOC_QUANTAS pool base].
  change (256 ^ Z.of_nat 8) with 18446744073709551616. lia.
Qed.

(** ** Running calls on a concrete state *)

(* the state after the call [o]; a call that runs out of fuel leaves [s] *)
Definition after (c : config) (fuel : nat) (o : op) (s : state) : state :=
  match run_op c fuel o s with
  | Some (_, s') => s'
  | None => s
  end.

Lemma run_op_after c fuel o s r :
  option_map fst (run_op c fuel o s) = Some r ->
  run_op c fuel o s = Some (r, after c fuel o s).
Proof.
  unfold after. destruct (run_op c fuel o s) as [[r' s']|]; cbn; [|discriminate].
  intros E. injection E. intros ->. reflexivity.
Qed.

Lemma reach_after c fuel o s live r :
  reachable c s live -> op_ok c live o ->
  option_map fst (run_op c fuel o s) = Some r ->
  reachable c (after c fuel o s) (live_after c o r live).
Proof.
  intros RS OK E.
  apply (reach_step c s live o fuel r _ RS OK (run_op_after c fuel o s r E)).
Qed.

(* a sequence of calls, with the values they return *)
Fixpoint run_ops (c : config) (fuel : nat) (os : list op) (s : state)
  : option (list Z * state) :=
  match os with
  | [] => Some ([], s)
  | o :: os' =>
      match run_op c fuel o s with
      | None => None
      | Some (r, s1) =>
          match run_ops c fuel os' s1 with
          | None => None
          | Some (rs, s2) => Some (r :: rs, s2)
          end
      end
  end.

Definition final (c : config) (fuel : nat) (os : list op) (s : state) : state :=
  match run_ops c fuel os s with
  | Some (_, s') => s'
  | None => s
  end.

Lemma run_ops_final c fuel os s rs :
  option_map fst (run_ops c fuel os s) = Some rs ->
  run_ops c fuel os s = Some (rs, final c fuel os s).
Proof.
  unfold final. destruct (run_ops c fuel os s) as [[rs' s']|]; cbn; [|discriminate].
  intros E. injection E. intros ->. reflexivity.
Qed.

(* the state of a result, for results computed on concrete states *)
Definition state_of (x : option (Z * state)) (d : state) : state :=
  match x with
  | Some (_, s) => s
  | None => d
  end.

Lemma some_state (x : option (Z * state)) d r :
  option_map fst x = Some r -> x = Some (r, state_of x d).
Proof.
  destruct x as [[r' s]|]; cbn; [|discriminate].
  intros E. injection E. intros ->. reflexivity.
Qed.



(** ** States of the concrete configuration *)

Definition no_live : Z -> Z -> Prop := fun _ _ => False.

(* after memmgr_init *)
Definition st0 : state := memmgr_init cfg64 boot.

(* after p = memmgr_alloc(20): p = 4128, a block of 3 quantas at 4112 *)
Definition st1 : state := after cfg64 8 (OpAlloc 20) st0.
Definition live1 : Z -> Z -> Prop := live_after cfg64 (OpAlloc 20) 4128 no_live.

Lemma st0_reachable : reachable cfg64 st0 no_live.
Proof. apply reach_init. Qed.

Lemma request_exact_20 : request_exact cfg64 20.
Proof. unfold request_exact. vm_compute. split; [discriminate | reflexivity]. Qed.

Lemma st1_reachable : reachable cfg64 st1 live1.
Proof.
  apply (reach_after cfg64 8 (OpAlloc 20) st0 no_live 4128 st0_reachable).
  - exact request_exact_20.
  - vm_compute. reflexivity.
Qed.

Lemma live1_block : live1 4112 3.
Proof. right. split; reflexivity. Qed.

(* a request whose size in bytes wraps around the 64-bit size type *)
Definition wrapping_request : Z := 2 ^ 64 - 47.

(** ** The theorems at concrete inputs *)

Lemma realloc_shrink_in_place_witness :
  (reachable cfg64 st1 live1 /\ live1 4112 3 /\ (5 + 16 - 1) / 16 + 1 <= 3) /\
  memmgr_realloc cfg64 8 (4112 + 16) 5 st1 = Some (4112 + 16, st1).
Proof.
  assert (Q : (5 + 16 - 1) / 16 + 1 <= 3) by (vm_compute; discriminate).
  split; [split; [exact st1_reachable | split; [exact live1_block | exact Q]]|].
  exact (realloc_shrink_in_place cfg64 cfg64_ok st1 live1 4112 3 5 8
           st1_reachable live1_block ltac:(lia) Q).
Defined.

Lemma realloc_failure_atomic_witness :
  (reachable cfg64 st1 live1 /\ live1 4112 3 /\ 3 < quantas cfg64 2000) /\
  exists f0, forall fuel, (f0 <= fuel)%nat ->
    exists r s1,
      memmgr_alloc cfg64 fuel 2000 st1 = Some (r, s1) /\
      (r = 0 -> memmgr_realloc cfg64 fuel (4112 + 16) 2000 st1 = Some (0, st1)).
Proof.
  assert (Q : 3 < quantas cfg64 2000) by (vm_compute; reflexivity).
  split; [split; [exact st1_reachable | split; [exact live1_block | exact Q]]|].
  exact (realloc_failure_atomic cfg64 cfg64_ok st1 live1 4112 3 2000
           st1_reachable live1_block ltac:(discriminate) Q).
Defined.

Lemma memmgr_init_frame_witness :
  cfg_ok cfg64 /\
  freep (memmgr_init cfg64 st1) = 0 /\
  pool_free_pos (memmgr_init cfg64 st1) = 0 /\
  ld_next cfg64 (mem (memmgr_init cfg64 st1)) (base cfg64) = 0 /\
  ld_size cfg64 (mem (memmgr_init cfg64 st1)) (base cfg64) = 0 /\
  (forall z, ~ in_base cfg64 z -> mem (memmgr_init cfg64 st1) z = mem st1 z) /\
  (forall z, pool cfg64 <= z < pool cfg64 + POOL_SIZE cfg64 ->
             mem (memmgr_init cfg64 st1) z = mem st1 z).
Proof.
  split; [exact cfg64_ok|]. exact (memmgr_init_frame cfg64 cfg64_ok st1).
Defined.

Lemma request_exact_1 : request_exact cfg64 1.
Proof. unfold request_exact. vm_compute. split; [discriminate | reflexivity]. Qed.

(* in st1 the pool can be carved, and the block at 4096 is free *)
Lemma st1_room : has_room cfg64 st1 1.
Proof. left. vm_compute. discriminate. Qed.

(* memmgr_alloc(0) in st1, where the block at 4112 is live *)
Lemma alloc_zero_takes_header_only_witness :
  (reachable cfg64 st1 live1 /\ has_room cfg64 st1 1 /\ live1 4112 3) /\
  exists f0, forall fuel, (f0 <= fuel)%nat ->
    exists r s',
      memmgr_alloc cfg64 fuel 0 st1 = Some (r, s') /\
      r <> 0 /\
      (forall b k, live1 b k -> r <> b + HSZ cfg64) /\
      ld_size cfg64 (mem s') (r - HSZ cfg64) = 1 /\
      reachable cfg64 s' (live_add live1 (r - HSZ cfg64) 1).
Proof.
  split; [split; [exact st1_reachable | split; [exact st1_room | exact live1_block]]|].
  exact (alloc_zero_takes_header_only cfg64 cfg64_ok st1 live1
           st1_reachable st1_room).
Defined.

(* memmgr_calloc(2^63 + 10, 2) in st1: the product is 2^64 + 20, the call
   acts on 20 *)
Lemma calloc_acts_on_wrapped_product_witness :
  (IMOD cfg64 <= (2 ^ 63 + 10) * 2 /\ wrap cfg64 ((2 ^ 63 + 10) * 2) = 20 /\
   reachable cfg64 st1 live1 /\
   request_ok cfg64 (wrap cfg64 ((2 ^ 63 + 10) * 2)) /\
   has_room cfg64 st1 (quantas cfg64 (wrap cfg64 ((2 ^ 63 + 10) * 2)))) /\
  (forall fuel,
     memmgr_calloc cfg64 fuel (2 ^ 63 + 10) 2 st1 =
     memmgr_calloc cfg64 fuel 1 (wrap cfg64 ((2 ^ 63 + 10) * 2)) st1) /\
  exists f0, forall fuel, (f0 <= fuel)%nat ->
    exists r s',
      memmgr_calloc cfg64 fuel (2 ^ 63 + 10) 2 st1 = Some (r, s') /\
      r <> 0 /\
      (forall i, 0 <= i < wrap cfg64 ((2 ^ 63 + 10) * 2) -> mem s' (r + i) = 0) /\
      ld_size cfg64 (mem s') (r - HSZ cfg64) =
        quantas cfg64 (wrap cfg64 ((2 ^ 63 + 10) * 2)) /\
      reachable cfg64 s'
        (live_add live1 (r - HSZ cfg64)
           (quantas cfg64 (wrap cfg64 ((2 ^ 63 + 10) * 2)))).
Proof.
  assert (RQ : request_ok cfg64 (wrap cfg64 ((2 ^ 63 + 10) * 2)))
    by (unfold request_ok; vm_compute; split; discriminate).
  assert (HR : has_room cfg64 st1 (quantas cfg64 (wrap cfg64 ((2 ^ 63 + 10) * 2))))
    by (left; vm_compute; discriminate).
  destruct (calloc_acts_on_wrapped_product cfg64 cfg64_ok st1 (2 ^ 63 + 10) 2)
    as (SAME & RUN).
  split; [|split; [exact SAME | exact (RUN live1 st1_reachable RQ HR)]].
  split; [vm_compute; discriminate|]. split; [vm_compute; reflexivity|].
  split; [exact st1_reachable|]. split; [exact RQ | exact HR].
Defined.

Lemma request_exact_40 : request_exact cfg64 40.
Proof. unfold request_exact. vm_compute. split; [discriminate | reflexivity]. Qed.

Lemma realloc_grow_copies_and_frees_witness :
  (reachable cfg64 st1 live1 /\ live1 4112 3 /\ request_exact cfg64 40 /\
   3 < (40 + 16 - 1) / 16 + 1) /\
  exists f0, forall fuel, (f0 <= fuel)%nat ->
    exists r s1 s',
      memmgr_alloc cfg64 fuel 40 st1 = Some (r, s1) /\
      memmgr_realloc cfg64 fuel (4112 + 16) 40 st1 = Some (r, s') /\
      (r <> 0 ->
       (forall i, 0 <= i < Z.min 40 ((3 - 1) * 16) ->
                  mem s' (r + i) = mem st1 (4112 + 16 + i)) /\
       (forall z, 4112 <= z < 4112 + 3 * 16 ->
          exists a, on_free_list cfg64 s' a /\
                    a <= z < a + ld_size cfg64 (mem s') a * 16) /\
       reachable cfg64 s'
         (live_del (live_add live1 (r - 16) (quantas cfg64 40)) 4112)).
Proof.
  assert (Q : 3 < (40 + 16 - 1) / 16 + 1) by (vm_compute; reflexivity).
  split.
  - split; [exact st1_reachable|]. split; [exact live1_block|].
    split; [exact request_exact_40 | exact Q].
  - exact (realloc_grow_copies_and_frees cfg64 cfg64_ok st1 live1 4112 3 40
             st1_reachable live1_block request_exact_40 Q).
Defined.

Lemma immediate_reuse_witness :
  (POOL_SIZE cfg64 = 64 * HSZ cfg64 /\ MIN_POOL_ALLOC_QUANTAS cfg64 = 4) /\
  exists p1 s1 s2 p2 s3,
    memmgr_alloc cfg64 5 1 (memmgr_init cfg64 boot) = Some (p1, s1) /\
    memmgr_free cfg64 5 p1 s1 = Some s2 /\
    memmgr_alloc cfg64 5 1 s2 = Some (p2, s3) /\
    p1 <> 0 /\ p2 <> 0 /\ p1 = p2.
Proof.
  split; [split; reflexivity|].
  apply (immediate_reuse cfg64 cfg64_ok boot 5); [reflexivity | reflexivity | lia].
Defined.

(** ** Where the code departs from the description

    [memmgr_alloc] and [get_mem_from_pool] compute sizes in [memmgr_int_t]
    with no overflow check. The request of [2^64 - 47] bytes is quantized to
    [2^60 - 1] quantas, whose size in bytes wraps to [2^64 - 16]; added to
    the cursor it wraps again, so the bound check
    [pool_free_pos + total_req_size <= POOL_SIZE] of [get_mem_from_pool]
    passes, a header of [2^60 - 1] quantas is put on the free list and the
    cursor moves back by 16. The calls below are run in the 64-bit
    configuration from the zeroed start state; every pointer passed is one
    the allocator returned and has not freed. The one address sum that
    passes the pointer modulus on the way is the end of the block of
    [2^60 - 1] quantas in the merge test of [memmgr_free]: the code compares
    it reduced (4144), the model unreduced, with a [next] field (1024) that
    equals neither, so the runs are those of the code. *)

Definition adjacent_calls : list op :=
  [OpInit; OpAlloc 1; OpAlloc wrapping_request; OpAlloc 1; OpAlloc 1;
   OpFree 4144; OpFree 4112; OpFree 4176].

(** C1 (defect of the code). After the calls [adjacent_calls], each free of
    a pointer the allocator returned, the free list holds the block at 4096,
    of 4 quantas, and the block at 4160: two distinct free blocks that are
    address-adjacent, against the coalescing the description asks for. *)
Lemma free_blocks_adjacent_after_wrapped_request :
  exists s,
    run_ops cfg64 8 adjacent_calls boot =
      Some ([0; 4144; 4176; 4112; 4192; 0; 0; 0], s) /\
    on_free_list cfg64 s 4096 /\ on_free_list cfg64 s 4160 /\
    4096 + ld_size cfg64 (mem s) 4096 * HSZ cfg64 = 4160 /\
    ~ no_adjacent_free cfg64 s.
Proof.
  exists (final cfg64 8 adjacent_calls boot).
  assert (F1 : on_free_list cfg64 (final cfg64 8 adjacent_calls boot) 4096).
  { split; [vm_compute; discriminate | exists 3%nat; vm_compute; reflexivity]. }
  assert (F2 : on_free_list cfg64 (final cfg64 8 adjacent_calls boot) 4160).
  { split; [vm_compute; discriminate | exists 1%nat; vm_compute; reflexivity]. }
  assert (AD : 4096 + ld_size cfg64 (mem (final cfg64 8 adjacent_calls boot)) 4096
                      * HSZ cfg64 = 4160) by (vm_compute; reflexivity).
  split; [apply run_ops_final; vm_compute; reflexivity|].
  split; [exact F1|]. split; [exact F2|]. split; [exact AD|].
  intros NA. specialize (NA 4096 4160 F1 F2 AD). discriminate.
Qed.

(** C2 (defect of the code). After [memmgr_init] and [memmgr_alloc 1] the
    cursor is 64; [memmgr_alloc] of [2^64 - 47] bytes returns a pointer and
    leaves the cursor at 48: [pool_free_pos] has decreased without a
    [memmgr_init]. *)
Lemma pool_cursor_decreases_after_wrapped_request :
  exists s1 s2,
    run_ops cfg64 8 [OpInit; OpAlloc 1] boot = Some ([0; 4144], s1) /\
    run_op cfg64 8 (OpAlloc wrapping_request) s1 = Some (4176, s2) /\
    pool_free_pos s1 = 64 /\ pool_free_pos s2 = 48 /\
    ~ pool_free_pos s1 <= pool_free_pos s2.
Proof.
  exists (final cfg64 8 [OpInit; OpAlloc 1] boot).
  exists (after cfg64 8 (OpAlloc wrapping_request)
            (final cfg64 8 [OpInit; OpAlloc 1] boot)).
  split; [apply run_ops_final; vm_compute; reflexivity|].
  split; [apply run_op_after; vm_compute; reflexivity|].
  split; [vm_compute; reflexivity|]. split; [vm_compute; reflexivity|].
  vm_compute. intros H. apply H. reflexivity.
Qed.

(* the caller stores into the payload of its block at 4144 *)
Definition overlapped_calls : list op :=
  [OpInit; OpAlloc 1; OpAlloc wrapping_request; OpWrite 4144 161; OpWrite 4159 176].

(** C6 (defect of the code). After the calls [overlapped_calls] the block of
    the pointer 4144 is live, of 2 quantas, and its payload starts with the
    byte 161 the caller stored. [memmgr_realloc 4144 40] needs 4 quantas and
    takes the grow path: the allocation inside it succeeds, but its carve
    starts at the cursor 48, inside that payload, so the header of the carved
    block is written over the payload before the copy. The call returns 4160,
    and the first byte there is 0, not the old payload byte 161. *)
Lemma realloc_copies_overwritten_payload :
  exists s s',
    run_ops cfg64 8 overlapped_calls boot = Some ([0; 4144; 4176; 0; 0], s) /\
    ld_size cfg64 (mem s) (4144 - HSZ cfg64) = 2 /\
    2 < (40 + HSZ cfg64 - 1) / HSZ cfg64 + 1 /\
    0 < Z.min 40 ((2 - 1) * HSZ cfg64) /\
    mem s 4144 = 161 /\
    memmgr_realloc cfg64 8 4144 40 s = Some (4160, s') /\
    mem s' 4160 = 0 /\
    mem s' 4160 <> mem s 4144.
Proof.
  exists (final cfg64 8 overlapped_calls boot).
  exists (state_of (memmgr_realloc cfg64 8 4144 40
                      (final cfg64 8 overlapped_calls boot)) boot).
  split; [apply run_ops_final; vm_compute; reflexivity|].
  split; [vm_compute; reflexivity|]. split; [vm_compute; reflexivity|].
  split; [vm_compute; reflexivity|]. split; [vm_compute; reflexivity|].
  split; [apply some_state; vm_compute; reflexivity|].
  split; [vm_compute; reflexivity|]. vm_compute. discriminate.
Qed.

(** C9 (defect of the code). In the state after [memmgr_init] and
    [memmgr_alloc 1], a state of the allocator invariant with the cursor at
    64, the carve that [memmgr_alloc] makes for the request of [2^64 - 47]
    bytes, [get_mem_from_pool] of [2^60 - 1] quantas, returns a block and
    leaves the cursor at 48: the carve has not advanced [pool_free_pos] by
    [MIN_POOL_ALLOC_QUANTAS] headers, it has moved it back. The call of
    [memmgr_alloc] itself returns. *)
Lemma carve_of_wrapped_request_moves_cursor_back :
  exists s1 s2 s3,
    run_ops cfg64 8 [OpInit; OpAlloc 1] boot = Some ([0; 4144], s1) /\
    quantas cfg64 wrapping_request = 2 ^ 60 - 1 /\
    get_mem_from_pool cfg64 8 (quantas cfg64 wrapping_request) s1 = Some (4096, s2) /\
    pool_free_pos s1 = 64 /\ pool_free_pos s2 = 48 /\
    ~ pool_free_pos s1 + MIN_POOL_ALLOC_QUANTAS cfg64 * HSZ cfg64
        <= pool_free_pos s2 /\
    memmgr_alloc cfg64 8 wrapping_request s1 = Some (4176, s3).
Proof.
  exists (final cfg64 8 [OpInit; OpAlloc 1] boot).
  exists (state_of (get_mem_from_pool cfg64 8 (quantas cfg64 wrapping_request)
                      (final cfg64 8 [OpInit; OpAlloc 1] boot)) boot).
  exists (state_of (memmgr_alloc cfg64 8 wrapping_request
                      (final cfg64 8 [OpInit; OpAlloc 1] boot)) boot).
  split; [apply run_ops_final; vm_compute; reflexivity|].
  split; [vm_compute; reflexivity|].
  split; [apply some_state; vm_compute; reflexivity|].
  split; [vm_compute; reflexivity|]. split; [vm_compute; reflexivity|].
  split; [vm_compute; intros H; apply H; reflexivity|].
  apply some_state. vm_compute. reflexivity.
Qed.

(* C3 as stated fails: the block of memmgr_alloc(0) is one quantum, its
   header, and the pointer of the second call is the address of the header
   of the first block; and after the request that wraps, the last of five
   calls of memmgr_alloc(0) returns 4176, the pointer that request was given
   and that was never freed. *)
Lemma alloc_zero_has_no_payload :
  (exists s,
     run_ops cfg64 8 [OpInit; OpAlloc 0; OpAlloc 0] boot =
       Some ([0; 4160; 4144], s) /\
     ld_size cfg64 (mem s) (4160 - HSZ cfg64) = 1 /\
     ld_size cfg64 (mem s) (4144 - HSZ cfg64) = 1 /\
     4144 = 4160 - HSZ cfg64) /\
  option_map fst
    (run_ops cfg64 8
       [OpInit; OpAlloc 1; OpAlloc wrapping_request;
        OpAlloc 0; OpAlloc 0; OpAlloc 0; OpAlloc 0; OpAlloc 0] boot) =
    Some [0; 4144; 4176; 4128; 4112; 4208; 4192; 4176].
Proof.
  split; [|vm_compute; reflexivity].
  exists (final cfg64 8 [OpInit; OpAlloc 0; OpAlloc 0] boot).
  split; [apply run_ops_final; vm_compute; reflexivity|].
  split; [vm_compute; reflexivity|]. split; vm_compute; reflexivity.
Qed.

Lemma calloc_after c fuel num nbytes s r :
  option_map fst (memmgr_calloc c fuel num nbytes s) = Some r ->
  memmgr_calloc c fuel num nbytes s =
    Some (r, after c fuel (OpCalloc num nbytes) s).
Proof. exact (run_op_after c fuel (OpCalloc num nbytes) s r). Qed.

(* C4 as stated fails: 2^63 * 2 overflows the 64-bit size type, and the call
   returns a block and moves the cursor. *)
Lemma calloc_overflow_allocates :
  IMOD cfg64 <= 2 ^ 63 * 2 /\
  exists s,
    memmgr_calloc cfg64 8 (2 ^ 63) 2 st0 = Some (4160, s) /\
    pool_free_pos st0 = 0 /\ pool_free_pos s = 64 /\
    freep st0 = 0 /\ freep s = base cfg64.
Proof.
  split; [vm_compute; discriminate|].
  exists (after cfg64 8 (OpCalloc (2 ^ 63) 2) st0).
  split; [apply calloc_after; vm_compute; reflexivity|].
  split; [vm_compute; reflexivity|]. split; [vm_compute; reflexivity|].
  split; vm_compute; reflexivity.
Qed.

(** ** The further properties at concrete inputs *)

(* after q = memmgr_alloc(1) in st1: q = 4208 *)
Definition st2 : state := state_of (memmgr_alloc cfg64 8 1 st1) boot.

Lemma st2_run : memmgr_alloc cfg64 8 1 st1 = Some (4208, st2).
Proof. apply some_state. vm_compute. reflexivity. Qed.



Lemma st1_block_byte : 4112 <= 4130 < 4112 + 3 * HSZ cfg64.
Proof. change (HSZ cfg64) with 16. lia. Qed.

(* after memmgr_init and memmgr_alloc(900) = 4112: the cursor is 928, the
   free list is empty and 96 bytes of the pool are left *)
Definition st_full : state := after cfg64 8 (OpAlloc 900) st0.
Definition live_full : Z -> Z -> Prop := live_after cfg64 (OpAlloc 900) 4112 no_live.

Lemma request_exact_900 : request_exact cfg64 900.
Proof. unfold request_exact. vm_compute. split; [discriminate | reflexivity]. Qed.

Lemma request_exact_100 : request_exact cfg64 100.
Proof. unfold request_exact. vm_compute. split; [discriminate | reflexivity]. Qed.

Lemma request_exact_200 : request_exact cfg64 200.
Proof. unfold request_exact. vm_compute. split; [discriminate | reflexivity]. Qed.

Lemma st_full_reachable : reachable cfg64 st_full live_full.
Proof.
  apply (reach_after cfg64 8 (OpAlloc 900) st0 no_live 4112 st0_reachable).
  - exact request_exact_900.
  - vm_compute. reflexivity.
Qed.

Lemma pool_partition_witness :
  reachable cfg64 st1 live1 /\
  ((pool cfg64 <= 4100 < pool cfg64 + pool_free_pos st1 <->
    free_byte cfg64 st1 4100 \/ in_live cfg64 live1 4100) /\
   ~ (free_byte cfg64 st1 4100 /\ in_live cfg64 live1 4100)).
Proof.
  split; [exact st1_reachable|].
  exact (pool_partition cfg64 cfg64_ok st1 live1 st1_reachable 4100).
Defined.

Lemma calls_keep_live_blocks_witness :
  (reachable cfg64 st1 live1 /\ op_ok cfg64 live1 (OpAlloc 1) /\
   run_op cfg64 8 (OpAlloc 1) st1 = Some (4208, st2) /\ live1 4112 3) /\
  mem st2 4130 = mem st1 4130.
Proof.
  assert (LA : live_after cfg64 (OpAlloc 1) 4208 live1 4112 3)
    by (left; exact live1_block).
  split.
  - split; [exact st1_reachable|]. split; [exact request_exact_1|].
    split; [exact st2_run | exact live1_block].
  - exact (calls_keep_live_blocks cfg64 cfg64_ok st1 live1 (OpAlloc 1) 8 4208 st2
             4112 3 4130 st1_reachable request_exact_1 st2_run live1_block LA
             st1_block_byte I).
Defined.

Lemma alloc_block_is_safe_witness :
  (reachable cfg64 st1 live1 /\ request_exact cfg64 1 /\
   memmgr_alloc cfg64 8 1 st1 = Some (4208, st2)) /\
  (pool cfg64 + HSZ cfg64 <= 4208 /\
   ld_size cfg64 (mem st2) (4208 - HSZ cfg64) = quantas cfg64 1 /\
   1 <= (quantas cfg64 1 - 1) * HSZ cfg64 /\
   4208 + (quantas cfg64 1 - 1) * HSZ cfg64 <= pool cfg64 + pool_free_pos st2 /\
   pool_free_pos st2 <= POOL_SIZE cfg64 /\
   (forall b k, live1 b k ->
      b + k * HSZ cfg64 <= 4208 - HSZ cfg64 \/
      4208 - HSZ cfg64 + quantas cfg64 1 * HSZ cfg64 <= b)).
Proof.
  split.
  - split; [exact st1_reachable|]. split; [exact request_exact_1 | exact st2_run].
  - apply (alloc_block_is_safe cfg64 cfg64_ok st1 live1 1 8 4208 st2
             st1_reachable request_exact_1 st2_run).
    discriminate.
Defined.

(* in st_full the request of 100 bytes (8 quantas) fails and that of 20
   bytes (3 quantas, a carve of 4) succeeds; both are smaller than the pool *)
Lemma alloc_fails_iff_no_room_witness :
  (reachable cfg64 st_full live_full /\
   request_exact cfg64 100 /\ request_exact cfg64 20 /\
   option_map fst (memmgr_alloc cfg64 8 100 st_full) = Some 0 /\
   option_map fst (memmgr_alloc cfg64 8 20 st_full) = Some 5056) /\
  (exists f0, forall fuel, (f0 <= fuel)%nat ->
     exists r s',
       memmgr_alloc cfg64 fuel 100 st_full = Some (r, s') /\
       (r = 0 <-> ~ has_room cfg64 st_full (quantas cfg64 100)) /\
       (r = 0 -> s' = started cfg64 st_full /\
                 pool_free_pos s' = pool_free_pos st_full /\
                 (freep st_full <> 0 -> s' = st_full) /\
                 (forall z, ~ in_base cfg64 z -> mem s' z = mem st_full z))) /\
  (exists f0, forall fuel, (f0 <= fuel)%nat ->
     exists r s',
       memmgr_alloc cfg64 fuel 20 st_full = Some (r, s') /\
       (r = 0 <-> ~ has_room cfg64 st_full (quantas cfg64 20)) /\
       (r = 0 -> s' = started cfg64 st_full /\
                 pool_free_pos s' = pool_free_pos st_full /\
                 (freep st_full <> 0 -> s' = st_full) /\
                 (forall z, ~ in_base cfg64 z -> mem s' z = mem st_full z))).
Proof.
  split; [|split].
  - split; [exact st_full_reachable|]. split; [exact request_exact_100|].
    split; [exact request_exact_20|]. split; vm_compute; reflexivity.
  - exact (alloc_fails_iff_no_room cfg64 cfg64_ok st_full live_full 100
             st_full_reachable request_exact_100).
  - exact (alloc_fails_iff_no_room cfg64 cfg64_ok st_full live_full 20
             st_full_reachable request_exact_20).
Defined.



Lemma st1_realloc_ok : op_ok cfg64 live1 (OpRealloc (4112 + 16) 40).
Proof.
  right. split; [discriminate|]. split; [exists 3; exact live1_block|].
  right. exact request_exact_40.
Qed.

Lemma calls_return_witness :
  (reachable cfg64 st1 live1 /\ op_ok cfg64 live1 (OpRealloc (4112 + 16) 40)) /\
  exists f0, forall fuel, (f0 <= fuel)%nat ->
    exists r s', run_op cfg64 fuel (OpRealloc (4112 + 16) 40) st1 = Some (r, s').
Proof.
  split; [split; [exact st1_reachable | exact st1_realloc_ok]|].
  exact (calls_return cfg64 cfg64_ok st1 live1 _ st1_reachable st1_realloc_ok).
Defined.

Lemma st1_freep : freep st1 <> 0.
Proof. vm_compute. discriminate. Qed.

Lemma st1_carve_fits : 2 * HSZ cfg64 <= POOL_SIZE cfg64.
Proof. vm_compute. discriminate. Qed.

(* get_mem_from_pool(2) in st1 carves 4 headers at the cursor 64 *)
Lemma get_mem_from_pool_contract_witness :
  (reachable cfg64 st1 live1 /\ freep st1 <> 0 /\ 2 * HSZ cfg64 <= POOL_SIZE cfg64 /\
   option_map fst (get_mem_from_pool cfg64 8 2 st1) = Some 4096) /\
  exists f0, forall fuel, (f0 <= fuel)%nat ->
    exists r s',
      get_mem_from_pool cfg64 fuel 2 st1 = Some (r, s') /\
      ((POOL_SIZE cfg64 < pool_free_pos st1 + carve_quantas cfg64 2 * HSZ cfg64 /\
        r = 0 /\ s' = st1) \/
       (pool_free_pos st1 + carve_quantas cfg64 2 * HSZ cfg64 <= POOL_SIZE cfg64 /\
        r <> 0 /\ r = freep s' /\
        pool_free_pos s' = pool_free_pos st1 + carve_quantas cfg64 2 * HSZ cfg64 /\
        (forall z, free_byte cfg64 s' z <->
                   free_byte cfg64 st1 z \/
                   pool cfg64 + pool_free_pos st1 <= z < pool cfg64 + pool_free_pos s') /\
        same_live cfg64 live1 st1 s')).
Proof.
  split.
  - split; [exact st1_reachable|]. split; [exact st1_freep|].
    split; [exact st1_carve_fits | vm_compute; reflexivity].
  - exact (get_mem_from_pool_contract cfg64 cfg64_ok st1 live1 2
             st1_reachable st1_freep ltac:(lia) st1_carve_fits).
Defined.

Lemma request_ok_20 : request_ok cfg64 20.
Proof. unfold request_ok. vm_compute. split; discriminate. Qed.

(* memmgr_alloc(20) right after memmgr_init: 3 quantas, a carve of 4 *)
Lemma first_alloc_address_witness :
  (request_ok cfg64 20 /\
   carve_quantas cfg64 (quantas cfg64 20) * HSZ cfg64 <= POOL_SIZE cfg64 /\
   option_map fst (memmgr_alloc cfg64 8 20 (memmgr_init cfg64 boot)) = Some 4128) /\
  exists r s',
    memmgr_alloc cfg64 8 20 (memmgr_init cfg64 boot) = Some (r, s') /\
    (carve_quantas cfg64 (quantas cfg64 20) * HSZ cfg64 <= POOL_SIZE cfg64 ->
     r = pool cfg64 +
         (carve_quantas cfg64 (quantas cfg64 20) - quantas cfg64 20) * HSZ cfg64 +
         HSZ cfg64 /\
     pool_free_pos s' = carve_quantas cfg64 (quantas cfg64 20) * HSZ cfg64) /\
    (POOL_SIZE cfg64 < carve_quantas cfg64 (quantas cfg64 20) * HSZ cfg64 ->
     r = 0 /\ pool_free_pos s' = 0).
Proof.
  split.
  - split; [exact request_ok_20|].
    split; [vm_compute; discriminate | vm_compute; reflexivity].
  - exact (first_alloc_address cfg64 cfg64_ok boot 20 8 request_ok_20 ltac:(lia)).
Defined.

Lemma print_stats_lists_every_block_witness :
  reachable cfg64 st1 live1 /\
  exists f0, forall fuel, (f0 <= fuel)%nat ->
    exists l fs,
      memmgr_print_stats cfg64 fuel st1 =
        Some (LTitle
              :: LPool (pool_free_pos st1) (POOL_SIZE cfg64 - pool_free_pos st1)
              :: map block_line l ++ LFreeTitle :: fs ++ [LEnd]) /\
      chain cfg64 (pool cfg64) (pool cfg64 + pool_free_pos st1) l /\
      pool_free_pos st1 = fold_right Z.add 0 (map snd l) * HSZ cfg64 /\
      (forall a n, In (a, n) l <->
         live1 a n \/
         (on_free_list cfg64 st1 a /\ a <> base cfg64 /\
          ld_size cfg64 (mem st1) a = n)).
Proof.
  split; [exact st1_reachable|].
  exact (print_stats_lists_every_block cfg64 cfg64_ok st1 live1 st1_reachable).
Defined.



(* after memmgr_alloc(100) failed in st_full *)
Definition st_full_failed : state := state_of (memmgr_alloc cfg64 8 100 st_full) boot.

Lemma st_full_failed_run : memmgr_alloc cfg64 8 100 st_full = Some (0, st_full_failed).
Proof. apply some_state. vm_compute. reflexivity. Qed.

(* in st_full, where 96 bytes of the pool are left, the request of 100 bytes
   fails, and so does that of 200 bytes *)
Lemma larger_request_fails_too_witness :
  (reachable cfg64 st_full live_full /\ 100 <= 200 /\
   request_exact cfg64 100 /\ request_exact cfg64 200 /\
   memmgr_alloc cfg64 8 100 st_full = Some (0, st_full_failed)) /\
  exists f0, forall fuel', (f0 <= fuel')%nat ->
    exists s2, memmgr_alloc cfg64 fuel' 200 st_full = Some (0, s2).
Proof.
  split.
  - split; [exact st_full_reachable|]. split; [lia|].
    split; [exact request_exact_100|].
    split; [exact request_exact_200 | exact st_full_failed_run].
  - exact (larger_request_fails_too cfg64 cfg64_ok st_full live_full 100 200 8
             st_full_failed st_full_reachable request_exact_100 request_exact_200
             ltac:(lia) st_full_failed_run).
Defined.

Lemma free_list_never_adjacent_witness :
  (reachable cfg64 st1 live1 /\ freep st1 <> 0 /\ 2 * HSZ cfg64 <= POOL_SIZE cfg64) /\
  no_adjacent_free cfg64 st1 /\
  exists f0, forall fuel, (f0 <= fuel)%nat ->
    exists r s',
      get_mem_from_pool cfg64 fuel 2 st1 = Some (r, s') /\ no_adjacent_free cfg64 s'.
Proof.
  destruct (free_list_never_adjacent cfg64 cfg64_ok st1 live1 st1_reachable)
    as (NA & CARVE).
  split; [|split; [exact NA|]].
  - split; [exact st1_reachable|]. split; [exact st1_freep | exact st1_carve_fits].
  - exact (CARVE 2 st1_freep ltac:(lia) st1_carve_fits).
Defined.

Lemma st1_alloc_not_init : OpAlloc 1 <> OpInit.
Proof. discriminate. Qed.

Lemma pool_cursor_in_range_witness :
  (reachable cfg64 st1 live1 /\ op_ok cfg64 live1 (OpAlloc 1) /\
   pool_free_pos st1 = 64 /\ pool_free_pos st2 = 128) /\
  0 <= pool_free_pos st1 <= POOL_SIZE cfg64 /\
  pool_free_pos st1 mod HSZ cfg64 = 0 /\
  exists f0, forall fuel, (f0 <= fuel)%nat ->
    exists r s',
      run_op cfg64 fuel (OpAlloc 1) st1 = Some (r, s') /\
      pool_free_pos st1 <= pool_free_pos s' /\
      (pool_free_pos s' - pool_free_pos st1) mod HSZ cfg64 = 0.
Proof.
  destruct (pool_cursor_in_range cfg64 cfg64_ok st1 live1 st1_reachable)
    as (B & M & A).
  split; [|split; [exact B | split; [exact M|]]].
  - split; [exact st1_reachable|]. split; [exact request_exact_1|].
    split; vm_compute; reflexivity.
  - exact (A (OpAlloc 1) request_exact_1 st1_alloc_not_init).
Defined.
